(** * Snowflake: a lightweight rainbow-table engine for 32-bit seeds

    A shallow embedding of the C sources of the rainbow-table engine
    (reduction, table-name codec, in-place quicksort, binary search,
    chain regeneration, lookup, exhaustive search) and the properties
    established about them.

    Conventions of the embedding.
    - [unsigned int] and [chainEntry] are integers in [0, 2^32); every
      arithmetic result is reduced with [u32].  [int] is an integer in
      [-2^31, 2^31), conversions go through [s32].
    - A buffer of [char] is a list of bytes, each in [0, 256); reading a
      [char] sign-extends the byte ([char] is signed on the targeted
      x86 hosts), reading an [unsigned int] through a cast pointer
      assembles four bytes in host (little-endian) order.
    - The mapped table is a list of [chain] records; a read outside of
      it is recorded as [OutOfBounds].
    - [for] loops with a known trip count recurse on that count; [while]
      and [do-while] loops take a budget of iterations and answer
      [OutOfFuel] when it is used up. *)

From Stdlib Require Import ZArith Lia List Ascii String Bool.
From stdpp Require Import base tactics option list.

Local Open Scope Z_scope.

(** ** Machine integers *)

Definition UINT_MODULUS : Z := 2 ^ 32.
Definition MAX_SEED : Z := 0xffffffff.
Definition INT_MAX : Z := 2 ^ 31 - 1.
Definition MAX_HASH_SIZE : Z := 64.

(** Conversion to [unsigned int]. *)
Definition u32 (z : Z) : Z := z mod UINT_MODULUS.

(** Conversion to [int] (two's complement). *)
Definition s32 (z : Z) : Z :=
  let m := z mod UINT_MODULUS in
  if m <? 2 ^ 31 then m else m - UINT_MODULUS.

(** Value of a [char] holding the byte [b]. *)
Definition char_of_byte (b : Z) : Z := if b <? 128 then b else b - 256.

Definition is_u32 (z : Z) : Prop := 0 <= z < UINT_MODULUS.
Definition is_byte (b : Z) : Prop := 0 <= b < 256.

(** ** Data model *)

Definition chainEntry := Z.

Record chain : Type := mkChain { startpoint : chainEntry; endpoint : chainEntry }.

(** A hash plug-in: fills the scratch buffer and returns it. *)
Definition hashFunc := Z -> list Z.

Module Reduction.

(** [hash[i]] as a raw byte. *)
Definition byte_at (hash : list Z) (i : Z) : Z := nth (Z.to_nat i) hash 0.

(** [*hashInt] where [hashInt] points at byte offset [off]. *)
Definition load_u32 (hash : list Z) (off : Z) : Z :=
  Z.lor (byte_at hash off)
    (Z.lor (Z.shiftl (byte_at hash (off + 1)) 8)
       (Z.lor (Z.shiftl (byte_at hash (off + 2)) 16)
              (Z.shiftl (byte_at hash (off + 3)) 24))).

(** [for (i = 0; i < hashLen / sizeof(chainEntry); i ++, hashInt ++)
      reduced ^= *hashInt;]
    [n] iterations remain and [hashInt] is at byte offset [off]. *)
Fixpoint xor_loop (n : nat) (hash : list Z) (off : Z) (reduced : Z) : Z :=
  match n with
  | O => reduced
  | S n' => xor_loop n' hash (off + 4) (Z.lxor reduced (load_u32 hash off))
  end.

(** One trip of the second loop:
    [reduced += (chainEntry) hash[hashLen - 1 - i];] *)
Definition add_step (hash : list Z) (hashLen i reduced : Z) : Z :=
  u32 (reduced + u32 (char_of_byte (byte_at hash (hashLen - 1 - i)))).

(** [for (i = 0; i < hashLen % sizeof(chainEntry); i++) ...] *)
Fixpoint add_loop (n : nat) (hash : list Z) (hashLen i reduced : Z) : Z :=
  match n with
  | O => reduced
  | S n' => add_loop n' hash hashLen (i + 1) (add_step hash hashLen i reduced)
  end.

Definition reduce (hash : list Z) (hashLen round : Z) : chainEntry :=
  let reduced := 0 in
  let reduced := xor_loop (Z.to_nat (hashLen / 4)) hash 0 reduced in
  let reduced := add_loop (Z.to_nat (hashLen mod 4)) hash hashLen 0 reduced in
  Z.lxor reduced round.

(** *** The reduction as the specification words it *)

(** The [k]-th little-endian 32-bit word of the digest. *)
Definition le_word (d : list Z) (k : nat) : Z :=
  byte_at d (4 * Z.of_nat k)
  + 2 ^ 8 * byte_at d (4 * Z.of_nat k + 1)
  + 2 ^ 16 * byte_at d (4 * Z.of_nat k + 2)
  + 2 ^ 24 * byte_at d (4 * Z.of_nat k + 3).

(** XOR-fold of the first [floor(digest_len / 4)] words. *)
Definition word_fold (d : list Z) (digest_len : Z) : Z :=
  fold_right Z.lxor 0 (map (le_word d) (seq 0 (Z.to_nat (digest_len / 4)))).

(** The trailing bytes, read from position [digest_len - 1 - i]. *)
Definition trailing_bytes (d : list Z) (digest_len : Z) : list Z :=
  map (fun i => byte_at d (digest_len - 1 - Z.of_nat i))
      (seq 0 (Z.to_nat (digest_len mod 4))).

Definition sum_list (l : list Z) : Z := fold_right Z.add 0 l.

(** Trailing bytes added with their unsigned value. *)
Definition reduce_spec_unsigned (d : list Z) (digest_len round : Z) : Z :=
  Z.lxor (u32 (word_fold d digest_len + sum_list (trailing_bytes d digest_len))) round.

(** Trailing bytes added with their value as a signed [char]. *)
Definition reduce_spec_signed (d : list Z) (digest_len round : Z) : Z :=
  Z.lxor (u32 (word_fold d digest_len
               + sum_list (map char_of_byte (trailing_bytes d digest_len)))) round.

End Reduction.

(** ** Reads of the mapped table *)

Inductive outcome (A : Type) : Type :=
| Done (a : A)
| OutOfBounds (idx : Z)
| OutOfFuel.
Arguments Done {A} a.
Arguments OutOfBounds {A} idx.
Arguments OutOfFuel {A}.

#[global] Instance outcome_ret : MRet outcome := @Done.
#[global] Instance outcome_bind : MBind outcome := fun A B f m =>
  match m with
  | Done a => f a
  | OutOfBounds idx => OutOfBounds idx
  | OutOfFuel => OutOfFuel
  end.

(** [table[i]] *)
Definition table_read (table : list chain) (i : Z) : outcome chain :=
  if i <? 0 then OutOfBounds i
  else match table !! Z.to_nat i with
       | Some c => Done c
       | None => OutOfBounds i
       end.

(** [memcmp(a, b, n) == 0] *)
Definition memcmp_eq (a b : list Z) (n : Z) : bool :=
  forallb (fun i => Reduction.byte_at a (Z.of_nat i) =? Reduction.byte_at b (Z.of_nat i))
          (seq 0 (Z.to_nat n)).

Module Sorter.

(** [swap(&table[a], &table[b])]: [chain t=*a; *a=*b; *b=t;] *)
Definition swap (table : list chain) (a b : Z) : outcome (list chain) :=
  t ← table_read table a;
  cb ← table_read table b;
  mret (<[Z.to_nat b := t]> (<[Z.to_nat a := cb]> table)).

(** [while (l < r) { if (table[l].endpoint <= piv) l++;
                     else swap(&table[l], &table[--r]); }]
    [piv], [l] and [r] are [int]; the comparison with the unsigned
    endpoint converts [piv] back to [unsigned int]. *)
Fixpoint partition_loop (fuel : nat) (table : list chain) (piv l r : Z)
  : outcome (list chain * Z * Z) :=
  match fuel with
  | O => OutOfFuel
  | S fuel' =>
      if l <? r then
        c ← table_read table l;
        if endpoint c <=? u32 piv then
          partition_loop fuel' table piv (s32 (l + 1)) r
        else
          let r := s32 (r - 1) in
          table ← swap table l r;
          partition_loop fuel' table piv l r
      else mret (table, l, r)
  end.

Fixpoint quickSortTable (fuel : nat) (table : list chain) (beg end_ : Z)
  : outcome (list chain) :=
  match fuel with
  | O => OutOfFuel
  | S fuel' =>
      if u32 (beg + 1) <? end_ then
        c ← table_read table beg;
        let piv := s32 (endpoint c) in
        let l := s32 (beg + 1) in
        let r := s32 end_ in
        '(table, l, r) ← partition_loop fuel table piv l r;
        let l := s32 (l - 1) in
        table ← swap table l beg;
        table ← quickSortTable fuel' table beg (u32 l);
        quickSortTable fuel' table (u32 r) end_
      else mret table
  end.

(** The sort invariant: [table[i].end <= table[i+1].end] for [i < chainNum - 1]. *)
Definition sorted_by_endpoint (table : list chain) : Prop :=
  forall (i : nat) (a b : chain),
    table !! i = Some a -> table !! S i = Some b -> endpoint a <= endpoint b.

(** [t'] holds the records of [t], moved around inside [[b, e)] only. *)
Definition rearranged (t t' : list chain) (b e : nat) : Prop :=
  t' ≡ₚ t
  /\ length t' = length t
  /\ (forall k, (k < b \/ e <= k)%nat -> t' !! k = t !! k)
  /\ (forall k c, (b <= k < e)%nat -> t' !! k = Some c ->
        exists k', (b <= k' < e)%nat /\ t !! k' = Some c).

(** Every record at an index of [[b, e)] satisfies [P]. *)
Definition range_all (P : chain -> Prop) (t : list chain) (b e : nat) : Prop :=
  forall k c, (b <= k < e)%nat -> t !! k = Some c -> P c.

(** The records at the indices of [[b, e)] are in non-decreasing order
    of endpoint. *)
Definition sorted_range (t : list chain) (b e : nat) : Prop :=
  forall i j ci cj, (b <= i <= j)%nat -> (j < e)%nat ->
    t !! i = Some ci -> t !! j = Some cj -> endpoint ci <= endpoint cj.

(** An array of 2^31 chains whose first two endpoints are out of order. *)
Definition unsorted_2_31 : list chain :=
  mkChain 0 1 :: repeat (mkChain 0 0) (Z.to_nat INT_MAX).

(** The index map of an exchange of the positions [a] and [b]. *)
Definition transpose (a b : nat) (i : nat) : nat :=
  if decide (i = a) then b else if decide (i = b) then a else i.

End Sorter.

Module Lookup.

(** [while (mid >= 0 && endpoint == table[mid--].endpoint);]
    The decrement is applied on every evaluation of the comparison,
    also on the one that fails. *)
Fixpoint back_loop (fuel : nat) (table : list chain) (endpoint_ : Z) (mid : Z)
  : outcome Z :=
  match fuel with
  | O => OutOfFuel
  | S fuel' =>
      if 0 <=? mid then
        c ← table_read table mid;
        let mid := mid - 1 in
        if endpoint_ =? endpoint c then back_loop fuel' table endpoint_ mid
        else mret mid
      else mret mid
  end.

(** [while (beg < end) { ... }] of [searchTable]; answers the returned
    value and the contents of [*index]. *)
Fixpoint search_loop (fuel : nat) (table : list chain) (endpoint_ : Z)
  (beg end_ : Z) (index : Z) : outcome (Z * Z) :=
  match fuel with
  | O => OutOfFuel
  | S fuel' =>
      if beg <? end_ then
        let mid := u32 (beg + end_) / 2 in
        c ← table_read table mid;
        if endpoint_ <? endpoint c then
          search_loop fuel' table endpoint_ beg mid index
        else if endpoint c <? endpoint_ then
          search_loop fuel' table endpoint_ (u32 (mid + 1)) end_ index
        else
          mid ← back_loop fuel table endpoint_ mid;
          mret (1, if mid <? 0 then 0 else u32 (mid + 1))
      else mret (0, index)
  end.

Definition searchTable (fuel : nat) (table : list chain) (chainNum : Z)
  (endpoint_ : Z) (index : Z) : outcome (Z * Z) :=
  let beg := 0 in
  let end_ := u32 (chainNum - 1) in
  search_loop fuel table endpoint_ beg end_ index.

(** [for (i = 0; i < chainLen; i ++) { ... }] of [regenerateChain];
    [i] is an [int] that is compared and passed on as [unsigned int],
    so it is carried in its unsigned view.  Answers the returned value
    and the contents of [*seed]. *)
Fixpoint regen_loop (n : nat) (hashFunc_ : hashFunc) (hashLen : Z)
  (targetHash : list Z) (i tmp seed : Z) : Z * Z :=
  match n with
  | O => (0, seed)
  | S n' =>
      let buf := hashFunc_ tmp in
      if memcmp_eq buf targetHash hashLen then (1, tmp)
      else regen_loop n' hashFunc_ hashLen targetHash (u32 (i + 1))
             (Reduction.reduce buf hashLen i) seed
  end.

Definition regenerateChain (startpoint_ chainLen : Z) (hashFunc_ : hashFunc)
  (hashLen : Z) (targetHash : list Z) (seed : Z) : Z * Z :=
  regen_loop (Z.to_nat chainLen) hashFunc_ hashLen targetHash 0 startpoint_ seed.

(** The chain of seeds [s_0 = start], [s_{j+1} = reduce(H(s_j), hlen, j)]. *)
Fixpoint chain_seed (H : hashFunc) (hlen : Z) (start : Z) (k : nat) : Z :=
  match k with
  | O => start
  | S j => Reduction.reduce (H (chain_seed H hlen start j)) hlen (Z.of_nat j)
  end.

(** [for (i = j; i < chainLen-1; i ++) { r = reduce(tmpHash, hashLen, i);
                                         tmpHash = hashFunc(r, buf); }]
    answers [i] and [tmpHash] at the exit. *)
Fixpoint walk_loop (n : nat) (hashFunc_ : hashFunc) (hashLen : Z)
  (i : Z) (tmpHash : list Z) : Z * list Z :=
  match n with
  | O => (i, tmpHash)
  | S n' =>
      let r := Reduction.reduce tmpHash hashLen (u32 i) in
      walk_loop n' hashFunc_ hashLen (s32 (i + 1)) (hashFunc_ r)
  end.

(** [do { if (regenerateChain(table[index++].startpoint, ...)) return 1; }
    while (table[index].endpoint == r);]
    answers whether the function returned, [index] and [*seed]. *)
Fixpoint candidates_loop (fuel : nat) (table : list chain) (chainLen : Z)
  (hashFunc_ : hashFunc) (hashLen : Z) (targetHash : list Z) (r index seed : Z)
  : outcome (bool * Z * Z) :=
  match fuel with
  | O => OutOfFuel
  | S fuel' =>
      c ← table_read table index;
      let index := u32 (index + 1) in
      let '(ret, seed) :=
        regenerateChain (startpoint c) chainLen hashFunc_ hashLen targetHash seed in
      if negb (ret =? 0) then mret (true, index, seed)
      else
        c' ← table_read table index;
        if endpoint c' =? r then
          candidates_loop fuel' table chainLen hashFunc_ hashLen targetHash r index seed
        else mret (false, index, seed)
  end.

(** [for (j = chainLen - 1; j >= 0; j --) { ... }] with [n] trips left;
    answers the returned value and [*seed]. *)
Fixpoint position_loop (n : nat) (fuel : nat) (table : list chain)
  (chainNum chainLen : Z) (hashFunc_ : hashFunc) (hashLen : Z)
  (targetHash : list Z) (j index seed : Z) : outcome (Z * Z) :=
  match n with
  | O => mret (0, seed)
  | S n' =>
      let '(i, tmpHash) :=
        walk_loop (Z.to_nat (u32 (chainLen - 1) - j)) hashFunc_ hashLen j targetHash in
      let r := Reduction.reduce tmpHash hashLen (u32 i) in
      '(hit, index) ← searchTable fuel table (s32 chainNum) r index;
      if negb (hit =? 0) then
        '(returned, index, seed) ←
          candidates_loop fuel table chainLen hashFunc_ hashLen targetHash r index seed;
        if returned : bool then mret (1, seed)
        else position_loop n' fuel table chainNum chainLen hashFunc_ hashLen
               targetHash (j - 1) index seed
      else position_loop n' fuel table chainNum chainLen hashFunc_ hashLen
             targetHash (j - 1) index seed
  end.

(** [index] is not initialised before the first search; its initial
    contents are the argument [index0]. *)
Definition searchHashInMemory (fuel : nat) (table : list chain)
  (chainNum chainLen : Z) (hashFunc_ : hashFunc) (hashLen : Z)
  (targetHash : list Z) (index0 seed : Z) : outcome (Z * Z) :=
  let j := s32 (chainLen - 1) in
  position_loop (Z.to_nat (j + 1)) fuel table chainNum chainLen hashFunc_ hashLen
    targetHash j index0 seed.

End Lookup.

Module Codec.

(** A C string is the list of its characters up to the terminating NUL. *)
Definition NUL : ascii := "000"%char.

Fixpoint cstr (s : list ascii) : list ascii :=
  match s with
  | [] => []
  | c :: s' => if Ascii.eqb c NUL then [] else c :: cstr s'
  end.

Definition of_string (s : string) : list ascii := list_ascii_of_string s.

(** [isspace] and [isdigit] in the C locale. *)
Definition isspace (c : ascii) : bool :=
  let n := N_of_ascii c in ((n =? 32) || ((9 <=? n) && (n <=? 13)))%N.

Definition isdigit (c : ascii) : bool :=
  let n := N_of_ascii c in ((48 <=? n) && (n <=? 57))%N.

Definition is_slash (c : ascii) : bool := Ascii.eqb c "/"%char.
Definition is_dot (c : ascii) : bool := Ascii.eqb c "."%char.

Definition digit_val (c : ascii) : Z := Z.of_N (N_of_ascii c) - 48.
Definition digit_char (d : Z) : ascii := ascii_of_N (Z.to_N (48 + d)).

(** A character that a hash name can carry through the codec: not the
    terminator, not white space, not the separator, not a slash. *)
Definition plain_char (c : ascii) : bool :=
  negb (Ascii.eqb c NUL) && negb (isspace c) && negb (is_dot c) && negb (is_slash c).

(** *** Encoder *)

(** Decimal digits of an [unsigned int], least significant first produced,
    as the [%u] conversion prints them; ten digits are enough. *)
Fixpoint utoa_loop (fuel : nat) (n : Z) (acc : list ascii) : list ascii :=
  match fuel with
  | O => acc
  | S fuel' =>
      let acc := digit_char (n mod 10) :: acc in
      if n / 10 =? 0 then acc else utoa_loop fuel' (n / 10) acc
  end.

Definition fmt_u (n : Z) : list ascii := utoa_loop 10 (u32 n) [].

(** [snprintf(buffer, 512, "%s.%u.%u.%u.rt", hashName, chainNum, chainLen, index);
    return strdup(buffer);] *)
Definition generateTableName (hashName : list ascii) (chainNum chainLen index : Z)
  : list ascii :=
  take 511 (cstr hashName ++ of_string "." ++ fmt_u chainNum
            ++ of_string "." ++ fmt_u chainLen
            ++ of_string "." ++ fmt_u index ++ of_string ".rt").

(** [ds] is a decimal numeral of [n] of at most ten digits. *)
Definition decimal_of (n : Z) (ds : list ascii) : Prop :=
  ds <> [] /\ Forall (fun c => isdigit c = true) ds /\ (length ds <= 10)%nat
  /\ fold_left (fun a c => a * 10 + digit_val c) ds 0 = n.

(** The characters of a generated name: no terminator and no slash. *)
Definition benign (c : ascii) : Prop := Ascii.eqb c NUL = false /\ is_slash c = false.

(** *** Decoder *)

Fixpoint strip_trailing_slashes (s : list ascii) : list ascii :=
  match s with
  | [] => []
  | c :: s' =>
      match strip_trailing_slashes s' with
      | [] => if is_slash c then [] else [c]
      | t => c :: t
      end
  end.

Fixpoint last_component (s : list ascii) : list ascii :=
  match s with
  | [] => []
  | c :: s' =>
      if existsb is_slash s' then last_component s'
      else if is_slash c then s' else s
  end.

(** [basename] of libgen.h: the final component of the path, trailing
    slashes removed; ["."] for the empty path and ["/"] for a path of
    slashes only. *)
Definition basename (path : list ascii) : list ascii :=
  match path with
  | [] => of_string "."
  | _ =>
      match strip_trailing_slashes path with
      | [] => of_string "/"
      | p => last_component p
      end
  end.

(** [strchr(s, c)] as the offset of the first occurrence. *)
Fixpoint strchr (s : list ascii) (c : ascii) : option nat :=
  match s with
  | [] => None
  | c' :: s' => if Ascii.eqb c' c then Some O else S <$> strchr s' c
  end.

Fixpoint skip_ws (s : list ascii) : list ascii :=
  match s with
  | [] => []
  | c :: s' => if isspace c then skip_ws s' else s
  end.

(** The [%s] conversion after the white space: the longest run of
    non-white-space characters and what follows it. *)
Fixpoint scan_token (s : list ascii) : list ascii * list ascii :=
  match s with
  | [] => ([], [])
  | c :: s' =>
      if isspace c then ([], s)
      else let '(tok, rest) := scan_token s' in (c :: tok, rest)
  end.

Fixpoint scan_digits (s : list ascii) (acc : Z) : Z * list ascii :=
  match s with
  | [] => (acc, [])
  | c :: s' =>
      if isdigit c then scan_digits s' (acc * 10 + digit_val c) else (acc, s)
  end.

(** The [%u] conversion: white space, an optional sign, decimal digits.
    The value is stored into an [unsigned int]; a value that does not
    fit is reduced modulo [2^32]. *)
Definition scan_u (s : list ascii) : option (Z * list ascii) :=
  let s := skip_ws s in
  let '(neg, s) :=
    match s with
    | c :: s' =>
        if Ascii.eqb c "-"%char then (true, s')
        else if Ascii.eqb c "+"%char then (false, s')
        else (false, s)
    | [] => (false, s)
    end in
  match s with
  | c :: _ =>
      if isdigit c then
        let '(v, rest) := scan_digits s 0 in
        Some (u32 (if neg : bool then - v else v), rest)
      else None
  | [] => None
  end.

(** An ordinary character of the format matches itself. *)
Definition scan_lit (c : ascii) (s : list ascii) : option (list ascii) :=
  match s with
  | c' :: s' => if Ascii.eqb c' c then Some s' else None
  | [] => None
  end.

(** The objects the caller passes by address. *)
Record parsed : Type := mkParsed {
  p_hashFuncName : list ascii;
  p_chainNum : Z;
  p_chainLen : Z
}.

(** [sscanf(s, "%s %u.%u.%u.rt", hashFuncName, chainNum, chainLen, &index)]:
    the number of items assigned, the caller's objects and [index].
    An object whose conversion is not reached keeps its contents. *)
Definition sscanf_tablename (s : list ascii) (out : parsed) (index : Z)
  : Z * parsed * Z :=
  match scan_token (skip_ws s) with
  | ([], _) => (-1, out, index)
  | (name, s) =>
      let out := mkParsed name (p_chainNum out) (p_chainLen out) in
      match scan_u (skip_ws s) with
      | None => (1, out, index)
      | Some (n, s) =>
          let out := mkParsed (p_hashFuncName out) n (p_chainLen out) in
          match scan_lit "."%char s ≫= scan_u with
          | None => (2, out, index)
          | Some (n, s) =>
              let out := mkParsed (p_hashFuncName out) (p_chainNum out) n in
              match scan_lit "."%char s ≫= scan_u with
              | None => (3, out, index)
              | Some (n, s) => (4, out, n)
              end
          end
      end
  end.

(** Whether [basename] answers its own constant string instead of a
    part of the path it is given: for the empty path only. *)
Definition basename_static (path : list ascii) : bool :=
  match path with
  | [] => true
  | _ => false
  end.

(** Answers the returned value and the caller's objects; [index0] is
    the indeterminate initial value of the local [index].  [None]: the
    store [dotPos[0] = ' '] goes to the constant ["."] that [basename]
    answers for the empty path, which is not writable. *)
Definition parseTablename (tablename : list ascii) (out : parsed) (index0 : Z)
  : option (Z * parsed) :=
  let copyTablename := cstr tablename in
  let tableBasename := basename copyTablename in
  match strchr tableBasename "."%char with
  | None => Some (-1, out)
  | Some dotPos =>
      if basename_static copyTablename then None
      else
        let tableBasename := <[dotPos := " "%char]> tableBasename in
        let '(_, out, _) := sscanf_tablename tableBasename out index0 in
        Some (1, out)
  end.

End Codec.

Module Exhaustive.

(** [for (i = 0; i < threads; i ++) { opt[i].start = start;
      opt[i].end = (i == threads - 1)? end : (start + range); ...
      start += range; }]
    collects the pairs [(opt[i].start, opt[i].end)]. *)
Fixpoint assign_loop (n : nat) (threads range end_ : Z) (i start : Z)
  : list (Z * Z) :=
  match n with
  | O => []
  | S n' =>
      (start, if i =? u32 (threads - 1) then end_ else u32 (start + range))
        :: assign_loop n' threads range end_ (u32 (i + 1)) (u32 (start + range))
  end.

(** The ranges [searchHashOnline] hands to its [threads] workers. *)
Definition worker_ranges (threads : Z) : list (Z * Z) :=
  let start := 0 in
  let end_ := MAX_SEED in
  let range := MAX_SEED / threads in
  assign_loop (Z.to_nat threads) threads range end_ 0 start.

(** A worker scans the seeds [start <= i <= end], bounds included. *)
Definition in_range (rg : Z * Z) (s : Z) : Prop := fst rg <= s <= snd rg.

(** What one worker has written to the shared [found] and [seed]. *)
Record shared : Type := mkShared { found : bool; seed : Z }.

(** [for (i = opt->start; i <= opt->end; i++) {
      if (!memcmp(opt->hash, opt->hashFunc(i, nh), opt->hashLen)) {
        opt->found[0] = 1; opt->seed[0] = i; }
      if (opt->found[0]) break; }]
    [others k] tells whether another worker has raised the shared flag
    by the time of poll number [k] of this worker. *)
Fixpoint worker_loop (fuel : nat) (others : nat -> bool) (hashFunc_ : hashFunc)
  (hash : list Z) (hashLen : Z) (end_ : Z) (k : nat) (i : Z) (sh : shared)
  : outcome shared :=
  match fuel with
  | O => OutOfFuel
  | S fuel' =>
      if i <=? end_ then
        let sh :=
          if memcmp_eq hash (hashFunc_ i) hashLen then mkShared true i else sh in
        if found sh || others k then mret sh
        else worker_loop fuel' others hashFunc_ hash hashLen end_ (S k) (u32 (i + 1)) sh
      else mret sh
  end.

Definition seedRecoveryWorker (fuel : nat) (others : nat -> bool)
  (hashFunc_ : hashFunc) (hash : list Z) (hashLen : Z) (start end_ : Z)
  (sh : shared) : outcome shared :=
  worker_loop fuel others hashFunc_ hash hashLen end_ O start sh.

End Exhaustive.

Module Registry.

(** One element of a plug-in's [hashFuncArray]. *)
Record hashFuncEntry : Type := mkEntry {
  hashName : list ascii;
  entryFunc : hashFunc;
  entryLen : Z
}.

Definition MAX_HASHLIBS : Z := 10.

(** What [dlopen] and [dlsym] find for [./hashlib<i>.so]: no library,
    a library without the [hashFuncArray] symbol, or the entries of the
    array before its terminator. *)
Inductive hashlib : Type :=
| NoLibrary
| NoSymbol
| Entries (hf : list hashFuncEntry).

Definition strcmp_eq (a b : list ascii) : bool :=
  if List.list_eq_dec Ascii.ascii_dec a b then true else false.

(** [while (hf->hashName != NULL) { if (!strcmp(...)) return ...; hf ++; }] *)
Fixpoint scan_entries (hf : list hashFuncEntry) (hashFuncName : list ascii)
  : option (hashFunc * Z) :=
  match hf with
  | [] => None
  | e :: hf' =>
      if strcmp_eq (hashName e) hashFuncName then Some (entryFunc e, entryLen e)
      else scan_entries hf' hashFuncName
  end.

(** [for (i = 0; i < MAX_HASHLIBS; i ++) { ... }] with [n] trips left. *)
Fixpoint resolve_loop (n : nat) (libs : Z -> hashlib) (i : Z)
  (hashFuncName : list ascii) : option (hashFunc * Z) :=
  match n with
  | O => None
  | S n' =>
      match libs i with
      | NoLibrary => resolve_loop n' libs (i + 1) hashFuncName
      | NoSymbol => resolve_loop n' libs (i + 1) hashFuncName
      | Entries hf =>
          match scan_entries hf hashFuncName with
          | Some found => Some found
          | None => resolve_loop n' libs (i + 1) hashFuncName
          end
      end
  end.

(** The function returned and the length stored through [hashLen];
    [None] is the [NULL] result. *)
Definition resolveHashFunc (libs : Z -> hashlib) (hashFuncName : list ascii)
  : option (hashFunc * Z) :=
  resolve_loop (Z.to_nat MAX_HASHLIBS) libs 0 hashFuncName.

(** The entries of the libraries [i, i + n), in discovery order. *)
Fixpoint all_entries (n : nat) (libs : Z -> hashlib) (i : Z) : list hashFuncEntry :=
  match n with
  | O => []
  | S n' =>
      match libs i with
      | Entries hf => hf ++ all_entries n' libs (i + 1)
      | _ => all_entries n' libs (i + 1)
      end
  end.

End Registry.

Module Generation.

Definition WORKER_BUFFER_SIZE : Z := 8192.

(** [for (; i < chainLen; i ++) tmp = reduce(hash(tmp, buf), hashLen, i);] *)
Fixpoint chain_loop (n : nat) (hash : hashFunc) (hashLen : Z) (i tmp : Z) : Z :=
  match n with
  | O => tmp
  | S n' =>
      chain_loop n' hash hashLen (u32 (i + 1)) (Reduction.reduce (hash tmp) hashLen i)
  end.

(** [rnd] is the value [rand_cmwc_r()] hands to this call. *)
Definition generateChain (rnd : Z) (hash : hashFunc) (chainLen hashLen : Z) : chain :=
  let tmp := rnd in
  let tmp' := chain_loop (Z.to_nat chainLen) hash hashLen 0 tmp in
  mkChain rnd tmp'.

(** [for (j = 0; j < chainsLeft; j ++) buffer[j] = generateChain(...);]
    [draws k] is the value of the [k]-th call of [rand_cmwc_r] made by
    this worker; answers the filled part of the buffer. *)
Fixpoint fill_loop (n : nat) (draws : nat -> Z) (k : nat) (hash : hashFunc)
  (chainLen hashLen : Z) : list chain :=
  match n with
  | O => []
  | S n' =>
      generateChain (draws k) hash chainLen hashLen
        :: fill_loop n' draws (S k) hash chainLen hashLen
  end.

(** The outer loop of [chainGenerationWorker], [n] trips left, [k]
    chains generated so far.  [fwrite_ w req] is the number of records
    the [w]-th [fwrite] of this worker stores when asked for [req].
    Answers the returned value and the records this worker has put in
    the file. *)
Fixpoint bucket_loop (n : nat) (chainNum chainLen hashLen : Z) (hash : hashFunc)
  (draws : nat -> Z) (fwrite_ : nat -> nat -> nat)
  (i : Z) (k : nat) (written : list chain) : Z * list chain :=
  match n with
  | O => (0, written)
  | S n' =>
      let chainsLeft :=
        if i <? chainNum / WORKER_BUFFER_SIZE then WORKER_BUFFER_SIZE
        else chainNum mod WORKER_BUFFER_SIZE in
      let buffer := fill_loop (Z.to_nat chainsLeft) draws k hash chainLen hashLen in
      let stored := Nat.min (fwrite_ (Z.to_nat i) (Z.to_nat chainsLeft)) (Z.to_nat chainsLeft) in
      let written := written ++ take stored buffer in
      if negb (Z.of_nat stored =? chainsLeft) then (-1, written)
      else bucket_loop n' chainNum chainLen hashLen hash draws fwrite_
             (u32 (i + 1)) (k + Z.to_nat chainsLeft)%nat written
  end.

Definition chainGenerationWorker (chainNum chainLen hashLen : Z) (hash : hashFunc)
  (draws : nat -> Z) (fwrite_ : nat -> nat -> nat) : Z * list chain :=
  bucket_loop (Z.to_nat (chainNum / WORKER_BUFFER_SIZE + 1))
    chainNum chainLen hashLen hash draws fwrite_ 0 O [].

(** [for (i = 0; i < threadNum; i ++) { args[i].chainNum = (i < threadNum - 1)?
      chainNum / threadNum : chainNum / threadNum + chainNum % threadNum; ... }]
    collects [args[i].chainNum]; [i] is an [int] compared as [unsigned int]. *)
Fixpoint quota_loop (n : nat) (chainNum threadNum : Z) (i : Z) : list Z :=
  match n with
  | O => []
  | S n' =>
      (if u32 i <? u32 (threadNum - 1) then chainNum / threadNum
       else u32 (chainNum / threadNum + chainNum mod threadNum))
        :: quota_loop n' chainNum threadNum (s32 (i + 1))
  end.

Definition worker_quotas (chainNum threadNum : Z) : list Z :=
  quota_loop (Z.to_nat threadNum) chainNum threadNum 0.

(** [for (i = 0; i < threadNum; i ++) { pthread_join(tid[i], &ret);
      status |= (int)ret; }] over the values the workers returned. *)
Fixpoint join_loop (rets : list Z) (status : Z) : Z :=
  match rets with
  | [] => status
  | ret :: rets' => join_loop rets' (Z.lor status ret)
  end.

(** The value [createRainbowTable] returns, from whether [fopen] and the
    two [malloc] succeeded and what the workers returned. *)
Definition createRainbowTable_result (fopen_ok malloc_tid_ok malloc_args_ok : bool)
  (rets : list Z) : Z :=
  if negb fopen_ok then -1
  else if negb malloc_tid_ok then -1
  else if negb malloc_args_ok then -1
  else
    let status := join_loop rets 0 in
    if negb (status =? 0) then -1 else 1.

(** [sortRainbowTable]: [open], [fstat] and [mmap] succeed or not;
    answers the returned value and the contents of the file. *)
Definition sortRainbowTable (fuel : nat) (open_ok fstat_ok mmap_ok : bool)
  (table : list chain) (chainNum : Z) : outcome (Z * list chain) :=
  if negb open_ok then mret (-1, table)
  else if negb fstat_ok then mret (-1, table)
  else if negb mmap_ok then mret (1, table)
  else
    table ← Sorter.quickSortTable fuel table 0 chainNum;
    mret (1, table).

End Generation.

Module HexInput.

(** [s[i]] for a C string: the characters, then the terminator; a read
    further on is outside the string. *)
Definition str_read (s : list ascii) (i : nat) : outcome ascii :=
  match s !! i with
  | Some c => Done c
  | None => if Nat.eqb i (length s) then Done Codec.NUL else OutOfBounds (Z.of_nat i)
  end.

Definition hex_val (c : ascii) : option Z :=
  let n := N_of_ascii c in
  if ((48 <=? n) && (n <=? 57))%N then Some (Z.of_N n - 48)
  else if ((97 <=? n) && (n <=? 102))%N then Some (Z.of_N n - 87)
  else if ((65 <=? n) && (n <=? 70))%N then Some (Z.of_N n - 55)
  else None.

Fixpoint scan_xdigits (s : list ascii) (acc : Z) : Z :=
  match s with
  | [] => acc
  | c :: s' =>
      match hex_val c with
      | Some d => scan_xdigits s' (acc * 16 + d)
      | None => acc
      end
  end.

Definition starts_with_xdigit (s : list ascii) : bool :=
  match s with
  | c :: _ => match hex_val c with Some _ => true | None => false end
  | [] => false
  end.

(** The [%x] conversion of [sscanf]: white space, an optional sign, an
    optional [0x] or [0X], hexadecimal digits; [None] when nothing is
    converted (a lone [0x] counts as a matching failure).  The value is
    stored into an [unsigned int]. *)
Definition scan_x (s : list ascii) : option Z :=
  let s := Codec.skip_ws s in
  let '(neg, s) :=
    match s with
    | c :: s' =>
        if Ascii.eqb c "-"%char then (true, s')
        else if Ascii.eqb c "+"%char then (false, s')
        else (false, s)
    | [] => (false, s)
    end in
  let '(prefixed, digits) :=
    match s with
    | z :: x :: s' =>
        if Ascii.eqb z "0"%char && (Ascii.eqb x "x"%char || Ascii.eqb x "X"%char)
        then (true, s') else (false, s)
    | _ => (false, s)
    end in
  if starts_with_xdigit digits then
    let v := scan_xdigits digits 0 in
    Some (u32 (if neg : bool then - v else v))
  else None.

(** [for (i = j = 0; i < 32; i += 2) { num[0] = hash[i]; num[1] = hash[i + 1];
      sscanf(num,"%x",&hexnum); bytes[j++] = hexnum; }] with [n] trips left. *)
Fixpoint decode_loop (n : nat) (hash : list ascii) (i j : nat) (hexnum : Z)
  (bytes : list Z) : outcome (list Z) :=
  match n with
  | O => mret bytes
  | S n' =>
      c0 ← str_read hash i;
      c1 ← str_read hash (i + 1);
      let num := Codec.cstr [c0; c1] in
      let hexnum := match scan_x num with Some v => v | None => hexnum end in
      decode_loop n' hash (i + 2) (j + 1) hexnum (<[j := hexnum mod 256]> bytes)
  end.

(** [hexnum0] is the indeterminate initial value of [hexnum]; answers
    the 64 bytes of [bytes]. *)
Definition bytesFromHash (hash : list ascii) (hexnum0 : Z) : outcome (list Z) :=
  let bytes := repeat 0 (Z.to_nat MAX_HASH_SIZE) in
  decode_loop 16 hash 0 0 hexnum0 bytes.

End HexInput.

Module Cmwc.

Definition PHI : Z := 0x9e3779b9.

(** The file-scope objects [Q], [c], [seeded] and the static [i] of
    [rand_cmwc]. *)
Record state : Type := mkState {
  Q : list Z;
  c : Z;
  seeded : bool;
  i : Z
}.

Definition initial : state := mkState (repeat 0 4096) 362436 false 4095.

Definition Q_at (q : list Z) (k : Z) : Z := nth (Z.to_nat k) q 0.

(** [for (i = 3; i < 4096; i++) Q[i] = Q[i - 3] ^ Q[i - 2] ^ PHI ^ i;] *)
Fixpoint srand_loop (n : nat) (q : list Z) (k : Z) : list Z :=
  match n with
  | O => q
  | S n' =>
      let v := Z.lxor (Z.lxor (Z.lxor (Q_at q (k - 3)) (Q_at q (k - 2))) PHI) k in
      srand_loop n' (<[Z.to_nat k := v]> q) (k + 1)
  end.

Definition srand_cmwc (x : Z) (q : list Z) : list Z :=
  let q := <[0%nat := x]> q in
  let q := <[1%nat := u32 (x + PHI)]> q in
  let q := <[2%nat := u32 (u32 (x + PHI) + PHI)]> q in
  srand_loop (4096 - 3) q 3.

(** [tv_sec] and [tv_usec] are what [gettimeofday] reports. *)
Definition custom_seed (tv_sec tv_usec : Z) (st : state) : state :=
  mkState (srand_cmwc (u32 (Z.lxor tv_sec tv_usec)) (Q st)) (c st) true (i st).

(** Answers the value returned and the objects after the call. *)
Definition rand_cmwc (tv_sec tv_usec : Z) (st : state) : Z * state :=
  let a := 18782 in
  let r := 0xfffffffe in
  let st := if seeded st then st else custom_seed tv_sec tv_usec st in
  let i' := Z.land (u32 (i st + 1)) 4095 in
  let t := (a * Q_at (Q st) i' + c st) mod 2 ^ 64 in
  let c' := Z.shiftr t 32 in
  let x := u32 (t + c') in
  let '(x, c') := if x <? c' then (u32 (x + 1), u32 (c' + 1)) else (x, c') in
  let out := u32 (r - x) in
  (out, mkState (<[Z.to_nat i' := out]> (Q st)) c' (seeded st) i').

(** Well-formed objects: 4096 words of 32 bits, the index inside the
    array, the carry no larger than its initial value. *)
Definition wf (st : state) : Prop :=
  length (Q st) = 4096%nat
  /\ Forall is_u32 (Q st)
  /\ 0 <= i st < 4096
  /\ 0 <= c st <= 362436.

End Cmwc.

Module MT.

Definition N : Z := 624.
Definition M : Z := 397.

Definition hiBit (u : Z) : Z := Z.land u 0x80000000.
Definition loBit (u : Z) : Z := Z.land u 0x00000001.
Definition loBits (u : Z) : Z := Z.land u 0x7FFFFFFF.
Definition mixBits (u v : Z) : Z := Z.lor (hiBit u) (loBits v).

Definition php_twist (m u v : Z) : Z :=
  Z.lxor (Z.lxor m (Z.shiftr (mixBits u v) 1))
    (Z.land (u32 (- u32 (loBit u))) 0x9908b0df).

Definition mt_twist (m u v : Z) : Z :=
  Z.lxor (Z.lxor m (Z.shiftr (mixBits u v) 1))
    (Z.land (u32 (- u32 (loBit v))) 0x9908b0df).

Definition word_at (state : list Z) (k : Z) : Z := nth (Z.to_nat k) state 0.

(** [for( ; i < N; ++i ) { s[0] = ( 1812433253U * ( r[0] ^ (r[0] >> 30) ) + i )
      & 0xffffffffU; s++; r++; }]; [s] points at word [i] and [r] at word
    [i - 1]. *)
Fixpoint init_loop (n : nat) (state : list Z) (i : Z) : list Z :=
  match n with
  | O => state
  | S n' =>
      let r := word_at state (i - 1) in
      let v := Z.land (u32 (u32 (1812433253 * Z.lxor r (Z.shiftr r 30)) + i)) 0xffffffff in
      init_loop n' (<[Z.to_nat i := v]> state) (i + 1)
  end.

Record MTState : Type := mkMT {
  state : list Z;
  left : Z;
  next : Z
}.

Definition mtInitialize (seed : Z) (mtInfo : MTState) : MTState :=
  let st := <[0%nat := Z.land seed 0xffffffff]> (state mtInfo) in
  mkMT (init_loop (Z.to_nat (N - 1)) st 1) (left mtInfo) (next mtInfo).

(** [for (i = ...; ...; ++p) *p = twist(p[off], p[0], p[1]);] with [n]
    trips left and [p] at word [k]. *)
Fixpoint reload_loop (n : nat) (twist : Z -> Z -> Z -> Z) (off : Z)
  (state : list Z) (k : Z) : list Z :=
  match n with
  | O => state
  | S n' =>
      let v := twist (word_at state (k + off)) (word_at state k) (word_at state (k + 1)) in
      reload_loop n' twist off (<[Z.to_nat k := v]> state) (k + 1)
  end.

(** [PHPMtRand] selects the twist. *)
Definition mtReload (PHPMtRand : bool) (mtInfo : MTState) : MTState :=
  let twist := if PHPMtRand then php_twist else mt_twist in
  let st := reload_loop (Z.to_nat (N - M)) twist M (state mtInfo) 0 in
  let st := reload_loop (Z.to_nat (M - 1)) twist (M - N) st (N - M) in
  let p := N - 1 in
  let st := <[Z.to_nat p := twist (word_at st (p + (M - N))) (word_at st p) (word_at st 0)]> st in
  mkMT st N 0.

Definition mt_srand (seed : Z) (mtInfo : MTState) : MTState :=
  let mtInfo := mtInitialize seed mtInfo in
  mkMT (state mtInfo) 0 (next mtInfo).

Definition temper (y : Z) : Z :=
  let y := Z.lxor y (Z.shiftr y 11) in
  let y := Z.lxor y (Z.land (u32 (Z.shiftl y 7)) 0x9d2c5680) in
  let y := Z.lxor y (Z.land (u32 (Z.shiftl y 15)) 0xefc60000) in
  let y := Z.lxor y (Z.shiftr y 18) in
  y.

Definition mt_rand (PHPMtRand : bool) (mtInfo : MTState) : Z * MTState :=
  let mtInfo := if left mtInfo =? 0 then mtReload PHPMtRand mtInfo else mtInfo in
  let left' := u32 (left mtInfo - 1) in
  let s1 := word_at (state mtInfo) (next mtInfo) in
  (temper s1, mkMT (state mtInfo) left' (next mtInfo + 1)).

Definition php_mt_rand (PHPMtRand : bool) (mtInfo : MTState) : Z * MTState :=
  let '(v, mtInfo) := mt_rand PHPMtRand mtInfo in
  (Z.shiftr v 1, mtInfo).

(** [n] successive calls of [php_mt_rand]: the values returned, first
    call first, and the state after the last. *)
Fixpoint php_mt_rand_calls (n : nat) (PHPMtRand : bool) (mtInfo : MTState)
  : list Z * MTState :=
  match n with
  | O => ([], mtInfo)
  | S n' =>
      let '(v, mtInfo) := php_mt_rand PHPMtRand mtInfo in
      let '(vs, mtInfo) := php_mt_rand_calls n' PHPMtRand mtInfo in
      (v :: vs, mtInfo)
  end.

(** A consistent generator: 624 words of 32 bits, and either nothing
    left (the next call reloads) or [next] at the first of the [left]
    words not yet handed out. *)
Definition wf (mtInfo : MTState) : Prop :=
  length (state mtInfo) = 624%nat
  /\ Forall is_u32 (state mtInfo)
  /\ 0 <= left mtInfo <= N
  /\ (left mtInfo = 0 \/ next mtInfo = N - left mtInfo).

End MT.

Module Wikihash.

Definition N : Z := 624.
Definition M : Z := 397.
Definition OFFSET : Z := 4.

(** The [twist] macro of the plug-in. *)
Definition twist (m u v : Z) : Z :=
  Z.lxor (Z.lxor m (Z.shiftr (MT.mixBits u v) 1))
    (Z.land (u32 (- u32 (MT.loBit u))) 0x9908b0df).

(** A word of the local [state] array: [None] until it is written. *)
Definition word_at (state : list (option Z)) (k : Z) : option Z :=
  if k <? 0 then None else mjoin (state !! Z.to_nat k).

(** [for( ; i < N-200; ++i ) { ... }] of [php_mt_initialize]. *)
Fixpoint init_loop (n : nat) (state : list (option Z)) (i : Z)
  : option (list (option Z)) :=
  match n with
  | O => Some state
  | S n' =>
      r ← word_at state (i - 1);
      let v := Z.land (u32 (u32 (1812433253 * Z.lxor r (Z.shiftr r 30)) + i)) 0xffffffff in
      init_loop n' (<[Z.to_nat i := Some v]> state) (i + 1)
  end.

Definition php_mt_initialize (seed : Z) (state : list (option Z))
  : option (list (option Z)) :=
  let state := <[0%nat := Some (Z.land seed 0xffffffff)]> state in
  init_loop (Z.to_nat (N - 200 - 1)) state 1.

Definition temper (y : Z) : Z :=
  let y := Z.lxor y (Z.shiftr y 11) in
  let y := Z.lxor y (Z.land (u32 (Z.shiftl y 7)) 0x9d2c5680) in
  let y := Z.lxor y (Z.land (u32 (Z.shiftl y 15)) 0xefc60000) in
  let y := Z.lxor y (Z.shiftr y 18) in
  y.

(** [r1] and [r2] of [mediawikiHash]; the local [state] starts with
    indeterminate contents.  [None] stands for a read of a word that
    was never written. *)
Definition wiki_randoms (seed : Z) : option (Z * Z) :=
  state ← php_mt_initialize seed (repeat None (Z.to_nat N));
  let p k := word_at state k in
  m1 ← p (M + OFFSET); u1 ← p (0 + OFFSET); v1 ← p (1 + OFFSET);
  let r1 := Z.shiftr (temper (twist m1 u1 v1)) 1 in
  m2 ← p (M + OFFSET + 1); u2 ← p (0 + OFFSET + 1); v2 ← p (1 + OFFSET + 1);
  let r2 := Z.shiftr (temper (twist m2 u2 v2)) 1 in
  Some (r1, r2).

Definition digits : list ascii := Codec.of_string "0123456789abcdefghijklmnopqrstuvwxyz".






End Wikihash.

(** * Properties *)

Import Reduction.

Lemma u32_range z : 0 <= u32 z < UINT_MODULUS.
Proof. unfold u32, UINT_MODULUS. apply Z.mod_pos_bound. lia. Qed.

Lemma u32_small z : 0 <= z < UINT_MODULUS -> u32 z = z.
Proof. intros H. unfold u32. now apply Z.mod_small. Qed.

Lemma u32_add_idemp_r a b : u32 (a + u32 b) = u32 (a + b).
Proof. unfold u32. apply Zplus_mod_idemp_r. Qed.

Lemma u32_add_idemp_l a b : u32 (u32 a + b) = u32 (a + b).
Proof. unfold u32. apply Zplus_mod_idemp_l. Qed.

Lemma lxor_u32 a b : is_u32 a -> is_u32 b -> is_u32 (Z.lxor a b).
Proof.
  unfold is_u32, UINT_MODULUS. intros [Ha Ha'] [Hb Hb'].
  split; [apply Z.lxor_nonneg; lia|].
  destruct (Z.eq_dec (Z.lxor a b) 0) as [->|Hne]; [lia|].
  apply Z.log2_lt_pow2; [pose proof (Z.lxor_nonneg a b); lia|].
  eapply Z.le_lt_trans; [apply Z.log2_lxor; lia|].
  apply Z.max_lub_lt.
  - destruct (Z.eq_dec a 0) as [->|]; [simpl; lia|apply Z.log2_lt_pow2; lia].
  - destruct (Z.eq_dec b 0) as [->|]; [simpl; lia|apply Z.log2_lt_pow2; lia].
Qed.

Lemma byte_at_range d i : Forall is_byte d -> is_byte (byte_at d i).
Proof.
  intros Hd. unfold byte_at.
  destruct (nth_in_or_default (Z.to_nat i) d 0) as [Hin| ->].
  - rewrite List.Forall_forall in Hd. now apply Hd.
  - unfold is_byte. lia.
Qed.

(** Gluing a low part below [2^n] to a shifted high part is an addition. *)
Lemma lor_shiftl_add a b n :
  0 <= n -> 0 <= a < 2 ^ n -> Z.lor a (Z.shiftl b n) = a + 2 ^ n * b.
Proof.
  intros Hn Ha.
  assert (Hland : Z.land a (Z.shiftl b n) = 0).
  { apply Z.bits_inj'. intros k Hk. rewrite Z.land_spec, Z.bits_0.
    destruct (Z.lt_ge_cases k n) as [Hlt|Hge].
    - rewrite (Z.shiftl_spec_low b n k Hlt). apply andb_false_r.
    - destruct (Z.eq_dec a 0) as [->|Hne]; [now rewrite Z.bits_0|].
      rewrite (Z.bits_above_log2 a k); [reflexivity|lia|].
      apply Z.lt_le_trans with n; [apply Z.log2_lt_pow2; lia|lia]. }
  rewrite <- Z.lxor_lor by exact Hland.
  rewrite <- Z.add_nocarry_lxor by exact Hland.
  rewrite Z.shiftl_mul_pow2 by lia. lia.
Qed.

Lemma load_u32_le_word d k :
  Forall is_byte d -> load_u32 d (4 * Z.of_nat k) = le_word d k.
Proof.
  intros Hd. unfold load_u32, le_word.
  pose proof (byte_at_range d (4 * Z.of_nat k) Hd) as H0.
  pose proof (byte_at_range d (4 * Z.of_nat k + 1) Hd) as H1.
  pose proof (byte_at_range d (4 * Z.of_nat k + 2) Hd) as H2.
  pose proof (byte_at_range d (4 * Z.of_nat k + 3) Hd) as H3.
  unfold is_byte in *.
  set (b0 := byte_at d (4 * Z.of_nat k)) in *.
  set (b1 := byte_at d (4 * Z.of_nat k + 1)) in *.
  set (b2 := byte_at d (4 * Z.of_nat k + 2)) in *.
  set (b3 := byte_at d (4 * Z.of_nat k + 3)) in *.
  replace (Z.shiftl b2 16) with (Z.shiftl (Z.shiftl b2 8) 8)
    by (rewrite Z.shiftl_shiftl by lia; reflexivity).
  replace (Z.shiftl b3 24) with (Z.shiftl (Z.shiftl (Z.shiftl b3 8) 8) 8)
    by (rewrite !Z.shiftl_shiftl by lia; reflexivity).
  rewrite <- !Z.shiftl_lor.
  rewrite (lor_shiftl_add b2 b3 8) by lia.
  rewrite (lor_shiftl_add b1 _ 8) by lia.
  rewrite (lor_shiftl_add b0 _ 8) by lia.
  lia.
Qed.

Lemma le_word_u32 d k : Forall is_byte d -> is_u32 (le_word d k).
Proof.
  intros Hd. unfold le_word, is_u32, UINT_MODULUS.
  pose proof (byte_at_range d (4 * Z.of_nat k) Hd).
  pose proof (byte_at_range d (4 * Z.of_nat k + 1) Hd).
  pose proof (byte_at_range d (4 * Z.of_nat k + 2) Hd).
  pose proof (byte_at_range d (4 * Z.of_nat k + 3) Hd).
  unfold is_byte in *. lia.
Qed.

Lemma fold_words_u32 d l :
  Forall is_byte d -> is_u32 (fold_right Z.lxor 0 (map (le_word d) l)).
Proof.
  intros Hd. induction l as [|k l IH]; simpl.
  - unfold is_u32, UINT_MODULUS. lia.
  - apply lxor_u32; [now apply le_word_u32|exact IH].
Qed.

Lemma xor_loop_fold d n k acc :
  Forall is_byte d ->
  xor_loop n d (4 * Z.of_nat k) acc =
  Z.lxor acc (fold_right Z.lxor 0 (map (le_word d) (seq k n))).
Proof.
  intros Hd. revert k acc. induction n as [|n IH]; intros k acc; simpl.
  - now rewrite Z.lxor_0_r.
  - replace (4 * Z.of_nat k + 4) with (4 * Z.of_nat (S k)) by lia.
    rewrite IH, load_u32_le_word by exact Hd.
    now rewrite Z.lxor_assoc.
Qed.

Lemma add_loop_sum d hashLen n i acc :
  u32 (add_loop n d hashLen (Z.of_nat i) acc) =
  u32 (acc + sum_list (map (fun j => char_of_byte (byte_at d (hashLen - 1 - Z.of_nat j)))
                           (seq i n))).
Proof.
  revert i acc. induction n as [|n IH]; intros i acc; simpl.
  - now rewrite Z.add_0_r.
  - replace (Z.of_nat i + 1) with (Z.of_nat (S i)) by lia.
    rewrite IH. unfold add_step.
    rewrite u32_add_idemp_r, u32_add_idemp_l. f_equal. lia.
Qed.

Lemma add_loop_u32 d hashLen n i acc :
  is_u32 acc -> is_u32 (add_loop n d hashLen i acc).
Proof.
  revert i acc. induction n as [|n IH]; intros i acc Hacc; simpl; [exact Hacc|].
  apply IH. unfold add_step. apply u32_range.
Qed.

Lemma reduce_signed_formula d hashLen round :
  Forall is_byte d -> reduce d hashLen round = reduce_spec_signed d hashLen round.
Proof.
  intros Hd. unfold reduce, reduce_spec_signed, word_fold, trailing_bytes.
  cbv zeta. f_equal.
  pose proof (xor_loop_fold d (Z.to_nat (hashLen / 4)) 0 0 Hd) as Hx.
  change (4 * Z.of_nat 0) with 0 in Hx. rewrite Hx, Z.lxor_0_l.
  rewrite <- (u32_small (add_loop _ _ _ _ _)).
  - change 0 with (Z.of_nat 0) at 1. rewrite add_loop_sum.
    now rewrite map_map.
  - apply add_loop_u32, fold_words_u32, Hd.
Qed.

Example reduce_scenario : reduce [1; 2; 3; 4; 5] 5 0 = 0x04030206.
Proof. reflexivity. Qed.

Example reduce_high_byte : reduce [128] 1 0 = 0xffffff80.
Proof. reflexivity. Qed.

Lemma sum_list_char_small l :
  Forall (fun b => b < 128) l -> sum_list (map char_of_byte l) = sum_list l.
Proof.
  induction 1 as [|b l Hb _ IH]; simpl; [reflexivity|].
  rewrite IH. unfold char_of_byte.
  destruct (Z.ltb_spec b 128); lia.
Qed.

Lemma u32_shift_256 z : u32 (z - 256) <> u32 z.
Proof.
  unfold u32, UINT_MODULUS. intros Heq.
  assert (Hd : (z - (z - 256)) mod 2 ^ 32 = 0).
  { rewrite Zminus_mod, Heq, Z.sub_diag. reflexivity. }
  replace (z - (z - 256)) with 256 in Hd by lia.
  discriminate Hd.
Qed.

(** C6 (as amended): for a digest of [digest_len] bytes, 1 <= digest_len <= 64,
    [reduce] is the XOR-fold of the first [digest_len / 4] little-endian
    words, plus the [digest_len mod 4] trailing bytes read from position
    [digest_len - 1 - i], each taken as a signed [char], the sum reduced
    modulo 2^32 and XORed with the round. *)
Theorem reduce_fold_add_signed (d : list Z) (digest_len round : Z) :
  1 <= digest_len <= MAX_HASH_SIZE ->
  Z.of_nat (length d) = digest_len ->
  Forall is_byte d ->
  is_u32 round ->
  reduce d digest_len round = reduce_spec_signed d digest_len round.
Proof. intros _ _ Hd _. now apply reduce_signed_formula. Qed.

Lemma reduce_fold_add_signed_witness :
  reduce [1; 2; 3; 4; 5] 5 0 = reduce_spec_signed [1; 2; 3; 4; 5] 5 0
  /\ reduce_spec_signed [1; 2; 3; 4; 5] 5 0 = 0x04030206.
Proof.
  split; [|reflexivity].
  apply (reduce_fold_add_signed [1; 2; 3; 4; 5] 5 0).
  - unfold MAX_HASH_SIZE. lia.
  - reflexivity.
  - repeat constructor; unfold is_byte; lia.
  - unfold is_u32, UINT_MODULUS. lia.
Defined.

(** C6 (as stated) fails on a trailing byte of 0x80 or more: the one-byte
    digest [0x80] reduces to 0xffffff80, while adding the byte itself
    gives 0x80. *)
Lemma reduce_unsigned_counterexample :
  Forall is_byte [128]
  /\ reduce [128] 1 0 = 0xffffff80
  /\ reduce_spec_unsigned [128] 1 0 = 0x80
  /\ reduce [128] 1 0 <> reduce_spec_unsigned [128] 1 0.
Proof.
  split; [repeat constructor; unfold is_byte; lia|].
  split; [reflexivity|]. split; [reflexivity|]. discriminate.
Qed.

Lemma sum_list_signed_count l :
  sum_list (map (fun b => if b <? 128 then b else b - 256) l)
  = sum_list l - 256 * Z.of_nat (length (List.filter (fun b => 128 <=? b) l)).
Proof.
  induction l as [|b l IH]; [reflexivity|].
  cbn [map List.filter sum_list fold_right].
  change (fold_right Z.add 0 ?x) with (sum_list x). rewrite IH.
  destruct (Z.ltb_spec b 128); destruct (Z.leb_spec 128 b); try lia.
  cbn [length]. lia.
Qed.

Lemma filter_high_nonempty l :
  Exists (fun b => 128 <= b) l ->
  (1 <= length (List.filter (fun b => (128 <=? b)%Z) l) <= length l)%nat.
Proof.
  induction 1 as [b l Hb|b l _ IH]; cbn [List.filter].
  - pose proof (List.filter_length_le (fun b => 128 <=? b) l).
    destruct (Z.leb_spec 128 b); [cbn [length]; lia|lia].
  - destruct (128 <=? b); cbn [length]; lia.
Qed.

Lemma lxor_cancel_r a b c : Z.lxor a c = Z.lxor b c -> a = b.
Proof.
  intros H.
  assert (Ha : a = Z.lxor (Z.lxor a c) c)
    by now rewrite Z.lxor_assoc, Z.lxor_nilpotent, Z.lxor_0_r.
  assert (Hb : b = Z.lxor (Z.lxor b c) c)
    by now rewrite Z.lxor_assoc, Z.lxor_nilpotent, Z.lxor_0_r.
  rewrite Ha, H. now symmetry.
Qed.

Lemma u32_shift_256n z n : 1 <= n <= 3 -> u32 (z - 256 * n) <> u32 z.
Proof.
  unfold u32, UINT_MODULUS. intros Hn Heq.
  assert (Hd : (z - (z - 256 * n)) mod 2 ^ 32 = 0).
  { rewrite Zminus_mod, Heq, Z.sub_diag. reflexivity. }
  replace (z - (z - 256 * n)) with (256 * n) in Hd by lia.
  rewrite Z.mod_small in Hd by lia. lia.
Qed.

(** C10: each trailing byte enters [reduce] through a signed [char]:
    [reduce] adds [b] for a trailing byte [b < 0x80] and [b - 256] for a
    trailing byte [b >= 0x80], modulo 2^32.  So when all trailing bytes
    are below 0x80 the result is the one with the unsigned values
    added, and as soon as one trailing byte is [>= 0x80] it is not. *)
Theorem reduce_trailing_sign_extension (d : list Z) (hashLen round : Z) :
  Forall is_byte d ->
  reduce d hashLen round
  = Z.lxor (u32 (word_fold d hashLen
                 + sum_list (map (fun b => if b <? 128 then b else b - 256)
                               (trailing_bytes d hashLen)))) round
  /\ (Forall (fun b => b < 128) (trailing_bytes d hashLen) ->
      reduce d hashLen round = reduce_spec_unsigned d hashLen round)
  /\ (Exists (fun b => 128 <= b) (trailing_bytes d hashLen) ->
      reduce d hashLen round <> reduce_spec_unsigned d hashLen round).
Proof.
  intros Hd. rewrite reduce_signed_formula by exact Hd.
  unfold reduce_spec_signed, reduce_spec_unsigned.
  split; [reflexivity|]. split.
  - intros Hsmall. now rewrite sum_list_char_small.
  - intros Hhigh Heq. apply lxor_cancel_r in Heq.
    change (map char_of_byte (trailing_bytes d hashLen))
      with (map (fun b => if b <? 128 then b else b - 256) (trailing_bytes d hashLen)) in Heq.
    rewrite sum_list_signed_count in Heq.
    pose proof (filter_high_nonempty _ Hhigh) as Hcount.
    assert (Hlen : (length (trailing_bytes d hashLen) <= 3)%nat).
    { unfold trailing_bytes. rewrite length_map, length_seq.
      pose proof (Z.mod_pos_bound hashLen 4 ltac:(lia)). lia. }
    revert Heq Hcount.
    generalize (length (List.filter (fun b => 128 <=? b) (trailing_bytes d hashLen))).
    intros n Heq Hcount.
    apply (u32_shift_256n (word_fold d hashLen + sum_list (trailing_bytes d hashLen))
             (Z.of_nat n)); [lia|].
    rewrite <- Heq. f_equal. lia.
Qed.

Lemma reduce_trailing_sign_extension_witness :
  reduce [1; 2; 3; 4; 200] 5 7
  = Z.lxor (u32 (word_fold [1; 2; 3; 4; 200] 5 + (200 - 256))) 7
  /\ reduce [1; 2; 3; 4; 200] 5 7 <> reduce_spec_unsigned [1; 2; 3; 4; 200] 5 7
  /\ reduce [1; 2; 3; 4; 5] 5 7 = reduce_spec_unsigned [1; 2; 3; 4; 5] 5 7.
Proof.
  assert (Hb : forall x, 0 <= x < 256 -> Forall is_byte [1; 2; 3; 4; x]).
  { intros x Hx. repeat constructor; unfold is_byte; lia. }
  destruct (reduce_trailing_sign_extension [1; 2; 3; 4; 200] 5 7 (Hb 200 ltac:(lia)))
    as (Hsigned & _ & Hhigh).
  destruct (reduce_trailing_sign_extension [1; 2; 3; 4; 5] 5 7 (Hb 5 ltac:(lia)))
    as (_ & Hlow & _).
  split; [exact Hsigned|]. split.
  - apply Hhigh. apply Exists_cons_hd. vm_compute. discriminate.
  - apply Hlow. repeat constructor.
Defined.

Import Lookup Exhaustive Codec.

(** ** Binary search *)

(** C1: [searchTable] on sorted tables that contain the endpoint.
    On the one-record table it reports a miss for the endpoint that is
    there (the loop is left as soon as [beg = end], without a look at
    that record); on endpoints 1, 2, 3 searched for 2 it reports a hit
    with [index = 0], the record before the first equal one (the
    backward walk decrements [mid] once more on the failing test). *)
Theorem searchTable_first_occurrence_divergence :
  (forall fuel index,
      searchTable (S fuel) [mkChain 7 5] 1 5 index = Done (0, index))
  /\ (forall fuel index,
         searchTable (S (S fuel)) [mkChain 7 1; mkChain 8 2; mkChain 9 3] 3 2 index
         = Done (1, 0))
  /\ (forall fuel index,
         searchTable (S (S fuel)) [mkChain 7 1; mkChain 8 2] 2 2 index
         = Done (0, index)).
Proof. repeat split; intros; reflexivity. Qed.

(** What the backward walk leaves in [mid]: one less than the position
    [q] it stopped on.  The records after [q] up to the start of the
    walk hold the endpoint, and the record at [q] does not when [q > 0]. *)
Lemma back_loop_stop (t : list chain) (r : Z) (fuel : nat) :
  forall mid res,
    -1 <= mid -> back_loop fuel t r mid = Done res ->
    -1 <= res <= mid /\ (0 <= mid -> res < mid)
    /\ (forall k, res + 1 < k <= mid ->
          exists c, t !! Z.to_nat k = Some c /\ endpoint c = r)
    /\ (0 < res + 1 ->
          exists c, t !! Z.to_nat (res + 1) = Some c /\ endpoint c <> r).
Proof.
  induction fuel as [|fuel IH]; intros mid res Hmid Hrun; [discriminate|].
  cbn [back_loop] in Hrun.
  destruct (Z.leb_spec 0 mid) as [Hpos|Hneg].
  2:{ injection Hrun as <-. split; [lia|]. split; [lia|]. split; intros; lia. }
  unfold table_read in Hrun. destruct (Z.ltb_spec mid 0); [lia|].
  destruct (t !! Z.to_nat mid) as [c|] eqn:Hc; [|discriminate].
  cbn [mbind outcome_bind] in Hrun.
  destruct (Z.eqb_spec r (endpoint c)) as [Heq|Hne].
  - destruct (IH (mid - 1) res ltac:(lia) Hrun) as (Hres & _ & Hrun' & Hstop).
    split; [lia|]. split; [lia|]. split; [|exact Hstop].
    intros k Hk. destruct (Z.eq_dec k mid) as [->|Hkm].
    + exists c. now split.
    + apply Hrun'. lia.
  - injection Hrun as <-. split; [lia|]. split; [lia|]. split; [intros; lia|].
    intros _. exists c. replace (mid - 1 + 1) with mid by lia. split; congruence.
Qed.

(** Whenever [searchTable] reports a hit, [index] is the position the
    backward walk stopped on: every record after it, up to the probe
    that hit, holds the endpoint, and the record at [index] itself does
    not unless [index = 0]. *)
Lemma searchTable_hit_index (t : list chain) (r : Z) (fuel : nat) :
  forall beg end_ index0 index,
    search_loop fuel t r beg end_ index0 = Done (1, index) ->
    exists mid,
      0 <= index <= mid
      /\ (exists c, t !! Z.to_nat mid = Some c /\ endpoint c = r)
      /\ (forall k, index < k <= mid ->
            exists c, t !! Z.to_nat k = Some c /\ endpoint c = r)
      /\ (0 < index -> exists c, t !! Z.to_nat index = Some c /\ endpoint c <> r).
Proof.
  induction fuel as [|fuel IH]; intros beg end_ index0 index Hrun; [discriminate|].
  cbn [search_loop] in Hrun.
  destruct (beg <? end_); [|discriminate].
  set (mid := u32 (beg + end_) / 2) in *.
  assert (Hmid : 0 <= mid < 2 ^ 31).
  { pose proof (u32_range (beg + end_)) as Hu. unfold UINT_MODULUS in Hu.
    unfold mid. split; [apply Z.div_pos; lia|apply Z.div_lt_upper_bound; lia]. }
  destruct (table_read t mid) as [c| |] eqn:Hread; [|discriminate|discriminate].
  cbn [mbind outcome_bind] in Hrun.
  destruct (Z.ltb_spec r (endpoint c)) as [Hlt|Hge]; [now apply IH in Hrun|].
  destruct (Z.ltb_spec (endpoint c) r) as [Hgt|Hle]; [now apply IH in Hrun|].
  destruct (back_loop (S fuel) t r mid) as [res| |] eqn:Hback;
    [|discriminate|discriminate].
  cbn [mbind outcome_bind mret outcome_ret] in Hrun.
  destruct (back_loop_stop t r (S fuel) mid res ltac:(lia) Hback)
    as (Hres & Hless & Hrun' & Hstop).
  assert (Hidx : index = res + 1).
  { injection Hrun as <-. destruct (Z.ltb_spec res 0); [lia|].
    apply u32_small. unfold UINT_MODULUS. lia. }
  subst index. exists mid. split; [lia|]. split; [|split; [exact Hrun'|exact Hstop]].
  unfold table_read in Hread. destruct (mid <? 0); [discriminate|].
  destruct (t !! Z.to_nat mid) as [c'|]; [|discriminate].
  injection Hread as ->. exists c. split; [reflexivity|lia].
Qed.

(** ** Lookup *)

(** C9: the run of endpoints equal to [r = 2] reaches the last record
    and no chain regenerates the target: after the last candidate the
    loop test reads [table[3]] of a three-record table. *)
Theorem searchHashInMemory_reads_past_table :
  forall fuel index seed,
    searchHashInMemory (S (S (S fuel)))
      [mkChain 7 1; mkChain 8 2; mkChain 9 2] 3 1
      (fun _ => [0; 0; 0; 0]) 4 [2; 0; 0; 0] index seed
    = OutOfBounds 3.
Proof. intros. reflexivity. Qed.

(** ** Exhaustive search *)

(** C2: with two workers or more, the first two ranges share the seed
    [MAX_SEED / threads]: worker 0 ends on it and worker 1 starts on it. *)
Theorem worker_ranges_overlap (threads : Z) :
  2 <= threads <= MAX_SEED ->
  exists r0 r1,
    worker_ranges threads !! 0%nat = Some r0
    /\ worker_ranges threads !! 1%nat = Some r1
    /\ in_range r0 (MAX_SEED / threads)
    /\ in_range r1 (MAX_SEED / threads).
Proof.
  intros Ht. unfold worker_ranges.
  destruct (Z.to_nat threads) as [|[|n]] eqn:Hn; [lia|lia|].
  assert (Hr : 0 <= MAX_SEED / threads <= MAX_SEED / 2).
  { split; [apply Z.div_pos; unfold MAX_SEED; lia|].
    apply Z.div_le_compat_l; unfold MAX_SEED; lia. }
  assert (Hq : MAX_SEED / 2 = 2147483647) by reflexivity.
  set (range := MAX_SEED / threads) in *.
  cbn [assign_loop lookup list_lookup].
  assert (Hu : u32 (threads - 1) = threads - 1).
  { apply u32_small. unfold UINT_MODULUS, MAX_SEED in *. lia. }
  assert (Hs : u32 (0 + range) = range).
  { apply u32_small. unfold UINT_MODULUS. lia. }
  rewrite Hu, Hs.
  destruct (Z.eqb_spec 0 (threads - 1)) as [|_]; [lia|].
  eexists _, _. split; [reflexivity|]. split; [reflexivity|].
  unfold in_range. cbn [fst snd]. split; [lia|].
  split; [lia|].
  destruct (u32 (0 + 1) =? threads - 1).
  - unfold MAX_SEED. lia.
  - pose proof (u32_range (range + range)).
    rewrite u32_small; unfold UINT_MODULUS; lia.
Qed.

Lemma worker_ranges_overlap_witness :
  worker_ranges 2 = [(0, 2147483647); (2147483647, MAX_SEED)]
  /\ exists r0 r1,
      worker_ranges 2 !! 0%nat = Some r0
      /\ worker_ranges 2 !! 1%nat = Some r1
      /\ in_range r0 (MAX_SEED / 2)
      /\ in_range r1 (MAX_SEED / 2).
Proof.
  split; [reflexivity|].
  apply (worker_ranges_overlap 2). unfold MAX_SEED. lia.
Defined.

Lemma assign_loop_lookup (threads : Z) (n : nat) :
  1 <= threads <= MAX_SEED ->
  forall (i : Z) (j : nat),
    0 <= i -> i + Z.of_nat n <= threads -> (j < n)%nat ->
    assign_loop n threads (MAX_SEED / threads) MAX_SEED i (i * (MAX_SEED / threads)) !! j
    = Some ((i + Z.of_nat j) * (MAX_SEED / threads),
            if i + Z.of_nat j =? threads - 1 then MAX_SEED
            else (i + Z.of_nat j + 1) * (MAX_SEED / threads)).
Proof.
  intros Ht. set (range := MAX_SEED / threads).
  assert (Hrange : 0 <= range) by (apply Z.div_pos; unfold MAX_SEED in *; lia).
  assert (Hfit : threads * range <= MAX_SEED)
    by (apply Z.mul_div_le; lia).
  assert (Hu : u32 (threads - 1) = threads - 1)
    by (apply u32_small; unfold UINT_MODULUS, MAX_SEED in *; lia).
  induction n as [|n IH]; intros i j Hi Hn Hj; [lia|].
  cbn [assign_loop]. rewrite Hu.
  assert (Hnext : i + 1 < threads -> u32 (i * range + range) = (i + 1) * range).
  { intros Hlt. replace (i * range + range) with ((i + 1) * range) by lia.
    apply u32_small. unfold UINT_MODULUS, MAX_SEED in *. nia. }
  destruct j as [|j].
  - cbn [lookup list_lookup]. replace (i + Z.of_nat 0) with i by lia.
    destruct (Z.eqb_spec i (threads - 1)) as [_|Hne]; [reflexivity|].
    rewrite Hnext by lia. reflexivity.
  - rewrite lookup_cons.
    assert (Hi1 : u32 (i + 1) = i + 1)
      by (apply u32_small; unfold UINT_MODULUS, MAX_SEED in *; lia).
    rewrite Hi1, Hnext by lia.
    rewrite (IH (i + 1) j) by lia.
    replace (i + 1 + Z.of_nat j) with (i + Z.of_nat (S j)) by lia. reflexivity.
Qed.

(** The ranges leave no gap: every seed lies in the range of some worker. *)
Lemma worker_ranges_cover (threads s : Z) :
  1 <= threads <= MAX_SEED -> 0 <= s <= MAX_SEED ->
  exists (j : nat) (rg : Z * Z),
    worker_ranges threads !! j = Some rg /\ in_range rg s.
Proof.
  intros Ht Hs. unfold worker_ranges.
  set (range := MAX_SEED / threads).
  assert (Hrange : 1 <= range).
  { unfold range. apply Z.div_le_lower_bound; lia. }
  pose proof (assign_loop_lookup threads (Z.to_nat threads) Ht 0) as Hlk.
  change (0 * (MAX_SEED / threads)) with 0 in Hlk. fold range in Hlk.
  pose proof (Z.mul_div_le s range ltac:(lia)) as Hlo.
  pose proof (Z.mul_succ_div_gt s range ltac:(lia)) as Hhi.
  assert (Hq : 0 <= s / range) by (apply Z.div_pos; lia).
  destruct (Z_lt_le_dec (s / range) (threads - 1)) as [Hin|Hlast].
  - exists (Z.to_nat (s / range)). eexists. split.
    + apply Hlk; lia.
    + rewrite Z2Nat.id, !Z.add_0_l by lia.
      destruct (Z.eqb_spec (s / range) (threads - 1)); [lia|].
      unfold in_range. cbn [fst snd]. lia.
  - exists (Z.to_nat (threads - 1)). eexists. split.
    + apply Hlk; lia.
    + rewrite Z2Nat.id, !Z.add_0_l, Z.eqb_refl by lia.
      unfold in_range. cbn [fst snd]. nia.
Qed.

Lemma worker_loop_never_leaves fuel others H hash hashLen k i sh :
  (forall s, memcmp_eq hash (H s) hashLen = false) ->
  (forall n, others n = false) ->
  found sh = false ->
  0 <= i <= MAX_SEED ->
  worker_loop fuel others H hash hashLen MAX_SEED k i sh = OutOfFuel.
Proof.
  intros Hmiss Hothers. revert k i sh.
  induction fuel as [|fuel IH]; intros k i sh Hf Hi; [reflexivity|].
  cbn [worker_loop].
  destruct (Z.leb_spec i MAX_SEED) as [_|]; [|lia].
  rewrite Hmiss, Hf, Hothers. cbn [orb].
  apply IH; [exact Hf|]. pose proof (u32_range (i + 1)).
  unfold UINT_MODULUS, MAX_SEED in *. lia.
Qed.

(** C3: the worker whose range ends at [MAX_SEED] never leaves its loop
    when no seed hashes to the target and nobody raises the flag: the
    test [i <= end] holds for every [unsigned int] and [i] wraps to 0.
    Whatever the budget of iterations, the loop is still running. *)
Theorem seedRecoveryWorker_last_range_runs_forever
  (fuel : nat) (others : nat -> bool) (H : hashFunc) (hash : list Z)
  (hashLen start : Z) (sh : shared) :
  (forall s, memcmp_eq hash (H s) hashLen = false) ->
  (forall n, others n = false) ->
  found sh = false ->
  0 <= start <= MAX_SEED ->
  seedRecoveryWorker fuel others H hash hashLen start MAX_SEED sh = OutOfFuel.
Proof. intros. unfold seedRecoveryWorker. now apply worker_loop_never_leaves. Qed.

Lemma seedRecoveryWorker_last_range_runs_forever_witness :
  seedRecoveryWorker 1000 (fun _ => false) (fun _ => [0]) [1] 1 0 MAX_SEED
    (mkShared false 0) = OutOfFuel.
Proof.
  apply (seedRecoveryWorker_last_range_runs_forever 1000 (fun _ => false)
           (fun _ => [0]) [1] 1 0 (mkShared false 0)).
  - intros s. reflexivity.
  - intros n. reflexivity.
  - reflexivity.
  - unfold MAX_SEED. lia.
Defined.

(** A range that ends below [MAX_SEED] is left after at most
    [end - start + 1] trips. *)
Lemma worker_loop_leaves_inner_range fuel others H hash hashLen end_ k i sh :
  0 <= i -> end_ < MAX_SEED ->
  (Z.to_nat (end_ + 1 - i) < fuel)%nat ->
  exists sh', worker_loop fuel others H hash hashLen end_ k i sh = Done sh'.
Proof.
  revert k i sh. induction fuel as [|fuel IH]; intros k i sh Hi He Hf; [lia|].
  cbn [worker_loop].
  destruct (Z.leb_spec i end_) as [Hle|Hgt]; [|eexists; reflexivity].
  destruct (found _ || others k); [eexists; reflexivity|].
  assert (Hu : u32 (i + 1) = i + 1)
    by (apply u32_small; unfold UINT_MODULUS, MAX_SEED in *; lia).
  rewrite Hu. apply IH; lia.
Qed.

(** ** Table names *)

(** The only name [parseTablename] refuses is one whose basename has no
    dot. *)
Lemma parseTablename_return (tablename : list ascii) (out : parsed) (index0 : Z) :
  cstr tablename <> [] ->
  fst <$> parseTablename tablename out index0
  = Some match strchr (basename (cstr tablename)) "."%char with
         | None => -1
         | Some _ => 1
         end.
Proof.
  intros Hne. unfold parseTablename.
  destruct (strchr (basename (cstr tablename)) "."%char) as [dotPos|]; [|reflexivity].
  destruct (cstr tablename) as [|c path]; [congruence|]. cbn [basename_static].
  now destruct (sscanf_tablename _ out index0) as [[? ?] ?].
Qed.

(** C4: the name [bad.rt] is accepted: the dot is found, the result of
    [sscanf] is not looked at, and 1 is returned with [chainNum] and
    [chainLen] left as they were. *)
Theorem parseTablename_accepts_bad_rt :
  forall out index0,
    parseTablename (of_string "bad.rt") out index0
    = Some (1, mkParsed (of_string "bad") (p_chainNum out) (p_chainLen out)).
Proof. intros out index0. reflexivity. Qed.

(** ** Chain regeneration *)

Lemma memcmp_eq_iff (a b : list Z) (n : Z) :
  Z.of_nat (length a) = n -> Z.of_nat (length b) = n ->
  memcmp_eq a b n = true <-> a = b.
Proof.
  intros Ha Hb. unfold memcmp_eq. rewrite forallb_forall. split.
  - intros Hall. apply (nth_ext a b 0 0); [lia|].
    intros i Hi. specialize (Hall i). rewrite in_seq in Hall.
    unfold byte_at in Hall. rewrite !Nat2Z.id in Hall.
    apply Z.eqb_eq, Hall. lia.
  - intros -> i _. apply Z.eqb_refl.
Qed.

Lemma regen_loop_cases (H : hashFunc) (hlen start seed0 : Z) (target : list Z)
  (n j : nat) :
  Z.of_nat (j + n) < UINT_MODULUS ->
  let res := regen_loop n H hlen target (Z.of_nat j)
               (chain_seed H hlen start j) seed0 in
  (exists k, (j <= k < j + n)%nat
             /\ memcmp_eq (H (chain_seed H hlen start k)) target hlen = true
             /\ (forall m, (j <= m < k)%nat ->
                   memcmp_eq (H (chain_seed H hlen start m)) target hlen = false)
             /\ res = (1, chain_seed H hlen start k))
  \/ ((forall k, (j <= k < j + n)%nat ->
         memcmp_eq (H (chain_seed H hlen start k)) target hlen = false)
      /\ res = (0, seed0)).
Proof.
  revert j. induction n as [|n IH]; intros j Hb; cbn zeta.
  - right. split; [intros k Hk; lia|reflexivity].
  - cbn [regen_loop].
    destruct (memcmp_eq (H (chain_seed H hlen start j)) target hlen) eqn:Hj.
    + left. exists j. repeat split; [lia|lia|exact Hj|intros m Hm; lia].
    + assert (Hu : u32 (Z.of_nat j + 1) = Z.of_nat (S j))
        by (rewrite u32_small; lia).
      rewrite Hu.
      change (reduce (H (chain_seed H hlen start j)) hlen (Z.of_nat j))
        with (chain_seed H hlen start (S j)).
      destruct (IH (S j)) as [(k & Hk & Hhit & Hleast & Hres)|[Hnone Hres]]; [lia| |].
      * left. exists k. repeat split; [lia|lia|exact Hhit| |exact Hres].
        intros m Hm. destruct (Nat.eq_dec m j) as [->|]; [exact Hj|apply Hleast; lia].
      * right. split; [|exact Hres].
        intros k Hk. destruct (Nat.eq_dec k j) as [->|]; [exact Hj|apply Hnone; lia].
Qed.

(** C7: [regenerateChain] succeeds with the seed [s_k] exactly when some
    step [k < L] has [H(s_k) = target], [s_0 = start] and
    [s_(j+1) = reduce(H(s_j), hlen, j)]; the digest of [s_k] is compared
    before it is reduced, so the seed answered is the one of the first
    matching step.  When no step matches, 0 is returned and [*seed] is
    left as it was. *)
Theorem regenerateChain_iff_chain_hit
  (H : hashFunc) (hlen L start seed0 : Z) (target : list Z) :
  is_u32 L ->
  (forall x, Z.of_nat (length (H x)) = hlen) ->
  Z.of_nat (length target) = hlen ->
  let s := chain_seed H hlen start in
  let res := regenerateChain start L H hlen target seed0 in
  (forall sd, res = (1, sd) <->
     exists k, Z.of_nat k < L /\ H (s k) = target
               /\ (forall j, (j < k)%nat -> H (s j) <> target) /\ sd = s k)
  /\ (res = (0, seed0) <-> forall k, Z.of_nat k < L -> H (s k) <> target)
  /\ (fst res = 1 \/ res = (0, seed0)).
Proof.
  intros HL HH Ht s res.
  assert (Hhit : forall k, memcmp_eq (H (s k)) target hlen = true <-> H (s k) = target)
    by (intros k; apply memcmp_eq_iff; [apply HH|exact Ht]).
  assert (Hmiss : forall k, memcmp_eq (H (s k)) target hlen = false <-> H (s k) <> target).
  { intros k. rewrite <- Hhit. destruct (memcmp_eq _ _ _); split; congruence. }
  pose proof (regen_loop_cases H hlen start seed0 target (Z.to_nat L) 0) as Hc.
  cbn zeta in Hc. change (regen_loop (Z.to_nat L) H hlen target (Z.of_nat 0)
                            (chain_seed H hlen start 0) seed0) with res in Hc.
  fold s in Hc. unfold is_u32 in HL.
  destruct Hc as [(k & Hk & Hkhit & Hleast & Hres)|[Hnone Hres]]; [lia| |].
  - repeat split.
    + intros Hsd. exists k. rewrite Hres in Hsd. injection Hsd as <-.
      repeat split; [lia|now apply Hhit|intros j Hj; apply Hmiss, Hleast; lia].
    + intros (k' & Hk' & Hk'hit & Hk'least & ->). rewrite Hres. f_equal.
      destruct (Nat.lt_trichotomy k k') as [Hlt|[->|Hgt]]; [|reflexivity|].
      * exfalso. apply (Hk'least k Hlt). now apply Hhit.
      * exfalso. apply Hhit in Hk'hit. rewrite Hleast in Hk'hit by lia. discriminate.
    + rewrite Hres. discriminate.
    + intros Hno. exfalso. apply (Hno k); [lia|now apply Hhit].
    + left. now rewrite Hres.
  - repeat split.
    + rewrite Hres. discriminate.
    + intros (k' & Hk' & Hk'hit & _). exfalso.
      apply Hhit in Hk'hit. rewrite Hnone in Hk'hit by lia. discriminate.
    + intros _ k Hk. apply Hmiss, Hnone. lia.
    + intros _. exact Hres.
    + right. exact Hres.
Qed.

Lemma regenerateChain_iff_chain_hit_witness :
  let H : hashFunc := fun x => [(x + 1) mod 256; 0; 0; 0] in
  regenerateChain 5 3 H 4 [7; 0; 0; 0] 0 = (1, 6).
Proof.
  intros H.
  assert (HL : is_u32 3) by (unfold is_u32, UINT_MODULUS; lia).
  assert (HH : forall x, Z.of_nat (length (H x)) = 4) by (intros x; reflexivity).
  assert (Ht : Z.of_nat (length [7; 0; 0; 0]) = 4) by reflexivity.
  pose proof (regenerateChain_iff_chain_hit H 4 3 5 0 [7; 0; 0; 0] HL HH Ht) as Hthm.
  cbv zeta in Hthm. destruct Hthm as [Hfound _].
  apply Hfound. exists 1%nat. split; [lia|]. split; [reflexivity|].
  split; [|reflexivity].
  intros j Hj. assert (j = 0%nat) as -> by lia. vm_compute. discriminate.
Defined.

(** ** Table-name codec *)

Lemma isdigit_plain c :
  isdigit c = true ->
  isspace c = false /\ is_slash c = false /\ is_dot c = false
  /\ Ascii.eqb c "-"%char = false /\ Ascii.eqb c "+"%char = false
  /\ Ascii.eqb c NUL = false.
Proof.
  destruct c as [[] [] [] [] [] [] [] []]; vm_compute; intros Hd;
    repeat split; congruence.
Qed.

Lemma digit_char_spec d :
  0 <= d < 10 -> isdigit (digit_char d) = true /\ digit_val (digit_char d) = d.
Proof.
  intros Hd.
  assert (Hcases : d = 0 \/ d = 1 \/ d = 2 \/ d = 3 \/ d = 4 \/ d = 5
                   \/ d = 6 \/ d = 7 \/ d = 8 \/ d = 9) by lia.
  repeat (destruct Hcases as [->|Hcases]; [split; reflexivity|]).
  subst d. split; reflexivity.
Qed.

Lemma cstr_id s : Forall (fun c => Ascii.eqb c NUL = false) s -> cstr s = s.
Proof.
  induction 1 as [|c s Hc _ IH]; simpl; [reflexivity|].
  now rewrite Hc, IH.
Qed.

Lemma utoa_loop_digits fuel n acc :
  (0 < fuel)%nat -> 0 <= n < 10 ^ Z.of_nat fuel ->
  exists ds,
    utoa_loop fuel n acc = ds ++ acc
    /\ ds <> []
    /\ Forall (fun c => isdigit c = true) ds
    /\ (length ds <= fuel)%nat
    /\ forall a, fold_left (fun a c => a * 10 + digit_val c) ds a
                 = a * 10 ^ Z.of_nat (length ds) + n.
Proof.
  revert n acc. induction fuel as [|fuel IH]; intros n acc Hf Hn; [lia|].
  cbn [utoa_loop].
  assert (Hm : 0 <= n mod 10 < 10) by (apply Z.mod_pos_bound; lia).
  destruct (digit_char_spec (n mod 10) Hm) as [Hdig Hval].
  rewrite Nat2Z.inj_succ, Z.pow_succ_r in Hn by lia.
  destruct (Z.eqb_spec (n / 10) 0) as [Hz|Hnz].
  - exists [digit_char (n mod 10)]. repeat split.
    + discriminate.
    + repeat constructor. exact Hdig.
    + simpl. lia.
    + intros a. simpl. rewrite Hval.
      pose proof (Z.div_mod n 10). lia.
  - assert (Hq : 0 <= n / 10 < 10 ^ Z.of_nat fuel).
    { split; [apply Z.div_pos; lia|]. apply Z.div_lt_upper_bound; lia. }
    assert (Hfuel : (0 < fuel)%nat).
    { destruct fuel; [|lia]. simpl in Hq. lia. }
    destruct (IH (n / 10) (digit_char (n mod 10) :: acc) Hfuel Hq)
      as (ds & Heq & _ & Hall & Hlen & Hfold).
    exists (ds ++ [digit_char (n mod 10)]). repeat split.
    + rewrite Heq, <- app_assoc. reflexivity.
    + destruct ds; discriminate.
    + apply Forall_app. split; [exact Hall|]. repeat constructor. exact Hdig.
    + rewrite length_app. simpl. lia.
    + intros a. rewrite fold_left_app. simpl. rewrite Hfold, Hval.
      rewrite length_app. simpl length.
      replace (Z.of_nat (length ds + 1)) with (Z.succ (Z.of_nat (length ds))) by lia.
      rewrite Z.pow_succ_r by lia.
      pose proof (Z.div_mod n 10). lia.
Qed.

Lemma fmt_u_digits n :
  is_u32 n ->
  exists ds,
    fmt_u n = ds /\ ds <> []
    /\ Forall (fun c => isdigit c = true) ds
    /\ (length ds <= 10)%nat
    /\ fold_left (fun a c => a * 10 + digit_val c) ds 0 = n.
Proof.
  intros Hn. unfold fmt_u. rewrite (u32_small n Hn).
  destruct (utoa_loop_digits 10 n []) as (ds & Heq & Hne & Hall & Hlen & Hfold).
  - lia.
  - unfold is_u32, UINT_MODULUS in Hn. simpl. lia.
  - exists ds. rewrite Heq, app_nil_r. repeat split; try assumption.
    rewrite Hfold. lia.
Qed.

Lemma scan_digits_app ds c rest a :
  Forall (fun c => isdigit c = true) ds -> isdigit c = false ->
  scan_digits (ds ++ c :: rest) a
  = (fold_left (fun a c => a * 10 + digit_val c) ds a, c :: rest).
Proof.
  intros Hds Hc. revert a. induction Hds as [|d ds Hd _ IH]; intros a; simpl.
  - now rewrite Hc.
  - rewrite Hd. apply IH.
Qed.

Lemma fmt_u_decimal n : is_u32 n -> decimal_of n (fmt_u n).
Proof.
  intros Hn. destruct (fmt_u_digits n Hn) as (ds & -> & H1 & H2 & H3 & H4).
  repeat split; assumption.
Qed.

Lemma skip_ws_decimal n ds rest : decimal_of n ds -> skip_ws (ds ++ rest) = ds ++ rest.
Proof.
  intros (Hne & Hall & _). destruct ds as [|d ds]; [congruence|].
  destruct (isdigit_plain d (Forall_inv Hall)) as (Hsp & _).
  cbn [app skip_ws]. now rewrite Hsp.
Qed.

Lemma scan_u_decimal n ds c rest :
  is_u32 n -> decimal_of n ds -> isdigit c = false ->
  scan_u (ds ++ c :: rest) = Some (n, c :: rest).
Proof.
  intros Hn (Hne & Hall & _ & Hval) Hc.
  destruct ds as [|d ds]; [congruence|].
  pose proof (Forall_inv Hall) as Hd.
  destruct (isdigit_plain d Hd) as (Hsp & _ & _ & Hminus & Hplus & _).
  unfold scan_u. cbn [app skip_ws]. rewrite Hsp, Hminus, Hplus, Hd.
  change (d :: ds ++ c :: rest) with ((d :: ds) ++ c :: rest).
  rewrite (scan_digits_app (d :: ds) c rest 0 Hall Hc), Hval.
  now rewrite (u32_small n Hn).
Qed.

Lemma plain_char_spec c :
  plain_char c = true ->
  Ascii.eqb c NUL = false /\ isspace c = false /\ is_dot c = false /\ is_slash c = false.
Proof.
  unfold plain_char. rewrite !andb_true_iff, !negb_true_iff. tauto.
Qed.

Lemma strip_trailing_slashes_id s :
  Forall (fun c => is_slash c = false) s -> strip_trailing_slashes s = s.
Proof.
  induction 1 as [|c s Hc _ IH]; cbn [strip_trailing_slashes]; [reflexivity|].
  rewrite IH, Hc. now destruct s.
Qed.

Lemma last_component_id s :
  Forall (fun c => is_slash c = false) s -> last_component s = s.
Proof.
  intros Hs. destruct Hs as [|c s Hc Hs]; cbn [last_component]; [reflexivity|].
  assert (Hex : existsb is_slash s = false).
  { induction Hs as [|c' s' Hc' _ IH]; simpl; [reflexivity|]. now rewrite Hc', IH. }
  now rewrite Hex, Hc.
Qed.

Lemma basename_id s :
  s <> [] -> Forall (fun c => is_slash c = false) s -> basename s = s.
Proof.
  intros Hne Hs. unfold basename. destruct s as [|c s]; [congruence|].
  rewrite strip_trailing_slashes_id by exact Hs.
  now apply last_component_id.
Qed.

Lemma strchr_first_dot name rest :
  Forall (fun c => is_dot c = false) name ->
  strchr (name ++ "."%char :: rest) "."%char = Some (length name).
Proof.
  induction 1 as [|c name Hc _ IH]; cbn [app strchr length]; [reflexivity|].
  unfold is_dot in Hc. now rewrite Hc, IH.
Qed.

Lemma scan_token_app name c rest :
  Forall (fun c => isspace c = false) name -> isspace c = true ->
  scan_token (name ++ c :: rest) = (name, c :: rest).
Proof.
  intros Hname Hc. induction Hname as [|d name Hd _ IH]; cbn [app scan_token].
  - now rewrite Hc.
  - now rewrite Hd, IH.
Qed.

Lemma decimal_benign n ds : decimal_of n ds -> Forall benign ds.
Proof.
  intros (_ & Hall & _). eapply List.Forall_impl; [|exact Hall].
  intros c Hc. destruct (isdigit_plain c Hc) as (_ & Hs & _ & _ & _ & Hn).
  now split.
Qed.

(** C8 (as amended): a hash name that is not empty, made of characters
    other than the terminator, white space, the dot and the slash, and
    short enough for the 512-byte buffer of the encoder, is recovered
    together with [chainNum] and [chainLen] from the generated name. *)
Theorem parseTablename_generateTableName
  (hashName : list ascii) (chainNum chainLen index : Z) (out : parsed) (index0 : Z) :
  hashName <> [] ->
  Forall (fun c => plain_char c = true) hashName ->
  (length hashName <= 475)%nat ->
  is_u32 chainNum -> is_u32 chainLen -> is_u32 index ->
  parseTablename (generateTableName hashName chainNum chainLen index) out index0
  = Some (1, mkParsed hashName chainNum chainLen).
Proof.
  intros Hne Hplain Hlen Hcn Hcl Hidx.
  pose proof (fmt_u_decimal chainNum Hcn) as D1.
  pose proof (fmt_u_decimal chainLen Hcl) as D2.
  pose proof (fmt_u_decimal index Hidx) as D3.
  unfold generateTableName.
  set (d1 := fmt_u chainNum) in *. set (d2 := fmt_u chainLen) in *.
  set (d3 := fmt_u index) in *.
  assert (Hnul : Forall (fun c => Ascii.eqb c NUL = false) hashName).
  { eapply List.Forall_impl; [|exact Hplain]. intros c Hc. apply (plain_char_spec c Hc). }
  assert (Hws : Forall (fun c => isspace c = false) hashName).
  { eapply List.Forall_impl; [|exact Hplain]. intros c Hc. apply (plain_char_spec c Hc). }
  assert (Hdot : Forall (fun c => is_dot c = false) hashName).
  { eapply List.Forall_impl; [|exact Hplain]. intros c Hc. apply (plain_char_spec c Hc). }
  assert (Hben : Forall benign hashName).
  { eapply List.Forall_impl; [|exact Hplain]. intros c Hc.
    destruct (plain_char_spec c Hc) as (? & _ & _ & ?). now split. }
  rewrite (cstr_id hashName Hnul).
  change (of_string ".") with ["."%char].
  change (of_string ".rt") with ["."%char; "r"%char; "t"%char].
  cbn [app].
  set (tail := d1 ++ "."%char :: d2 ++ "."%char :: d3 ++ ["."%char; "r"%char; "t"%char]).
  assert (Htail : Forall benign tail).
  { unfold tail. repeat first [rewrite Forall_app | rewrite Forall_cons].
    pose proof (decimal_benign _ _ D1). pose proof (decimal_benign _ _ D2).
    pose proof (decimal_benign _ _ D3).
    repeat split; try assumption; try reflexivity. apply Forall_nil_2. }
  rewrite take_ge.
  2:{ unfold tail. destruct D1 as (_ & _ & L1 & _), D2 as (_ & _ & L2 & _),
        D3 as (_ & _ & L3 & _).
      repeat first [rewrite length_app | progress cbn [length]]. lia. }
  assert (Hall : Forall benign (hashName ++ "."%char :: tail)).
  { apply Forall_app. split; [exact Hben|]. apply Forall_cons.
    split; [split; reflexivity|exact Htail]. }
  unfold parseTablename.
  rewrite cstr_id by (eapply List.Forall_impl; [|exact Hall]; intros c Hc; apply Hc).
  rewrite basename_id.
  2:{ destruct hashName; [congruence|discriminate]. }
  2:{ eapply List.Forall_impl; [|exact Hall]. intros c Hc. apply Hc. }
  rewrite (strchr_first_dot hashName tail Hdot).
  rewrite insert_app_r_alt by lia. rewrite Nat.sub_diag. cbn [insert list_insert].
  unfold sscanf_tablename.
  destruct hashName as [|c0 name']; [congruence|].
  pose proof (Forall_inv Hws) as Hc0.
  cbn [app skip_ws basename_static]. rewrite Hc0.
  change (c0 :: name' ++ " "%char :: tail) with ((c0 :: name') ++ " "%char :: tail).
  rewrite (scan_token_app (c0 :: name') " "%char tail Hws eq_refl).
  cbv beta iota.
  change (skip_ws (" "%char :: tail)) with (skip_ws tail).
  unfold tail. rewrite (skip_ws_decimal chainNum d1 _ D1).
  rewrite (scan_u_decimal chainNum d1 "."%char _ Hcn D1 eq_refl).
  cbn [scan_lit mbind option_bind Ascii.eqb Bool.eqb].
  rewrite (scan_u_decimal chainLen d2 "."%char _ Hcl D2 eq_refl).
  cbn [scan_lit mbind option_bind Ascii.eqb Bool.eqb].
  rewrite (scan_u_decimal index d3 "."%char _ Hidx D3 eq_refl).
  reflexivity.
Qed.

Lemma parseTablename_generateTableName_witness :
  parseTablename (generateTableName (of_string "wikihash") 1000 100 0)
    (mkParsed [] 0 0) 0
  = Some (1, mkParsed (of_string "wikihash") 1000 100).
Proof.
  apply (parseTablename_generateTableName (of_string "wikihash") 1000 100 0).
  - discriminate.
  - repeat constructor.
  - simpl. lia.
  - unfold is_u32, UINT_MODULUS. lia.
  - unfold is_u32, UINT_MODULUS. lia.
  - unfold is_u32, UINT_MODULUS. lia.
Defined.

(** C8 (as stated) fails on a hash name without a dot that holds a
    space: the name ["a b"] comes back as ["a"] and the two numbers are
    not assigned. *)
Lemma parseTablename_generateTableName_counterexample :
  Forall (fun c => is_dot c = false) (of_string "a b")
  /\ parseTablename (generateTableName (of_string "a b") 1 2 3) (mkParsed [] 0 0) 0
     = Some (1, mkParsed (of_string "a") 0 0)
  /\ parseTablename (generateTableName (of_string "a b") 1 2 3) (mkParsed [] 0 0) 0
     <> Some (1, mkParsed (of_string "a b") 1 2).
Proof.
  split; [repeat constructor|]. split; [reflexivity|].
  vm_compute. discriminate.
Qed.

(** The other bounds of the round trip: a slash in the name is taken
    for a directory separator, an empty name makes [%s] swallow the
    numbers, and a name that fills the 512-byte buffer loses the rest of
    the file name. *)
Example parseTablename_generateTableName_slash :
  parseTablename (generateTableName (of_string "a/b") 1 2 3) (mkParsed [] 0 0) 0
  = Some (1, mkParsed (of_string "b") 1 2).
Proof. reflexivity. Qed.

Example parseTablename_generateTableName_empty :
  parseTablename (generateTableName [] 1 2 3) (mkParsed [] 0 0) 0
  = Some (1, mkParsed (of_string "1.2.3.rt") 0 0).
Proof. reflexivity. Qed.

Example parseTablename_generateTableName_long :
  parseTablename (generateTableName (repeat "a"%char 511) 1 2 3) (mkParsed [] 0 0) 0
  = Some (-1, mkParsed [] 0 0).
Proof. vm_compute. reflexivity. Qed.

(** ** Quicksort *)

Import Sorter.

Lemma s32_small z : - 2 ^ 31 <= z < 2 ^ 31 -> s32 z = z.
Proof.
  intros Hz. unfold s32, UINT_MODULUS.
  destruct (Z_lt_le_dec z 0) as [Hneg|Hpos].
  - replace (z mod 2 ^ 32) with (z + 2 ^ 32).
    + destruct (Z.ltb_spec (z + 2 ^ 32) (2 ^ 31)); lia.
    + apply Z.mod_unique with (-1); lia.
  - rewrite Z.mod_small by lia.
    destruct (Z.ltb_spec z (2 ^ 31)); lia.
Qed.

Lemma u32_s32 z : u32 (s32 z) = u32 z.
Proof.
  unfold s32, u32, UINT_MODULUS.
  destruct (z mod 2 ^ 32 <? 2 ^ 31).
  - apply Z.mod_mod. lia.
  - replace (z mod 2 ^ 32 - 2 ^ 32) with (z mod 2 ^ 32 + (-1) * 2 ^ 32) by lia.
    rewrite Z.mod_add by lia. apply Z.mod_mod. lia.
Qed.

Lemma table_read_lookup (t : list chain) (k : nat) (c : chain) :
  t !! k = Some c -> table_read t (Z.of_nat k) = Done c.
Proof.
  intros Hk. unfold table_read.
  destruct (Z.ltb_spec (Z.of_nat k) 0); [lia|].
  now rewrite Nat2Z.id, Hk.
Qed.

Lemma transpose_inj a b : Inj (=) (=) (transpose a b).
Proof.
  intros i j. unfold transpose.
  repeat case_decide; intros; subst; congruence.
Qed.

Lemma swap_lookup (t : list chain) (a b : nat) (ca cb : chain) :
  t !! a = Some ca -> t !! b = Some cb ->
  let t' := <[b := ca]> (<[a := cb]> t) in
  swap t (Z.of_nat a) (Z.of_nat b) = Done t'
  /\ length t' = length t
  /\ forall i, t' !! i = t !! transpose a b i.
Proof.
  intros Ha Hb t'. unfold swap.
  rewrite (table_read_lookup t a ca Ha), (table_read_lookup t b cb Hb).
  cbn [mbind outcome_bind mret outcome_ret]. rewrite !Nat2Z.id.
  split; [reflexivity|]. split; [unfold t'; now rewrite !length_insert|].
  intros i. unfold t', transpose.
  pose proof (lookup_lt_Some _ _ _ Ha). pose proof (lookup_lt_Some _ _ _ Hb).
  destruct (decide (i = b)) as [->|Hib].
  - rewrite list_lookup_insert_eq by (rewrite length_insert; lia).
    case_decide; subst; congruence.
  - rewrite list_lookup_insert_ne by congruence.
    destruct (decide (i = a)) as [->|Hia].
    + rewrite list_lookup_insert_eq by lia. congruence.
    + now rewrite list_lookup_insert_ne by congruence.
Qed.

Lemma rearranged_refl t b e : rearranged t t b e.
Proof. repeat split; eauto. Qed.

Lemma rearranged_trans t1 t2 t3 b e :
  rearranged t1 t2 b e -> rearranged t2 t3 b e -> rearranged t1 t3 b e.
Proof.
  intros (P1 & L1 & O1 & I1) (P2 & L2 & O2 & I2). repeat split.
  - now rewrite P2.
  - congruence.
  - intros k Hk. now rewrite O2, O1.
  - intros k c Hk Hc. destruct (I2 k c Hk Hc) as (k' & Hk' & Hc'). eauto.
Qed.

Lemma rearranged_weaken t t' b e b' e' :
  rearranged t t' b e -> (b' <= b)%nat -> (e <= e')%nat -> rearranged t t' b' e'.
Proof.
  intros (P & L & O & I) Hb He. repeat split; [exact P|exact L| |].
  - intros k Hk. apply O. lia.
  - intros k c Hk Hc.
    destruct (decide (b <= k < e)%nat) as [Hin|Hout].
    + destruct (I k c Hin Hc) as (k' & Hk' & Hc'). exists k'. split; [lia|exact Hc'].
    + exists k. split; [exact Hk|]. rewrite <- O; [exact Hc|lia].
Qed.

Lemma rearranged_range_all P t t' b e :
  rearranged t t' b e -> range_all P t b e -> range_all P t' b e.
Proof.
  intros (_ & _ & _ & I) Hall k c Hk Hc.
  destruct (I k c Hk Hc) as (k' & Hk' & Hc'). eauto.
Qed.

Lemma rearranged_range_all_outside P t t' b e lo hi :
  rearranged t t' b e -> (hi <= b \/ e <= lo)%nat ->
  range_all P t lo hi -> range_all P t' lo hi.
Proof.
  intros (_ & _ & O & _) Hdisj Hall k c Hk Hc.
  apply (Hall k c Hk). rewrite <- O; [exact Hc|lia].
Qed.

Lemma swap_rearranged (t : list chain) (a b lo hi : nat) (ca cb : chain) :
  t !! a = Some ca -> t !! b = Some cb ->
  (lo <= a < hi)%nat -> (lo <= b < hi)%nat ->
  rearranged t (<[b := ca]> (<[a := cb]> t)) lo hi.
Proof.
  intros Ha Hb Hia Hib.
  destruct (swap_lookup t a b ca cb Ha Hb) as (_ & Hlen & Hlk).
  repeat split.
  - apply Permutation_inj. split; [exact Hlen|].
    exists (transpose a b). split; [apply transpose_inj|exact Hlk].
  - exact Hlen.
  - intros k Hk. rewrite Hlk. unfold transpose.
    repeat case_decide; subst; try lia; reflexivity.
  - intros k c Hk Hc. rewrite Hlk in Hc. exists (transpose a b k).
    split; [|exact Hc]. unfold transpose. repeat case_decide; lia.
Qed.

Lemma transpose_other a b i : i <> a -> i <> b -> transpose a b i = i.
Proof. intros. unfold transpose. repeat case_decide; congruence. Qed.

Lemma transpose_l a b : transpose a b a = b.
Proof. unfold transpose. repeat case_decide; congruence. Qed.

Lemma transpose_r a b : transpose a b b = a.
Proof. unfold transpose. repeat case_decide; congruence. Qed.

Lemma partition_loop_spec (piv pv : Z) (b e : nat) :
  u32 piv = pv -> Z.of_nat e <= INT_MAX ->
  forall fuel (t : list chain) (l r : nat),
    (r - l < fuel)%nat -> (b < l <= r)%nat -> (r <= e <= length t)%nat ->
    range_all (fun c => endpoint c <= pv) t (S b) l ->
    range_all (fun c => pv < endpoint c) t r e ->
    exists t' m,
      partition_loop fuel t piv (Z.of_nat l) (Z.of_nat r)
      = Done (t', Z.of_nat m, Z.of_nat m)
      /\ (l <= m <= r)%nat
      /\ rearranged t t' (S b) e
      /\ range_all (fun c => endpoint c <= pv) t' (S b) m
      /\ range_all (fun c => pv < endpoint c) t' m e.
Proof.
  intros Hpv He. unfold INT_MAX in He.
  induction fuel as [|fuel IH]; intros t l r Hf Hlr Hre Hle Hgt; [lia|].
  cbn [partition_loop].
  destruct (Z.ltb_spec (Z.of_nat l) (Z.of_nat r)) as [Hlt|Hge].
  - assert (Hl : (l < length t)%nat) by lia.
    destruct (lookup_lt_is_Some_2 t l Hl) as [c Hc].
    rewrite (table_read_lookup t l c Hc). cbn [mbind outcome_bind]. rewrite Hpv.
    destruct (Z.leb_spec (endpoint c) pv) as [Hcle|Hcgt].
    + assert (Hs : s32 (Z.of_nat l + 1) = Z.of_nat (S l))
        by (rewrite s32_small; lia).
      rewrite Hs.
      destruct (IH t (S l) r) as (t' & m & Heq & Hm & Hre' & Hle' & Hgt');
        [lia|lia|lia| |exact Hgt|].
      * intros k ck Hk Hck. destruct (decide (k = l)) as [->|Hkl].
        -- assert (ck = c) as -> by congruence. exact Hcle.
        -- apply (Hle k ck); [lia|exact Hck].
      * exists t', m. split; [exact Heq|]. split; [lia|]. split; [exact Hre'|now split].
    + assert (Hs : s32 (Z.of_nat r - 1) = Z.of_nat (r - 1))
        by (rewrite s32_small; lia).
      rewrite Hs.
      assert (Hr : (r - 1 < length t)%nat) by lia.
      destruct (lookup_lt_is_Some_2 t (r - 1) Hr) as [cr Hcr].
      destruct (swap_lookup t l (r - 1) c cr Hc Hcr) as (Hsw & Hlen & Hlk).
      rewrite Hsw. cbn [mbind outcome_bind].
      set (t1 := <[(r - 1)%nat := c]> (<[l := cr]> t)) in *.
      destruct (IH t1 l (r - 1)%nat) as (t' & m & Heq & Hm & Hre' & Hle' & Hgt');
        [lia|lia|lia| | |].
      * intros k ck Hk Hck. rewrite Hlk, transpose_other in Hck by lia.
        apply (Hle k ck); [lia|exact Hck].
      * intros k ck Hk Hck. rewrite Hlk in Hck.
        destruct (decide (k = (r - 1)%nat)) as [->|Hkr].
        -- rewrite transpose_r in Hck. assert (ck = c) as -> by congruence. exact Hcgt.
        -- rewrite transpose_other in Hck by lia. apply (Hgt k ck); [lia|exact Hck].
      * exists t', m. split; [exact Heq|]. split; [lia|]. split; [|now split].
        eapply rearranged_trans; [|exact Hre'].
        apply swap_rearranged; [exact Hc|exact Hcr|lia|lia].
  - assert (l = r) as -> by lia.
    exists t, r. split; [reflexivity|]. split; [lia|].
    split; [apply rearranged_refl|now split].
Qed.

Lemma quickSortTable_spec fuel :
  forall (t : list chain) (b e : nat),
    (e - b < fuel)%nat -> (b <= e <= length t)%nat ->
    Z.of_nat (length t) <= INT_MAX ->
    Forall (fun c => is_u32 (endpoint c)) t ->
    exists t',
      quickSortTable fuel t (Z.of_nat b) (Z.of_nat e) = Done t'
      /\ rearranged t t' b e /\ sorted_range t' b e.
Proof.
  induction fuel as [|fuel IH]; intros t b e Hf Hbe Hmax Hu32; [lia|].
  cbn [quickSortTable]. pose proof Hmax as Hmax'. unfold INT_MAX in Hmax'.
  rewrite (u32_small (Z.of_nat b + 1)) by (unfold UINT_MODULUS; lia).
  destruct (Z.ltb_spec (Z.of_nat b + 1) (Z.of_nat e)) as [Hlt|Hge].
  2:{ exists t. split; [reflexivity|]. split; [apply rearranged_refl|].
      intros i j ci cj Hij Hj Hi Hcj. assert (i = j) as -> by lia.
      assert (ci = cj) as -> by congruence. lia. }
  assert (Hb : (b < length t)%nat) by lia.
  destruct (lookup_lt_is_Some_2 t b Hb) as [c Hc].
  rewrite (table_read_lookup t b c Hc). cbn [mbind outcome_bind].
  pose proof (Forall_lookup_1 _ _ _ _ Hu32 Hc) as Hcu. cbv beta in Hcu.
  assert (Hpv : u32 (s32 (endpoint c)) = endpoint c)
    by (rewrite u32_s32; now apply u32_small).
  rewrite (s32_small (Z.of_nat b + 1)), (s32_small (Z.of_nat e)) by lia.
  replace (Z.of_nat b + 1) with (Z.of_nat (S b)) by lia.
  destruct (partition_loop_spec (s32 (endpoint c)) (endpoint c) b e Hpv
              ltac:(lia) (S fuel) t (S b) e)
    as (t1 & m & Heq & Hm & Hre1 & Hle1 & Hgt1); [lia|lia|lia| | |].
  { intros k ck Hk. lia. }
  { intros k ck Hk. lia. }
  rewrite Heq. cbn [mbind outcome_bind].
  assert (Hs : s32 (Z.of_nat m - 1) = Z.of_nat (m - 1)) by (rewrite s32_small; lia).
  rewrite Hs.
  destruct Hre1 as (P1 & L1 & O1 & I1).
  assert (Hc1 : t1 !! b = Some c) by (rewrite O1; [exact Hc|lia]).
  assert (Hm1 : (m - 1 < length t1)%nat) by lia.
  destruct (lookup_lt_is_Some_2 t1 (m - 1) Hm1) as [cm Hcm].
  destruct (swap_lookup t1 (m - 1) b cm c Hcm Hc1) as (Hsw & L2 & Hlk).
  rewrite Hsw. cbn [mbind outcome_bind].
  set (t2 := <[b := cm]> (<[(m - 1)%nat := c]> t1)) in *.
  assert (Hre2 : rearranged t1 t2 b e)
    by (apply swap_rearranged; [exact Hcm|exact Hc1|lia|lia]).
  assert (Hpiv2 : t2 !! (m - 1)%nat = Some c) by (now rewrite Hlk, transpose_l).
  assert (Hle2 : range_all (fun x => endpoint x <= endpoint c) t2 b (m - 1)).
  { intros k ck Hk Hck. rewrite Hlk in Hck.
    destruct (decide (k = b)) as [->|Hkb].
    - rewrite transpose_r in Hck. apply (Hle1 (m - 1)%nat ck); [lia|exact Hck].
    - rewrite transpose_other in Hck by lia. apply (Hle1 k ck); [lia|exact Hck]. }
  assert (Hgt2 : range_all (fun x => endpoint c < endpoint x) t2 m e).
  { intros k ck Hk Hck. rewrite Hlk, transpose_other in Hck by lia.
    apply (Hgt1 k ck); [lia|exact Hck]. }
  rewrite (u32_small (Z.of_nat (m - 1))) by (unfold UINT_MODULUS; lia).
  assert (Hu2 : Forall (fun x => is_u32 (endpoint x)) t2).
  { destruct Hre2 as (P2 & _). rewrite P2, P1. exact Hu32. }
  destruct (IH t2 b (m - 1)%nat) as (t3 & Heq3 & Hre3 & Hso3);
    [lia|lia|lia|exact Hu2|].
  rewrite Heq3. cbn [mbind outcome_bind].
  rewrite (u32_small (Z.of_nat m)) by (unfold UINT_MODULUS; lia).
  assert (Hle3 : range_all (fun x => endpoint x <= endpoint c) t3 b (m - 1))
    by (eapply rearranged_range_all; eassumption).
  assert (Hgt3 : range_all (fun x => endpoint c < endpoint x) t3 m e)
    by (eapply rearranged_range_all_outside; [exact Hre3|lia|exact Hgt2]).
  destruct Hre3 as (P3 & L3 & O3 & I3).
  assert (Hpiv3 : t3 !! (m - 1)%nat = Some c) by (rewrite O3; [exact Hpiv2|lia]).
  assert (Hu3 : Forall (fun x => is_u32 (endpoint x)) t3) by (now rewrite P3).
  destruct (IH t3 m e) as (t4 & Heq4 & Hre4 & Hso4); [lia|lia|lia|exact Hu3|].
  rewrite Heq4. exists t4. split; [reflexivity|].
  assert (Hgt4 : range_all (fun x => endpoint c < endpoint x) t4 m e)
    by (eapply rearranged_range_all; eassumption).
  split.
  - eapply rearranged_trans;
      [apply (rearranged_weaken t t1 (S b) e b e); [now repeat split|lia|lia]|].
    eapply rearranged_trans; [exact Hre2|].
    eapply rearranged_trans;
      [apply (rearranged_weaken t2 t3 b (m - 1) b e); [now repeat split|lia|lia]|].
    apply (rearranged_weaken t3 t4 m e b e); [exact Hre4|lia|lia].
  - destruct Hre4 as (P4 & L4 & O4 & I4).
    intros i j ci cj Hij Hj Hi Hcj.
    destruct (decide (m <= i)%nat) as [Hmi|Hmi].
    { apply (Hso4 i j ci cj); [lia|lia|exact Hi|exact Hcj]. }
    rewrite O4 in Hi by lia.
    destruct (decide (m <= j)%nat) as [Hmj|Hmj].
    { pose proof (Hgt4 j cj ltac:(lia) Hcj) as Hbig. cbv beta in Hbig.
      destruct (decide (i = (m - 1)%nat)) as [->|Him].
      - assert (ci = c) as -> by congruence. lia.
      - pose proof (Hle3 i ci ltac:(lia) Hi) as Hsmall. cbv beta in Hsmall. lia. }
    rewrite O4 in Hcj by lia.
    destruct (decide (j = (m - 1)%nat)) as [->|Hjm].
    { assert (cj = c) as -> by congruence.
      destruct (decide (i = (m - 1)%nat)) as [->|Him].
      - assert (ci = c) as -> by congruence. lia.
      - apply (Hle3 i ci); [lia|exact Hi]. }
    apply (Hso3 i j ci cj); [lia|lia|exact Hi|exact Hcj].
Qed.

Lemma sorted_range_adjacent (t : list chain) :
  sorted_range t 0 (length t) -> sorted_by_endpoint t.
Proof.
  intros Hs i a b Ha Hb. pose proof (lookup_lt_Some _ _ _ Hb).
  apply (Hs i (S i) a b); [lia|lia|exact Ha|exact Hb].
Qed.

(** C5 (as amended): for every array of [chainNum] chains with
    [chainNum <= INT_MAX], [quickSortTable(table, 0, chainNum)] returns,
    whatever budget above [chainNum] it is given, and leaves a
    permutation of the input in which [table[i].end <= table[i+1].end]
    for every [i < chainNum - 1]. *)
Theorem quickSortTable_sorted_permutation
  (table : list chain) (chainNum : Z) (fuel : nat) :
  Z.of_nat (length table) = chainNum ->
  chainNum <= INT_MAX ->
  Forall (fun c => is_u32 (endpoint c)) table ->
  (length table < fuel)%nat ->
  exists sorted,
    quickSortTable fuel table 0 chainNum = Done sorted
    /\ sorted ≡ₚ table
    /\ sorted_by_endpoint sorted.
Proof.
  intros Hlen Hmax Hu32 Hfuel. subst chainNum.
  destruct (quickSortTable_spec fuel table 0 (length table))
    as (sorted & Heq & (Hperm & Hl & _) & Hsorted); [lia|lia|exact Hmax|exact Hu32|].
  exists sorted. split; [exact Heq|]. split; [exact Hperm|].
  apply sorted_range_adjacent. now rewrite Hl.
Qed.

Lemma quickSortTable_sorted_permutation_witness :
  exists sorted,
    quickSortTable 5 [mkChain 10 2; mkChain 11 1; mkChain 12 3; mkChain 13 1] 0 4
    = Done sorted
    /\ sorted ≡ₚ [mkChain 10 2; mkChain 11 1; mkChain 12 3; mkChain 13 1]
    /\ sorted_by_endpoint sorted.
Proof.
  apply (quickSortTable_sorted_permutation
           [mkChain 10 2; mkChain 11 1; mkChain 12 3; mkChain 13 1] 4 5).
  - reflexivity.
  - unfold INT_MAX. lia.
  - repeat constructor; unfold is_u32, UINT_MODULUS; simpl; lia.
  - simpl. lia.
Defined.

Example quickSortTable_scenario :
  quickSortTable 5 [mkChain 10 2; mkChain 11 1; mkChain 12 3; mkChain 13 1] 0 4
  = Done [mkChain 11 1; mkChain 13 1; mkChain 10 2; mkChain 12 3].
Proof. reflexivity. Qed.

(** C5 (as stated) fails on an array of 2^31 chains: [r = end] does not
    fit the [int] it is stored in and becomes negative, the partition
    loop is skipped, both recursive calls get an empty range, and the
    array is returned as it was, here with [table[0].end = 1] before
    [table[1].end = 0]. *)
Lemma quickSortTable_counterexample :
  Z.of_nat (length unsorted_2_31) = 2 ^ 31
  /\ Forall (fun c => is_u32 (endpoint c)) unsorted_2_31
  /\ quickSortTable 3 unsorted_2_31 0 (2 ^ 31) = Done unsorted_2_31
  /\ ~ sorted_by_endpoint unsorted_2_31.
Proof.
  unfold unsorted_2_31.
  assert (Hn : exists n, Z.to_nat INT_MAX = S n /\ Z.of_nat (S n) = INT_MAX).
  { exists (Z.to_nat (INT_MAX - 1)). unfold INT_MAX. split; lia. }
  destruct Hn as (n & Hn & Hn'). rewrite Hn.
  split; [|split; [|split]].
  - cbn [length]. rewrite repeat_length. unfold INT_MAX in Hn'. lia.
  - apply Forall_cons. split; [unfold is_u32, UINT_MODULUS; simpl; lia|].
    apply Forall_forall. intros c Hc. apply list_elem_of_In, repeat_spec in Hc.
    subst c. unfold is_u32, UINT_MODULUS. simpl. lia.
  - reflexivity.
  - intros Hsorted.
    specialize (Hsorted 0%nat (mkChain 0 1) (mkChain 0 0) eq_refl eq_refl).
    simpl in Hsorted. lia.
Qed.

(** * Further properties of the engine *)

Import Generation Registry.

(** ** Lookup: what a reported seed is worth *)

Lemma regen_loop_sound n (H : hashFunc) hl target i tmp seed ret sd :
  regen_loop n H hl target i tmp seed = (ret, sd) ->
  (ret = 1 /\ memcmp_eq (H sd) target hl = true) \/ (ret = 0 /\ sd = seed).
Proof.
  revert i tmp. induction n as [|n IH]; intros i tmp Hrun; cbn [regen_loop] in Hrun.
  - right. now injection Hrun as <- <-.
  - destruct (memcmp_eq (H tmp) target hl) eqn:Hcmp; [|now apply IH in Hrun].
    left. injection Hrun as <- <-. now split.
Qed.

Lemma candidates_loop_sound fuel t cl (H : hashFunc) hl target r :
  forall index seed returned index' sd,
    candidates_loop fuel t cl H hl target r index seed = Done (returned, index', sd) ->
    (returned = true /\ memcmp_eq (H sd) target hl = true)
    \/ (returned = false /\ sd = seed).
Proof.
  induction fuel as [|fuel IH]; intros index seed returned index' sd Hrun; [discriminate|].
  cbn [candidates_loop] in Hrun.
  destruct (table_read t index) as [c| |]; [|discriminate|discriminate].
  cbn [mbind outcome_bind] in Hrun.
  destruct (regenerateChain (startpoint c) cl H hl target seed) as [ret sd0] eqn:Hregen.
  apply regen_loop_sound in Hregen.
  destruct (ret =? 0) eqn:Hret; cbn [negb] in Hrun.
  - destruct Hregen as [[-> _]|[_ ->]]; [discriminate|].
    destruct (table_read t (u32 (index + 1))) as [c'| |]; [|discriminate|discriminate].
    cbn [mbind outcome_bind] in Hrun.
    destruct (endpoint c' =? r); [now apply IH in Hrun|].
    right. now injection Hrun as <- _ <-.
  - destruct Hregen as [[_ Hcmp]|[-> _]]; [|discriminate].
    left. now injection Hrun as <- _ <-.
Qed.

Lemma position_loop_sound n fuel t cn cl (H : hashFunc) hl target :
  forall j index seed ret sd,
    position_loop n fuel t cn cl H hl target j index seed = Done (ret, sd) ->
    (ret = 1 /\ memcmp_eq (H sd) target hl = true) \/ (ret = 0 /\ sd = seed).
Proof.
  induction n as [|n IH]; intros j index seed ret sd Hrun; cbn [position_loop] in Hrun.
  - right. now injection Hrun as <- <-.
  - destruct (walk_loop _ H hl j target) as [i tmpHash].
    destruct (searchTable fuel t (s32 cn) _ index) as [[hit index1]| |];
      [|discriminate|discriminate].
    cbn [mbind outcome_bind] in Hrun.
    destruct (negb (hit =? 0)); [|now apply IH in Hrun].
    destruct (candidates_loop fuel t cl H hl target _ index1 seed)
      as [[[returned index2] sd2]| |] eqn:Hcand; [|discriminate|discriminate].
    cbn [mbind outcome_bind] in Hrun.
    apply candidates_loop_sound in Hcand.
    destruct returned.
    + destruct Hcand as [[_ Hcmp]|[Hf _]]; [|discriminate].
      left. now injection Hrun as <- <-.
    + destruct Hcand as [[Hf _]|[_ ->]]; [discriminate|]. now apply IH in Hrun.
Qed.

(** A seed the lookup reports hashes to the target digest, whatever the
    table holds; when it reports "not found" the caller's seed is left
    as it was. *)
Theorem searchHashInMemory_sound
  (fuel : nat) (table : list chain) (chainNum chainLen : Z) (H : hashFunc)
  (hashLen : Z) (targetHash : list Z) (index0 seed0 ret sd : Z) :
  searchHashInMemory fuel table chainNum chainLen H hashLen targetHash index0 seed0
  = Done (ret, sd) ->
  (ret = 1 /\ memcmp_eq (H sd) targetHash hashLen = true) \/ (ret = 0 /\ sd = seed0).
Proof. unfold searchHashInMemory. apply position_loop_sound. Qed.

Lemma searchHashInMemory_sound_witness :
  let H : hashFunc := fun x => [(x + 1) mod 256; 0; 0; 0] in
  memcmp_eq (H 5) [6; 0; 0; 0] 4 = true.
Proof.
  intros H.
  destruct (searchHashInMemory_sound 5 [mkChain 5 6; mkChain 9 200] 2 1 H 4
              [6; 0; 0; 0] 0 0 1 5 eq_refl) as [[_ Hcmp]|[Hz _]].
  - exact Hcmp.
  - discriminate Hz.
Defined.

(** ** Binary search: hits, bounds and the empty table *)

(** A hit of [searchTable] is never spurious: some record at or after
    the returned index holds the endpoint, every record between the
    two holds it as well, and the returned index is inside the table. *)
Theorem searchTable_hit_sound
  (fuel : nat) (table : list chain) (chainNum r index0 index : Z) :
  searchTable fuel table chainNum r index0 = Done (1, index) ->
  exists mid,
    0 <= index <= mid
    /\ (Z.to_nat mid < length table)%nat
    /\ (exists c, table !! Z.to_nat mid = Some c /\ endpoint c = r)
    /\ (forall k, index < k <= mid ->
          exists c, table !! Z.to_nat k = Some c /\ endpoint c = r).
Proof.
  unfold searchTable. intros Hrun.
  destruct (searchTable_hit_index table r fuel _ _ _ _ Hrun)
    as (mid & Hidx & (c & Hc & Hr) & Hrun' & _).
  exists mid. split; [exact Hidx|]. split; [|split; [now exists c|exact Hrun']].
  now apply lookup_lt_Some in Hc.
Qed.

Lemma searchTable_hit_sound_witness :
  exists mid,
    0 <= 0 <= mid
    /\ Nat.lt (Z.to_nat mid) (length [mkChain 7 1; mkChain 8 2; mkChain 9 3])
    /\ (exists c, [mkChain 7 1; mkChain 8 2; mkChain 9 3] !! Z.to_nat mid = Some c
                  /\ endpoint c = 2)
    /\ (forall k, 0 < k <= mid ->
          exists c, [mkChain 7 1; mkChain 8 2; mkChain 9 3] !! Z.to_nat k = Some c
                    /\ endpoint c = 2).
Proof.
  apply (searchTable_hit_sound 5 [mkChain 7 1; mkChain 8 2; mkChain 9 3] 3 2 0 0).
  reflexivity.
Defined.

Lemma table_read_inside (t : list chain) (i : Z) (c : chain) :
  0 <= i -> t !! Z.to_nat i = Some c -> table_read t i = Done c.
Proof.
  intros Hi Hc. unfold table_read.
  destruct (Z.ltb_spec i 0); [lia|]. now rewrite Hc.
Qed.

Lemma back_loop_total (t : list chain) (r : Z) :
  forall (fuel : nat) (mid : Z),
    -1 <= mid < Z.of_nat (length t) -> mid + 1 < Z.of_nat fuel ->
    exists res, back_loop fuel t r mid = Done res.
Proof.
  induction fuel as [|fuel IH]; intros mid Hmid Hfuel; [lia|].
  cbn [back_loop]. destruct (Z.leb_spec 0 mid) as [Hpos|Hneg]; [|now eexists].
  assert (Hlt : (Z.to_nat mid < length t)%nat) by lia.
  destruct (lookup_lt_is_Some_2 t _ Hlt) as [c Hc].
  rewrite (table_read_inside t mid c Hpos Hc). cbn [mbind outcome_bind].
  destruct (r =? endpoint c); [|now eexists].
  apply IH; lia.
Qed.

Lemma search_loop_total (t : list chain) (r : Z) :
  forall (fuel : nat) (beg end_ index : Z),
    0 <= beg <= end_ -> end_ < Z.of_nat (length t) ->
    Z.of_nat (length t) <= INT_MAX ->
    end_ - beg + Z.of_nat (length t) < Z.of_nat fuel ->
    exists ret index', search_loop fuel t r beg end_ index = Done (ret, index').
Proof.
  induction fuel as [|fuel IH]; intros beg end_ index Hbe Hend Hmax Hfuel; [lia|].
  pose proof Hmax as Hmax'. unfold INT_MAX in Hmax'. cbn [search_loop].
  destruct (Z.ltb_spec beg end_) as [Hlt|Hge]; [|now eexists _, _].
  rewrite (u32_small (beg + end_)) by (unfold UINT_MODULUS; lia).
  assert (Hmid : beg <= (beg + end_) / 2 < end_).
  { split; [apply Z.div_le_lower_bound; lia|apply Z.div_lt_upper_bound; lia]. }
  set (mid := (beg + end_) / 2) in *.
  assert (Hlt' : (Z.to_nat mid < length t)%nat) by lia.
  destruct (lookup_lt_is_Some_2 t _ Hlt') as [c Hc].
  rewrite (table_read_inside t mid c ltac:(lia) Hc). cbn [mbind outcome_bind].
  destruct (r <? endpoint c); [apply IH; [lia|lia|exact Hmax|lia]|].
  destruct (endpoint c <? r).
  - rewrite (u32_small (mid + 1)) by (unfold UINT_MODULUS; lia).
    apply IH; [lia|lia|exact Hmax|lia].
  - destruct (back_loop_total t r (S fuel) mid) as [res ->]; [lia|lia|].
    cbn [mbind outcome_bind mret outcome_ret]. now eexists _, _.
Qed.

(** On a table of [chainNum >= 1] records, [searchTable] reads inside
    the table only and returns, for every searched endpoint and every
    budget above twice the size. *)
Theorem searchTable_returns
  (fuel : nat) (table : list chain) (chainNum r index0 : Z) :
  Z.of_nat (length table) = chainNum ->
  1 <= chainNum <= INT_MAX ->
  2 * chainNum <= Z.of_nat fuel ->
  exists ret index, searchTable fuel table chainNum r index0 = Done (ret, index).
Proof.
  intros Hlen Hcn Hfuel. unfold searchTable. unfold INT_MAX in Hcn.
  rewrite (u32_small (chainNum - 1)) by (unfold UINT_MODULUS; lia).
  apply search_loop_total; unfold INT_MAX; lia.
Qed.

Lemma searchTable_returns_witness :
  exists ret index,
    searchTable 8 [mkChain 7 1; mkChain 8 2; mkChain 9 3] 3 2 0 = Done (ret, index).
Proof.
  apply (searchTable_returns 8 [mkChain 7 1; mkChain 8 2; mkChain 9 3] 3 2 0).
  - reflexivity.
  - unfold INT_MAX. lia.
  - simpl. lia.
Defined.

(** With [chainNum = 0] the upper bound [chainNum - 1] wraps to
    0xffffffff and the first probe reads [table[0x7fffffff]], outside of
    any table that [int] indices can address. *)
Theorem searchTable_empty_reads_outside
  (fuel : nat) (table : list chain) (r index0 : Z) :
  Z.of_nat (length table) <= INT_MAX ->
  searchTable (S fuel) table 0 r index0 = OutOfBounds 0x7fffffff.
Proof.
  intros Hlen. unfold INT_MAX in Hlen. unfold searchTable.
  replace (u32 (0 - 1)) with 4294967295 by reflexivity.
  cbn [search_loop].
  replace (0 <? 4294967295) with true by reflexivity.
  replace (u32 (0 + 4294967295) / 2) with 2147483647 by reflexivity.
  unfold table_read.
  replace (2147483647 <? 0) with false by reflexivity.
  rewrite (lookup_ge_None_2 table (Z.to_nat 2147483647)) by lia.
  reflexivity.
Qed.

Lemma searchTable_empty_reads_outside_witness :
  searchTable 1 [] 0 5 0 = OutOfBounds 0x7fffffff.
Proof.
  apply (searchTable_empty_reads_outside 0 [] 5 0). unfold INT_MAX. simpl. lia.
Defined.

(** ** Chains: generation and lookup walk the same seeds *)

Lemma chain_loop_seed (H : hashFunc) (hl start : Z) (n j : nat) :
  Z.of_nat (j + n) < UINT_MODULUS ->
  chain_loop n H hl (Z.of_nat j) (chain_seed H hl start j)
  = chain_seed H hl start (j + n).
Proof.
  revert j. induction n as [|n IH]; intros j Hb; cbn [chain_loop].
  - now rewrite Nat.add_0_r.
  - rewrite (u32_small (Z.of_nat j + 1)) by lia.
    replace (Z.of_nat j + 1) with (Z.of_nat (S j)) by lia.
    change (reduce (H (chain_seed H hl start j)) hl (Z.of_nat j))
      with (chain_seed H hl start (S j)).
    rewrite IH by lia. now replace (S j + n)%nat with (j + S n)%nat by lia.
Qed.

Lemma walk_loop_seed (H : hashFunc) (hl start : Z) (n k : nat) :
  Z.of_nat (k + n) <= INT_MAX ->
  walk_loop n H hl (Z.of_nat k) (H (chain_seed H hl start k))
  = (Z.of_nat (k + n), H (chain_seed H hl start (k + n))).
Proof.
  unfold INT_MAX. revert k. induction n as [|n IH]; intros k Hb; cbn [walk_loop].
  - now rewrite Nat.add_0_r.
  - rewrite (u32_small (Z.of_nat k)) by (unfold UINT_MODULUS; lia).
    rewrite (s32_small (Z.of_nat k + 1)) by lia.
    replace (Z.of_nat k + 1) with (Z.of_nat (S k)) by lia.
    change (reduce (H (chain_seed H hl start k)) hl (Z.of_nat k))
      with (chain_seed H hl start (S k)).
    rewrite IH by lia. now replace (S k + n)%nat with (k + S n)%nat by lia.
Qed.

(** When the target is the digest of the seed at step [k] of a chain,
    the inner walk of the lookup at position [k] followed by the last
    reduction gives the endpoint [generateChain] stored for that chain. *)
Lemma probe_at_chain_step (H : hashFunc) (hashLen chainLen start : Z) (k : nat) :
  1 <= chainLen <= INT_MAX ->
  Z.of_nat k < chainLen ->
  reduce (snd (walk_loop (Z.to_nat (u32 (chainLen - 1) - Z.of_nat k)) H hashLen
                 (Z.of_nat k) (H (chain_seed H hashLen start k))))
    hashLen
    (u32 (fst (walk_loop (Z.to_nat (u32 (chainLen - 1) - Z.of_nat k)) H hashLen
                 (Z.of_nat k) (H (chain_seed H hashLen start k)))))
  = endpoint (generateChain start H chainLen hashLen).
Proof.
  intros HL Hk. pose proof HL as HL'. unfold INT_MAX in HL'.
  rewrite (u32_small (chainLen - 1)) by (unfold UINT_MODULUS; lia).
  rewrite (walk_loop_seed H hashLen start) by lia. cbn [fst snd].
  replace (k + Z.to_nat (chainLen - 1 - Z.of_nat k))%nat with (Z.to_nat (chainLen - 1)) by lia.
  rewrite (u32_small (Z.of_nat _)) by (unfold UINT_MODULUS; lia).
  unfold generateChain. cbn [endpoint].
  pose proof (chain_loop_seed H hashLen start (Z.to_nat chainLen) 0) as Hgen.
  cbn [chain_seed Nat.add] in Hgen. change (Z.of_nat 0) with 0 in Hgen.
  rewrite Hgen by (unfold UINT_MODULUS; lia).
  replace (Z.to_nat chainLen) with (S (Z.to_nat (chainLen - 1))) by lia.
  reflexivity.
Qed.

Lemma memcmp_eq_refl (a : list Z) (n : Z) : memcmp_eq a a n = true.
Proof. unfold memcmp_eq. apply forallb_forall. intros i _. apply Z.eqb_refl. Qed.

(** Regenerating a chain from its own start point finds a digest taken
    from that chain. *)
Lemma regenerateChain_own_chain
  (H : hashFunc) (hashLen chainLen start seed0 : Z) (k : nat) :
  1 <= chainLen <= INT_MAX -> Z.of_nat k < chainLen ->
  exists sd,
    regenerateChain start chainLen H hashLen (H (chain_seed H hashLen start k)) seed0
    = (1, sd).
Proof.
  intros HL Hk. unfold regenerateChain. unfold INT_MAX in HL.
  assert (Hb : Z.of_nat (0 + Z.to_nat chainLen) < UINT_MODULUS)
    by (unfold UINT_MODULUS; lia).
  pose proof (regen_loop_cases H hashLen start seed0 (H (chain_seed H hashLen start k))
                (Z.to_nat chainLen) 0 Hb) as Hc.
  cbv zeta in Hc. cbn [chain_seed] in Hc. change (Z.of_nat 0) with 0 in Hc.
  destruct Hc as [(k' & _ & _ & _ & Hres)|(Hnone & _)].
  - now exists (chain_seed H hashLen start k').
  - specialize (Hnone k ltac:(lia)). now rewrite memcmp_eq_refl in Hnone.
Qed.

(** In a table sorted by endpoint, endpoints grow with the index. *)
Lemma sorted_by_endpoint_le (t : list chain) :
  sorted_by_endpoint t ->
  forall (d i : nat) (ci cj : chain),
    t !! i = Some ci -> t !! (i + d)%nat = Some cj -> endpoint ci <= endpoint cj.
Proof.
  intros Hs. induction d as [|d IH]; intros i ci cj Hi Hj.
  - rewrite Nat.add_0_r in Hj. assert (ci = cj) by congruence. subst. lia.
  - destruct (lookup_lt_is_Some_2 t (i + d)) as [cm Hm].
    { apply lookup_lt_Some in Hj. lia. }
    specialize (IH i ci cm Hi Hm).
    replace (i + S d)%nat with (S (i + d)) in Hj by lia.
    specialize (Hs (i + d)%nat cm cj Hm Hj). lia.
Qed.

Lemma sorted_by_endpoint_between (t : list chain) (i j : Z) (ci cj : chain) :
  sorted_by_endpoint t -> 0 <= i <= j ->
  t !! Z.to_nat i = Some ci -> t !! Z.to_nat j = Some cj -> endpoint ci <= endpoint cj.
Proof.
  intros Hs Hij Hi Hj.
  apply (sorted_by_endpoint_le t Hs (Z.to_nat (j - i)) (Z.to_nat i)); [exact Hi|].
  now replace (Z.to_nat i + Z.to_nat (j - i))%nat with (Z.to_nat j) by lia.
Qed.

Lemma table_read_Done (t : list chain) (i : Z) (c : chain) :
  table_read t i = Done c -> 0 <= i /\ t !! Z.to_nat i = Some c.
Proof.
  unfold table_read. destruct (Z.ltb_spec i 0); [discriminate|].
  destruct (t !! Z.to_nat i) as [c'|]; [|discriminate].
  intros [= ->]. now split.
Qed.

(** The binary search on a sorted table finds an endpoint held by a
    record inside the searched range, and the index it answers is at or
    before that record, with only records holding the endpoint in
    between. *)
Lemma search_loop_finds (t : list chain) (r : Z) :
  sorted_by_endpoint t ->
  forall (fuel : nat) (beg end_ index0 ret index p : Z) (cp : chain),
    search_loop fuel t r beg end_ index0 = Done (ret, index) ->
    0 <= beg <= p -> p < end_ -> end_ < 2 ^ 31 ->
    t !! Z.to_nat p = Some cp -> endpoint cp = r ->
    ret = 1 /\ 0 <= index <= p
    /\ (forall m, index < m <= p -> exists c, t !! Z.to_nat m = Some c /\ endpoint c = r).
Proof.
  intros Hs.
  induction fuel as [|fuel IH]; intros beg end_ index0 ret index p cp Hrun Hbeg Hend Hmax Hp Hr;
    [discriminate|].
  cbn [search_loop] in Hrun.
  destruct (Z.ltb_spec beg end_) as [_|Hge]; [|lia].
  rewrite (u32_small (beg + end_)) in Hrun by (unfold UINT_MODULUS; lia).
  set (mid := (beg + end_) / 2) in *.
  assert (Hmid : beg <= mid < end_).
  { unfold mid. split; [apply Z.div_le_lower_bound; lia|apply Z.div_lt_upper_bound; lia]. }
  destruct (table_read t mid) as [c| |] eqn:Hread; [|discriminate|discriminate].
  cbn [mbind outcome_bind] in Hrun.
  apply table_read_Done in Hread. destruct Hread as [_ Hc].
  destruct (Z.ltb_spec r (endpoint c)) as [Hlt|Hnlt].
  { apply (IH _ _ _ _ _ p cp Hrun); try assumption; try lia.
    destruct (Z_lt_le_dec p mid) as [Hpm|Hpm]; [lia|].
    pose proof (sorted_by_endpoint_between t mid p c cp Hs ltac:(lia) Hc Hp). lia. }
  destruct (Z.ltb_spec (endpoint c) r) as [Hgt|Hngt].
  { rewrite (u32_small (mid + 1)) in Hrun by (unfold UINT_MODULUS; lia).
    apply (IH _ _ _ _ _ p cp Hrun); try assumption; try lia.
    destruct (Z_lt_le_dec mid p) as [Hpm|Hpm]; [lia|].
    pose proof (sorted_by_endpoint_between t p mid cp c Hs ltac:(lia) Hp Hc). lia. }
  assert (Hcr : endpoint c = r) by lia.
  destruct (back_loop (S fuel) t r mid) as [res| |] eqn:Hback;
    [|discriminate|discriminate].
  cbn [mbind outcome_bind mret outcome_ret] in Hrun.
  destruct (back_loop_stop t r (S fuel) mid res ltac:(lia) Hback)
    as (Hres & Hless & Hrun' & Hstop).
  assert (Hidx : index = res + 1).
  { injection Hrun as _ <-. destruct (Z.ltb_spec res 0); [lia|].
    apply u32_small. unfold UINT_MODULUS. lia. }
  assert (Hret : ret = 1) by (now injection Hrun as <- _).
  subst index. split; [exact Hret|].
  assert (Hle : res + 1 <= p).
  { destruct (Z_lt_le_dec p (res + 1)) as [Hbad|]; [|lia]. exfalso.
    destruct (Hstop ltac:(lia)) as (cq & Hq & Hne).
    pose proof (sorted_by_endpoint_between t p (res + 1) cp cq Hs ltac:(lia) Hp Hq).
    pose proof (sorted_by_endpoint_between t (res + 1) mid cq c Hs ltac:(lia) Hq Hc).
    lia. }
  split; [lia|]. intros m Hm.
  destruct (Z_le_gt_dec m mid) as [Hmm|Hmm]; [apply Hrun'; lia|].
  destruct (lookup_lt_is_Some_2 t (Z.to_nat m)) as [cm Hcm].
  { apply lookup_lt_Some in Hp. lia. }
  exists cm. split; [exact Hcm|].
  pose proof (sorted_by_endpoint_between t mid m c cm Hs ltac:(lia) Hc Hcm).
  pose proof (sorted_by_endpoint_between t m p cm cp Hs ltac:(lia) Hcm Hp).
  lia.
Qed.

(** A hit of the binary search answers an index below the upper bound
    of the search. *)
Lemma search_loop_hit_below (t : list chain) (r : Z) :
  forall (fuel : nat) (beg end_ index0 ret index : Z),
    search_loop fuel t r beg end_ index0 = Done (ret, index) ->
    ret <> 0 -> 0 <= beg -> end_ < 2 ^ 31 ->
    0 <= index < end_.
Proof.
  induction fuel as [|fuel IH]; intros beg end_ index0 ret index Hrun Hret Hbeg Hmax;
    [discriminate|].
  cbn [search_loop] in Hrun.
  destruct (Z.ltb_spec beg end_) as [Hlt|Hge].
  2:{ injection Hrun as <- _. congruence. }
  rewrite (u32_small (beg + end_)) in Hrun by (unfold UINT_MODULUS; lia).
  set (mid := (beg + end_) / 2) in *.
  assert (Hmid : beg <= mid < end_).
  { unfold mid. split; [apply Z.div_le_lower_bound; lia|apply Z.div_lt_upper_bound; lia]. }
  destruct (table_read t mid) as [c| |] eqn:Hread; [|discriminate|discriminate].
  cbn [mbind outcome_bind] in Hrun.
  destruct (Z.ltb_spec r (endpoint c)) as [Hlt'|Hnlt].
  { assert (0 <= index < mid) by (apply (IH _ _ _ _ _ Hrun); lia). lia. }
  destruct (Z.ltb_spec (endpoint c) r) as [Hgt|Hngt].
  { rewrite (u32_small (mid + 1)) in Hrun by (unfold UINT_MODULUS; lia).
    apply (IH _ _ _ _ _ Hrun); lia. }
  destruct (back_loop (S fuel) t r mid) as [res| |] eqn:Hback;
    [|discriminate|discriminate].
  cbn [mbind outcome_bind mret outcome_ret] in Hrun.
  destruct (back_loop_stop t r (S fuel) mid res ltac:(lia) Hback)
    as (Hres & Hless & _ & _).
  injection Hrun as _ <-. destruct (Z.ltb_spec res 0); [lia|].
  rewrite u32_small by (unfold UINT_MODULUS; lia). lia.
Qed.

(** From a record at or before position [p], with only records holding
    [r] up to [p], the linear scan reaches the chain at [p] unless an
    earlier candidate already regenerates the target. *)
Lemma candidates_loop_reaches
  (t : list chain) (cl : Z) (H : hashFunc) (hl : Z) (target : list Z) (r : Z)
  (p : Z) (cp : chain) :
  t !! Z.to_nat p = Some cp -> p < 2 ^ 31 ->
  (forall seed, exists sd, regenerateChain (startpoint cp) cl H hl target seed = (1, sd)) ->
  forall (d fuel : nat) (index seed : Z),
    0 <= index -> index + Z.of_nat d = p -> (d < fuel)%nat ->
    (forall m, index < m <= p -> exists c, t !! Z.to_nat m = Some c /\ endpoint c = r) ->
    exists index' sd,
      candidates_loop fuel t cl H hl target r index seed = Done (true, index', sd).
Proof.
  intros Hp Hmax Hown.
  induction d as [|d IH]; intros fuel index seed Hidx Hd Hfuel Hrun;
    (destruct fuel as [|fuel]; [lia|]); cbn [candidates_loop].
  - assert (index = p) by lia. subst index.
    rewrite (table_read_inside t p cp Hidx Hp). cbn [mbind outcome_bind].
    destruct (Hown seed) as [sd ->]. cbn [Z.eqb negb]. now exists (u32 (p + 1)), sd.
  - destruct (lookup_lt_is_Some_2 t (Z.to_nat index)) as [c Hc].
    { apply lookup_lt_Some in Hp. lia. }
    rewrite (table_read_inside t index c Hidx Hc). cbn [mbind outcome_bind].
    destruct (regenerateChain (startpoint c) cl H hl target seed) as [ret sd0].
    destruct (ret =? 0); cbn [negb]; [|now exists (u32 (index + 1)), sd0].
    rewrite (u32_small (index + 1)) by (unfold UINT_MODULUS; lia).
    destruct (Hrun (index + 1) ltac:(lia)) as (c' & Hc' & Hr).
    rewrite (table_read_inside t (index + 1) c' ltac:(lia) Hc'). cbn [mbind outcome_bind].
    rewrite Hr, Z.eqb_refl.
    apply IH; try lia. intros m Hm. apply Hrun. lia.
Qed.

(** When the last record does not hold [r], the linear scan started
    before the last record ends inside the table. *)
Lemma candidates_loop_inside
  (t : list chain) (cl : Z) (H : hashFunc) (hl : Z) (target : list Z) (r : Z)
  (last_ : chain) :
  t !! (length t - 1)%nat = Some last_ -> endpoint last_ <> r ->
  Z.of_nat (length t) < 2 ^ 31 ->
  forall (d fuel : nat) (index seed : Z),
    0 <= index -> index + 1 + Z.of_nat d = Z.of_nat (length t) -> (1 <= d <= fuel)%nat ->
    exists returned index' sd,
      candidates_loop fuel t cl H hl target r index seed = Done (returned, index', sd).
Proof.
  intros Hlast Hne Hmax.
  induction d as [|d IH]; intros fuel index seed Hidx Hd Hfuel; [lia|].
  destruct fuel as [|fuel]; [lia|]. cbn [candidates_loop].
  destruct (lookup_lt_is_Some_2 t (Z.to_nat index)) as [c Hc]; [lia|].
  rewrite (table_read_inside t index c Hidx Hc). cbn [mbind outcome_bind].
  destruct (regenerateChain (startpoint c) cl H hl target seed) as [ret sd0].
  destruct (ret =? 0); cbn [negb]; [|now exists true, (u32 (index + 1)), sd0].
  rewrite (u32_small (index + 1)) by (unfold UINT_MODULUS; lia).
  destruct (lookup_lt_is_Some_2 t (Z.to_nat (index + 1))) as [c' Hc']; [lia|].
  rewrite (table_read_inside t (index + 1) c' ltac:(lia) Hc'). cbn [mbind outcome_bind].
  destruct (Z.eqb_spec (endpoint c') r) as [Hr|Hr]; [|now exists false, (index + 1), sd0].
  apply IH; try lia.
  assert (d <> 0%nat); [|lia]. intros ->.
  replace (Z.to_nat (index + 1)) with (length t - 1)%nat in Hc' by lia.
  congruence.
Qed.

(** The positions from [k + d] down to [k]. *)
Lemma position_loop_recovers
  (fuel : nat) (t : list chain) (cn cl : Z) (H : hashFunc) (hl start : Z)
  (k : nat) (p : Z) (last_ : chain) :
  1 <= cl <= INT_MAX ->
  Z.of_nat (length t) = cn -> cn <= INT_MAX -> 2 * cn <= Z.of_nat fuel ->
  sorted_by_endpoint t ->
  0 <= p -> p + 1 < cn ->
  t !! Z.to_nat p = Some (generateChain start H cl hl) ->
  t !! (length t - 1)%nat = Some last_ ->
  forall (d n : nat) (index seed : Z),
    Z.of_nat (k + d) < cl -> (d < n)%nat ->
    (forall j : nat, (k < j <= k + d)%nat ->
       reduce (snd (walk_loop (Z.to_nat (u32 (cl - 1) - Z.of_nat j)) H hl (Z.of_nat j)
                      (H (chain_seed H hl start k))))
         hl
         (u32 (fst (walk_loop (Z.to_nat (u32 (cl - 1) - Z.of_nat j)) H hl (Z.of_nat j)
                      (H (chain_seed H hl start k)))))
       <> endpoint last_) ->
    exists sd,
      position_loop n fuel t cn cl H hl (H (chain_seed H hl start k))
        (Z.of_nat (k + d)) index seed
      = Done (1, sd).
Proof.
  intros HL Hlen Hcn Hfuel Hs Hp0 Hp Hchain Hlast. pose proof HL as HL'.
  unfold INT_MAX in HL', Hcn.
  assert (Hsearch : forall r index,
            exists ret index', searchTable fuel t (s32 cn) r index = Done (ret, index')
              /\ search_loop fuel t r 0 (cn - 1) index = Done (ret, index')).
  { intros r index. unfold searchTable.
    rewrite (s32_small cn) by lia.
    rewrite (u32_small (cn - 1)) by (unfold UINT_MODULUS; lia).
    destruct (search_loop_total t r fuel 0 (cn - 1) index) as (ret & index' & Hrun);
      try (unfold INT_MAX; lia).
    now exists ret, index'. }
  induction d as [|d IH]; intros n index seed Hkd Hn Hprobe;
    (destruct n as [|n]; [lia|]); cbn [position_loop].
  - rewrite Nat.add_0_r in *.
    pose proof (probe_at_chain_step H hl cl start k HL Hkd) as Hprobe_k.
    destruct (walk_loop (Z.to_nat (u32 (cl - 1) - Z.of_nat k)) H hl (Z.of_nat k)
                (H (chain_seed H hl start k))) as [i tmpHash].
    cbn [fst snd] in Hprobe_k. rewrite Hprobe_k.
    destruct (Hsearch (endpoint (generateChain start H cl hl)) index)
      as (ret & index' & -> & Hrun).
    cbn [mbind outcome_bind].
    destruct (search_loop_finds t _ Hs fuel 0 (cn - 1) index ret index' p _ Hrun
                ltac:(lia) ltac:(lia) ltac:(lia) Hchain eq_refl)
      as (-> & Hidx & Hbetween).
    cbn [Z.eqb negb].
    destruct (candidates_loop_reaches t cl H hl (H (chain_seed H hl start k))
                (endpoint (generateChain start H cl hl)) p _ Hchain ltac:(lia)
                ltac:(intros seed'; cbn [generateChain startpoint];
                      now apply regenerateChain_own_chain)
                (Z.to_nat (p - index')) fuel index' seed
                ltac:(lia) ltac:(lia) ltac:(lia) Hbetween)
      as (index'' & sd & ->).
    cbn [mbind outcome_bind]. now exists sd.
  - specialize (Hprobe (k + S d)%nat ltac:(lia)) as Hne.
    destruct (walk_loop (Z.to_nat (u32 (cl - 1) - Z.of_nat (k + S d))) H hl
                (Z.of_nat (k + S d)) (H (chain_seed H hl start k))) as [i tmpHash].
    cbn [fst snd] in Hne.
    destruct (Hsearch (reduce tmpHash hl (u32 i)) index) as (ret & index' & -> & Hrun).
    cbn [mbind outcome_bind].
    assert (Hnext : forall index1 seed1,
              exists sd,
                position_loop n fuel t cn cl H hl (H (chain_seed H hl start k))
                  (Z.of_nat (k + S d) - 1) index1 seed1 = Done (1, sd)).
    { intros index1 seed1.
      replace (Z.of_nat (k + S d) - 1) with (Z.of_nat (k + d)) by lia.
      apply IH; try lia. intros j Hj. apply Hprobe. lia. }
    destruct (Z.eqb_spec ret 0) as [Hz|Hnz]; cbn [negb]; [apply Hnext|].
    pose proof (search_loop_hit_below t _ fuel 0 (cn - 1) index ret index' Hrun Hnz
                  ltac:(lia) ltac:(lia)) as Hidx.
    destruct (candidates_loop_inside t cl H hl (H (chain_seed H hl start k))
                (reduce tmpHash hl (u32 i)) last_ Hlast ltac:(congruence) ltac:(lia)
                (Z.to_nat (cn - 1 - index')) fuel index' seed
                ltac:(lia) ltac:(lia) ltac:(lia))
      as (returned & index'' & sd & ->).
    cbn [mbind outcome_bind].
    destruct returned; [now exists sd|apply Hnext].
Qed.

(** Generation and lookup agree end to end.  Take a table sorted by
    endpoint that holds, somewhere before its last record, the chain
    [generateChain] made from [start], and as target the digest of the
    seed at step [k] of that chain.  Then [searchHashInMemory] returns 1
    with a seed whose digest is the target, provided that at no position
    visited before [k] the searched value is the endpoint of the last
    record (the linear scan of the candidates would run past the table
    there). *)
Theorem searchHashInMemory_recovers_chain_seed
  (fuel : nat) (table : list chain) (chainNum chainLen : Z) (H : hashFunc)
  (hashLen start : Z) (k p : nat) (last_ : chain) (index0 seed0 : Z) :
  1 <= chainLen <= INT_MAX ->
  Z.of_nat (length table) = chainNum -> chainNum <= INT_MAX ->
  2 * chainNum <= Z.of_nat fuel ->
  sorted_by_endpoint table ->
  table !! p = Some (generateChain start H chainLen hashLen) ->
  (S p < length table)%nat ->
  table !! (length table - 1)%nat = Some last_ ->
  Z.of_nat k < chainLen ->
  (forall j : nat, (k < j)%nat -> Z.of_nat j < chainLen ->
     reduce (snd (walk_loop (Z.to_nat (u32 (chainLen - 1) - Z.of_nat j)) H hashLen
                    (Z.of_nat j) (H (chain_seed H hashLen start k))))
       hashLen
       (u32 (fst (walk_loop (Z.to_nat (u32 (chainLen - 1) - Z.of_nat j)) H hashLen
                    (Z.of_nat j) (H (chain_seed H hashLen start k)))))
     <> endpoint last_) ->
  exists sd,
    searchHashInMemory fuel table chainNum chainLen H hashLen
      (H (chain_seed H hashLen start k)) index0 seed0
    = Done (1, sd)
    /\ memcmp_eq (H sd) (H (chain_seed H hashLen start k)) hashLen = true.
Proof.
  intros HL Hlen Hcn Hfuel Hs Hchain Hp Hlast Hk Hprobe.
  pose proof HL as HL'. unfold INT_MAX in HL'.
  assert (Hrun : exists sd,
            searchHashInMemory fuel table chainNum chainLen H hashLen
              (H (chain_seed H hashLen start k)) index0 seed0 = Done (1, sd)).
  { unfold searchHashInMemory. cbv zeta.
    rewrite (s32_small (chainLen - 1)) by lia.
    assert (Hchain' : table !! Z.to_nat (Z.of_nat p)
                      = Some (generateChain start H chainLen hashLen))
      by now rewrite Nat2Z.id.
    destruct (position_loop_recovers fuel table chainNum chainLen H hashLen start k
                (Z.of_nat p) last_ HL Hlen Hcn Hfuel Hs ltac:(lia) ltac:(lia) Hchain' Hlast
                (Z.to_nat (chainLen - 1 - Z.of_nat k)) (Z.to_nat (chainLen - 1 + 1))
                index0 seed0 ltac:(lia) ltac:(lia)
                ltac:(intros j Hj; apply Hprobe; lia))
      as [sd Hsd].
    replace (Z.of_nat (k + Z.to_nat (chainLen - 1 - Z.of_nat k))) with (chainLen - 1)
      in Hsd by lia.
    now exists sd. }
  destruct Hrun as [sd Hrun]. exists sd. split; [exact Hrun|].
  destruct (position_loop_sound _ _ _ _ _ _ _ _ _ _ _ _ _ Hrun) as [[_ Hcmp]|[Hbad _]];
    [exact Hcmp|discriminate].
Qed.

Lemma searchHashInMemory_recovers_chain_seed_witness :
  exists sd,
    searchHashInMemory 4 [generateChain 5 (fun x => [(x + 1) mod 256; 0; 0; 0]) 3 4;
                          mkChain 9 200] 2 3
      (fun x => [(x + 1) mod 256; 0; 0; 0]) 4
      ((fun x => [(x + 1) mod 256; 0; 0; 0])
         (chain_seed (fun x => [(x + 1) mod 256; 0; 0; 0]) 4 5 1)) 0 0
    = Done (1, sd)
    /\ memcmp_eq ((fun x => [(x + 1) mod 256; 0; 0; 0]) sd)
         ((fun x => [(x + 1) mod 256; 0; 0; 0])
            (chain_seed (fun x => [(x + 1) mod 256; 0; 0; 0]) 4 5 1)) 4 = true.
Proof.
  apply (searchHashInMemory_recovers_chain_seed 4
           [generateChain 5 (fun x => [(x + 1) mod 256; 0; 0; 0]) 3 4; mkChain 9 200]
           2 3 (fun x => [(x + 1) mod 256; 0; 0; 0]) 4 5 1 0 (mkChain 9 200) 0 0).
  - unfold INT_MAX. lia.
  - reflexivity.
  - unfold INT_MAX. lia.
  - simpl. lia.
  - intros i a b Ha Hb. destruct i as [|[|i]]; [|discriminate Hb|discriminate Ha].
    vm_compute in Ha, Hb. injection Ha as <-. injection Hb as <-. vm_compute. discriminate.
  - reflexivity.
  - simpl. lia.
  - reflexivity.
  - lia.
  - intros j Hj1 Hj2. assert (j = 2%nat) by lia. subst j. vm_compute. discriminate.
Defined.

(** ** Exhaustive search: what a worker finds and when it stops *)

Lemma worker_loop_finds others (H : hashFunc) hash hl end_ s :
  s <= end_ <= MAX_SEED ->
  memcmp_eq hash (H s) hl = true ->
  forall fuel k i sh,
    0 <= i <= s ->
    (forall x, i <= x < s -> memcmp_eq hash (H x) hl = false) ->
    (forall m, (k <= m < k + Z.to_nat (s - i))%nat -> others m = false) ->
    found sh = false ->
    (Z.to_nat (s - i) < fuel)%nat ->
    worker_loop fuel others H hash hl end_ k i sh = Done (mkShared true s).
Proof.
  intros Hs Hhit. induction fuel as [|fuel IH]; intros k i sh Hi Hmiss Hquiet Hf Hfuel; [lia|].
  cbn [worker_loop]. destruct (Z.leb_spec i end_) as [_|]; [|lia].
  destruct (Z.eq_dec i s) as [->|Hne].
  - rewrite Hhit. reflexivity.
  - rewrite Hmiss by lia. rewrite Hf, Hquiet by lia. cbn [orb].
    rewrite (u32_small (i + 1)) by (unfold UINT_MODULUS, MAX_SEED in *; lia).
    apply IH; [lia| |intros m Hm; apply Hquiet; lia|exact Hf|lia].
    intros x Hx. apply Hmiss. lia.
Qed.

(** A worker that is not interrupted reports the least seed of its range
    that hashes to the target: it raises [found] and stores that seed. *)
Theorem seedRecoveryWorker_finds_least
  (fuel : nat) (others : nat -> bool) (H : hashFunc) (hash : list Z)
  (hashLen start end_ s : Z) (sh : shared) :
  0 <= start <= s -> s <= end_ <= MAX_SEED ->
  memcmp_eq hash (H s) hashLen = true ->
  (forall x, start <= x < s -> memcmp_eq hash (H x) hashLen = false) ->
  (forall m, (m < Z.to_nat (s - start))%nat -> others m = false) ->
  found sh = false ->
  (Z.to_nat (s - start) < fuel)%nat ->
  seedRecoveryWorker fuel others H hash hashLen start end_ sh = Done (mkShared true s).
Proof.
  intros Hst Hs Hhit Hmiss Hquiet Hf Hfuel. unfold seedRecoveryWorker.
  apply (worker_loop_finds others H hash hashLen end_ s Hs Hhit); try assumption.
  intros m Hm. apply Hquiet. lia.
Qed.

Lemma seedRecoveryWorker_finds_least_witness :
  seedRecoveryWorker 10 (fun _ => false) (fun x => [x mod 256]) [7] 1 3 20
    (mkShared false 0) = Done (mkShared true 7).
Proof.
  apply (seedRecoveryWorker_finds_least 10 (fun _ => false) (fun x => [x mod 256])
           [7] 1 3 20 7 (mkShared false 0)).
  - lia.
  - unfold MAX_SEED. lia.
  - reflexivity.
  - intros x Hx.
    assert (Hc : x = 3 \/ x = 4 \/ x = 5 \/ x = 6) by lia.
    destruct Hc as [->|[->|[->| ->]]]; reflexivity.
  - intros m _. reflexivity.
  - reflexivity.
  - simpl. lia.
Defined.

Lemma worker_loop_exhausts others (H : hashFunc) hash hl end_ :
  end_ < MAX_SEED ->
  (forall m, others m = false) ->
  forall fuel k i sh,
    0 <= i ->
    (forall x, i <= x <= end_ -> memcmp_eq hash (H x) hl = false) ->
    found sh = false ->
    (Z.to_nat (end_ + 1 - i) < fuel)%nat ->
    worker_loop fuel others H hash hl end_ k i sh = Done sh.
Proof.
  intros Hend Hquiet. induction fuel as [|fuel IH]; intros k i sh Hi Hmiss Hf Hfuel; [lia|].
  cbn [worker_loop]. destruct (Z.leb_spec i end_) as [Hle|Hgt]; [|reflexivity].
  rewrite Hmiss by lia. rewrite Hf, Hquiet. cbn [orb].
  rewrite (u32_small (i + 1)) by (unfold UINT_MODULUS, MAX_SEED in *; lia).
  apply IH; [lia| |exact Hf|lia]. intros x Hx. apply Hmiss. lia.
Qed.

(** A worker whose range ends below [MAX_SEED] and holds no seed hashing
    to the target returns after scanning it, with [found] and [seed]
    as they were (an empty range, [start > end], included). *)
Theorem seedRecoveryWorker_exhausts_range
  (fuel : nat) (others : nat -> bool) (H : hashFunc) (hash : list Z)
  (hashLen start end_ : Z) (sh : shared) :
  0 <= start -> end_ < MAX_SEED ->
  (forall x, start <= x <= end_ -> memcmp_eq hash (H x) hashLen = false) ->
  (forall m, others m = false) ->
  found sh = false ->
  (Z.to_nat (end_ + 1 - start) < fuel)%nat ->
  seedRecoveryWorker fuel others H hash hashLen start end_ sh = Done sh.
Proof.
  intros Hst Hend Hmiss Hquiet Hf Hfuel. unfold seedRecoveryWorker.
  now apply worker_loop_exhausts.
Qed.

Lemma seedRecoveryWorker_exhausts_range_witness :
  seedRecoveryWorker 10 (fun _ => false) (fun _ => [0]) [1] 1 3 6 (mkShared false 9)
  = Done (mkShared false 9).
Proof.
  apply (seedRecoveryWorker_exhausts_range 10 (fun _ => false) (fun _ => [0]) [1]
           1 3 6 (mkShared false 9)).
  - lia.
  - unfold MAX_SEED. lia.
  - intros x _. reflexivity.
  - intros m. reflexivity.
  - reflexivity.
  - simpl. lia.
Defined.

Lemma worker_loop_stops_on_flag others (H : hashFunc) hash hl end_ (k0 : nat) :
  others k0 = true ->
  forall fuel k i sh,
    (k <= k0)%nat -> (k0 - k < fuel)%nat ->
    exists sh', worker_loop fuel others H hash hl end_ k i sh = Done sh'.
Proof.
  intros Hflag. induction fuel as [|fuel IH]; intros k i sh Hk Hfuel; [lia|].
  cbn [worker_loop]. destruct (i <=? end_); [|now eexists].
  destruct (found _ || others k) eqn:Hpoll; [now eexists|].
  apply orb_false_elim in Hpoll. destruct Hpoll as [_ Hk'].
  assert (k <> k0) by congruence. apply IH; lia.
Qed.

(** Early exit: once another worker has raised [found], every worker
    returns at its next poll, the one whose range ends at [MAX_SEED]
    included. *)
Theorem seedRecoveryWorker_stops_on_flag
  (fuel : nat) (others : nat -> bool) (H : hashFunc) (hash : list Z)
  (hashLen start end_ : Z) (sh : shared) (k0 : nat) :
  others k0 = true -> (k0 < fuel)%nat ->
  exists sh', seedRecoveryWorker fuel others H hash hashLen start end_ sh = Done sh'.
Proof.
  intros Hflag Hfuel. unfold seedRecoveryWorker.
  apply (worker_loop_stops_on_flag others H hash hashLen end_ k0 Hflag); lia.
Qed.

Lemma seedRecoveryWorker_stops_on_flag_witness :
  exists sh',
    seedRecoveryWorker 5 (fun k => Nat.leb 3 k) (fun _ => [0]) [1] 1 0 MAX_SEED
      (mkShared false 0) = Done sh'.
Proof.
  apply (seedRecoveryWorker_stops_on_flag 5 (fun k => Nat.leb 3 k) (fun _ => [0]) [1]
           1 0 MAX_SEED (mkShared false 0) 3).
  - reflexivity.
  - lia.
Defined.

Lemma worker_ranges_cover_witness :
  exists (j : nat) (rg : Z * Z), worker_ranges 3 !! j = Some rg /\ in_range rg 2000000000.
Proof.
  apply (worker_ranges_cover 3 2000000000); unfold MAX_SEED; lia.
Defined.

(** ** Generation: quotas, buckets and the status of the pool *)

Lemma quota_loop_spec (chainNum threadNum : Z) :
  1 <= threadNum <= INT_MAX -> is_u32 chainNum ->
  forall (n i : nat),
    Z.of_nat i + Z.of_nat (S n) = threadNum ->
    quota_loop (S n) chainNum threadNum (Z.of_nat i)
    = repeat (chainNum / threadNum) n
      ++ [chainNum / threadNum + chainNum mod threadNum].
Proof.
  intros HT Hc. unfold INT_MAX in HT. unfold is_u32, UINT_MODULUS in Hc.
  assert (Hq : 0 <= chainNum / threadNum) by (apply Z.div_pos; lia).
  assert (Hr : 0 <= chainNum mod threadNum < threadNum) by (apply Z.mod_pos_bound; lia).
  assert (Hsum : chainNum / threadNum + chainNum mod threadNum <= chainNum).
  { pose proof (Z.div_mod chainNum threadNum ltac:(lia)). nia. }
  induction n as [|n IH]; intros i Hi.
  - cbn [quota_loop repeat app].
    rewrite (u32_small (Z.of_nat i)), (u32_small (threadNum - 1))
      by (unfold UINT_MODULUS; lia).
    destruct (Z.ltb_spec (Z.of_nat i) (threadNum - 1)); [lia|].
    now rewrite u32_small by (unfold UINT_MODULUS; lia).
  - change (quota_loop (S (S n)) chainNum threadNum (Z.of_nat i))
      with ((if u32 (Z.of_nat i) <? u32 (threadNum - 1) then chainNum / threadNum
             else u32 (chainNum / threadNum + chainNum mod threadNum))
              :: quota_loop (S n) chainNum threadNum (s32 (Z.of_nat i + 1))).
    rewrite (u32_small (Z.of_nat i)), (u32_small (threadNum - 1))
      by (unfold UINT_MODULUS; lia).
    destruct (Z.ltb_spec (Z.of_nat i) (threadNum - 1)); [|lia].
    rewrite (s32_small (Z.of_nat i + 1)) by lia.
    replace (Z.of_nat i + 1) with (Z.of_nat (S i)) by lia.
    rewrite IH by lia. reflexivity.
Qed.

(** The quotas handed to the generator threads: [threadNum - 1] quotas
    of [chainNum / threadNum] followed by a last one that takes the
    remainder as well.  So there are [threadNum] of them, they add up to
    [chainNum], and none is below [chainNum / threadNum]. *)
Theorem worker_quotas_sum (chainNum threadNum : Z) :
  1 <= threadNum <= INT_MAX -> is_u32 chainNum ->
  worker_quotas chainNum threadNum
  = repeat (chainNum / threadNum) (Z.to_nat (threadNum - 1))
    ++ [chainNum / threadNum + chainNum mod threadNum]
  /\ length (worker_quotas chainNum threadNum) = Z.to_nat threadNum
  /\ sum_list (worker_quotas chainNum threadNum) = chainNum
  /\ Forall (fun q => chainNum / threadNum <= q) (worker_quotas chainNum threadNum).
Proof.
  intros HT Hc.
  assert (Hshape : worker_quotas chainNum threadNum
                   = repeat (chainNum / threadNum) (Z.to_nat (threadNum - 1))
                     ++ [chainNum / threadNum + chainNum mod threadNum]).
  { unfold worker_quotas.
    replace (Z.to_nat threadNum) with (S (Z.to_nat (threadNum - 1))) by lia.
    pose proof (quota_loop_spec chainNum threadNum HT Hc (Z.to_nat (threadNum - 1)) 0)
      as Hspec.
    change (Z.of_nat 0) with 0 in Hspec. apply Hspec. lia. }
  split; [exact Hshape|]. rewrite Hshape.
  assert (Hr : 0 <= chainNum mod threadNum) by (apply Z.mod_pos_bound; lia).
  split; [rewrite length_app, repeat_length; cbn [length]; lia|]. split.
  - assert (Hrep : forall m x, sum_list (repeat x m ++ [x + chainNum mod threadNum])
                               = Z.of_nat (S m) * x + chainNum mod threadNum).
    { induction m as [|m IHm]; intros x; [simpl; lia|].
      cbn [repeat app sum_list fold_right]. change (fold_right Z.add 0 ?l) with (sum_list l).
      rewrite IHm. lia. }
    rewrite Hrep. replace (Z.of_nat (S (Z.to_nat (threadNum - 1)))) with threadNum by lia.
    pose proof (Z.div_mod chainNum threadNum ltac:(lia)). lia.
  - apply Forall_app. split.
    + apply Forall_forall. intros q Hq. apply list_elem_of_In, repeat_spec in Hq. lia.
    + repeat constructor. lia.
Qed.

Lemma worker_quotas_sum_witness :
  worker_quotas 1000 3 = repeat (1000 / 3) (Z.to_nat (3 - 1)) ++ [1000 / 3 + 1000 mod 3]
  /\ length (worker_quotas 1000 3) = Z.to_nat 3
  /\ sum_list (worker_quotas 1000 3) = 1000
  /\ Forall (fun q => 1000 / 3 <= q) (worker_quotas 1000 3).
Proof.
  apply (worker_quotas_sum 1000 3).
  - unfold INT_MAX. lia.
  - unfold is_u32, UINT_MODULUS. lia.
Defined.

Lemma fill_loop_map (draws : nat -> Z) (H : hashFunc) (chainLen hashLen : Z) :
  forall n k,
    fill_loop n draws k H chainLen hashLen
    = map (fun m => generateChain (draws m) H chainLen hashLen) (seq k n).
Proof.
  induction n as [|n IH]; intros k; cbn [fill_loop seq map]; [reflexivity|].
  now rewrite IH.
Qed.

Lemma bucket_loop_complete (chainNum chainLen hashLen : Z) (H : hashFunc)
  (draws : nat -> Z) (fwrite_ : nat -> nat -> nat) :
  is_u32 chainNum ->
  (forall w req, fwrite_ w req = req) ->
  forall (n : nat) (i : Z) (k : nat) (written : list chain),
    0 <= i -> i + Z.of_nat n = chainNum / WORKER_BUFFER_SIZE + 1 ->
    bucket_loop n chainNum chainLen hashLen H draws fwrite_ i k written
    = (0, written
          ++ map (fun m => generateChain (draws m) H chainLen hashLen)
               (seq k (Z.to_nat (chainNum - i * WORKER_BUFFER_SIZE)))).
Proof.
  intros Hc Hfw. unfold is_u32, UINT_MODULUS in Hc. unfold WORKER_BUFFER_SIZE.
  pose proof (Z.div_mod chainNum 8192 ltac:(lia)) as Hdm.
  pose proof (Z.mod_pos_bound chainNum 8192 ltac:(lia)) as Hrem.
  assert (Hq : 0 <= chainNum / 8192 < 524288).
  { split; [apply Z.div_pos; lia|apply Z.div_lt_upper_bound; lia]. }
  induction n as [|n IH]; intros i k written Hi Hn.
  { cbn [bucket_loop]. replace (Z.to_nat (chainNum - i * 8192)) with 0%nat by lia.
    cbn [seq map]. now rewrite app_nil_r. }
  cbn [bucket_loop]. unfold WORKER_BUFFER_SIZE.
  rewrite Hfw, Nat.min_id, fill_loop_map.
  set (chainsLeft := if i <? chainNum / 8192 then 8192 else chainNum mod 8192).
  assert (Hleft : 0 <= chainsLeft
                  /\ (Z.to_nat (chainNum - i * 8192)
                      = Z.to_nat chainsLeft + Z.to_nat (chainNum - (i + 1) * 8192))%nat).
  { unfold chainsLeft. destruct (Z.ltb_spec i (chainNum / 8192)); lia. }
  destruct Hleft as [Hpos Hsplit].
  rewrite firstn_all2 by (rewrite length_map, length_seq; lia).
  rewrite Z2Nat.id, Z.eqb_refl by lia. cbn [negb].
  rewrite (u32_small (i + 1)) by (unfold UINT_MODULUS; lia).
  rewrite IH by lia. f_equal. rewrite <- app_assoc. f_equal.
  rewrite <- map_app, <- seq_app. now rewrite Hsplit.
Qed.

(** When every [fwrite] stores what it is asked to, a generator worker
    returns 0 after putting exactly [chainNum] chains in the file, the
    [m]-th being the chain generated from its [m]-th random draw. *)
Theorem chainGenerationWorker_writes_quota
  (chainNum chainLen hashLen : Z) (H : hashFunc)
  (draws : nat -> Z) (fwrite_ : nat -> nat -> nat) :
  is_u32 chainNum ->
  (forall w req, fwrite_ w req = req) ->
  chainGenerationWorker chainNum chainLen hashLen H draws fwrite_
  = (0, map (fun m => generateChain (draws m) H chainLen hashLen)
          (seq 0 (Z.to_nat chainNum))).
Proof.
  intros Hc Hfw. unfold chainGenerationWorker.
  rewrite (bucket_loop_complete chainNum chainLen hashLen H draws fwrite_ Hc Hfw).
  - cbn [app]. do 4 f_equal. lia.
  - lia.
  - pose proof (Z.div_pos chainNum WORKER_BUFFER_SIZE).
    unfold is_u32, WORKER_BUFFER_SIZE in *. lia.
Qed.

Lemma chainGenerationWorker_writes_quota_witness :
  let H : hashFunc := fun x => [(x + 1) mod 256; 0; 0; 0] in
  chainGenerationWorker 3 2 4 H (fun m => Z.of_nat m) (fun _ req => req)
  = (0, map (fun m => generateChain (Z.of_nat m) H 2 4) (seq 0 (Z.to_nat 3))).
Proof.
  intros H.
  apply (chainGenerationWorker_writes_quota 3 2 4 H (fun m => Z.of_nat m)
           (fun _ req => req)).
  - unfold is_u32, UINT_MODULUS. lia.
  - intros w req. reflexivity.
Defined.

Lemma bucket_loop_short (chainNum chainLen hashLen : Z) (H : hashFunc)
  (draws : nat -> Z) (fwrite_ : nat -> nat -> nat) (w : Z) :
  is_u32 chainNum ->
  let request b :=
    Z.to_nat (if b <? chainNum / WORKER_BUFFER_SIZE then WORKER_BUFFER_SIZE
              else chainNum mod WORKER_BUFFER_SIZE) in
  (fwrite_ (Z.to_nat w) (request w) < request w)%nat ->
  forall (n : nat) (i : Z) (k : nat) (written : list chain),
    0 <= i <= w -> w < i + Z.of_nat n ->
    i + Z.of_nat n <= chainNum / WORKER_BUFFER_SIZE + 1 ->
    fst (bucket_loop n chainNum chainLen hashLen H draws fwrite_ i k written) = -1.
Proof.
  intros Hc request Hshort. unfold is_u32, UINT_MODULUS in Hc.
  assert (Hq : 0 <= chainNum / WORKER_BUFFER_SIZE < 524288).
  { unfold WORKER_BUFFER_SIZE.
    split; [apply Z.div_pos; lia|apply Z.div_lt_upper_bound; lia]. }
  induction n as [|n IH]; intros i k written Hi Hw Hn; [lia|].
  cbn [bucket_loop].
  set (chainsLeft := if i <? chainNum / WORKER_BUFFER_SIZE then WORKER_BUFFER_SIZE
                     else chainNum mod WORKER_BUFFER_SIZE).
  assert (Hpos : 0 <= chainsLeft).
  { unfold chainsLeft, WORKER_BUFFER_SIZE.
    pose proof (Z.mod_pos_bound chainNum 8192 ltac:(lia)).
    destruct (i <? chainNum / 8192); lia. }
  destruct (Z.eqb_spec (Z.of_nat (Nat.min (fwrite_ (Z.to_nat i) (Z.to_nat chainsLeft))
                                    (Z.to_nat chainsLeft))) chainsLeft) as [Hfull|Hcut];
    cbn [negb]; [|reflexivity].
  destruct (Z.eq_dec i w) as [->|Hne].
  - exfalso. unfold request in Hshort. fold chainsLeft in Hshort. lia.
  - rewrite (u32_small (i + 1)) by (unfold UINT_MODULUS; lia). apply IH; lia.
Qed.

(** A short [fwrite] makes the worker fail: if the write of some bucket
    stores fewer records than the bucket holds, the worker returns -1. *)
Theorem chainGenerationWorker_short_write
  (chainNum chainLen hashLen : Z) (H : hashFunc)
  (draws : nat -> Z) (fwrite_ : nat -> nat -> nat) (w : Z) :
  is_u32 chainNum ->
  0 <= w <= chainNum / WORKER_BUFFER_SIZE ->
  let request :=
    Z.to_nat (if w <? chainNum / WORKER_BUFFER_SIZE then WORKER_BUFFER_SIZE
              else chainNum mod WORKER_BUFFER_SIZE) in
  (fwrite_ (Z.to_nat w) request < request)%nat ->
  fst (chainGenerationWorker chainNum chainLen hashLen H draws fwrite_) = -1.
Proof.
  intros Hc Hw request Hshort. unfold chainGenerationWorker.
  apply (bucket_loop_short chainNum chainLen hashLen H draws fwrite_ w Hc Hshort); lia.
Qed.

Lemma chainGenerationWorker_short_write_witness :
  fst (chainGenerationWorker 10000 2 4 (fun x => [x mod 256; 0; 0; 0])
         (fun m => Z.of_nat m) (fun w req => if Nat.eqb w 1 then 5%nat else req)) = -1.
Proof.
  apply (chainGenerationWorker_short_write 10000 2 4 (fun x => [x mod 256; 0; 0; 0])
           (fun m => Z.of_nat m) (fun w req => if Nat.eqb w 1 then 5%nat else req) 1).
  - unfold is_u32, UINT_MODULUS. lia.
  - vm_compute. split; discriminate.
  - vm_compute. lia.
Defined.

Lemma join_loop_zero (rets : list Z) (status : Z) :
  join_loop rets status = 0 <-> status = 0 /\ Forall (fun ret => ret = 0) rets.
Proof.
  revert status. induction rets as [|ret rets IH]; intros status; cbn [join_loop].
  - split; [intros ->; split; [reflexivity|constructor]|now intros [-> _]].
  - rewrite IH, Z.lor_eq_0_iff, Forall_cons. tauto.
Qed.

(** [createRainbowTable] returns 1 exactly when the file could be
    opened, both arrays allocated and every worker returned 0; in every
    other case it returns -1. *)
Theorem createRainbowTable_status
  (fopen_ok malloc_tid_ok malloc_args_ok : bool) (rets : list Z) :
  (createRainbowTable_result fopen_ok malloc_tid_ok malloc_args_ok rets = 1
   <-> fopen_ok = true /\ malloc_tid_ok = true /\ malloc_args_ok = true
       /\ Forall (fun ret => ret = 0) rets)
  /\ (createRainbowTable_result fopen_ok malloc_tid_ok malloc_args_ok rets = 1
      \/ createRainbowTable_result fopen_ok malloc_tid_ok malloc_args_ok rets = -1).
Proof.
  unfold createRainbowTable_result.
  destruct fopen_ok, malloc_tid_ok, malloc_args_ok; cbn [negb];
    try (split; [split; [discriminate|intros (? & ? & ? & ?); discriminate]|now right]).
  pose proof (join_loop_zero rets 0) as Hz.
  destruct (Z.eqb_spec (join_loop rets 0) 0) as [Heq|Hne]; cbn [negb].
  - split; [|now left]. split; [|reflexivity].
    intros _. repeat split. now apply Hz.
  - split; [|now right]. split; [discriminate|].
    intros (_ & _ & _ & Hall). exfalso. apply Hne, Hz. now split.
Qed.

(** [sortRainbowTable] on a table of [chainNum <= INT_MAX] records:
    -1 and an untouched file when [open] or [fstat] fails; 1 and a
    sorted permutation when the file is mapped; and also 1, with the
    file left as it was, when [mmap] fails. *)
Theorem sortRainbowTable_outcomes
  (fuel : nat) (open_ok fstat_ok mmap_ok : bool) (table : list chain) (chainNum : Z) :
  Z.of_nat (length table) = chainNum ->
  chainNum <= INT_MAX ->
  Forall (fun c => is_u32 (endpoint c)) table ->
  (length table < fuel)%nat ->
  exists ret table',
    sortRainbowTable fuel open_ok fstat_ok mmap_ok table chainNum = Done (ret, table')
    /\ (ret = -1 <-> open_ok = false \/ fstat_ok = false)
    /\ (ret = -1 \/ ret = 1)
    /\ (open_ok = true -> fstat_ok = true -> mmap_ok = true ->
        table' ≡ₚ table /\ sorted_by_endpoint table')
    /\ (mmap_ok = false -> table' = table).
Proof.
  intros Hlen Hmax Hu32 Hfuel. unfold sortRainbowTable. subst chainNum.
  destruct (quickSortTable_spec fuel table 0 (length table))
    as (sorted & Heq & (Hperm & Hl & _) & Hsorted); [lia|lia|exact Hmax|exact Hu32|].
  change (Z.of_nat 0) with 0 in Heq.
  destruct open_ok, fstat_ok, mmap_ok; cbn [negb];
    try (eexists _, _; split; [reflexivity|];
         repeat split; try discriminate; try tauto; try (now left); try (now right);
         try (intros [?|?]; discriminate); fail).
  rewrite Heq. cbn [mbind outcome_bind]. exists 1, sorted. split; [reflexivity|].
  split; [split; [discriminate|intros [?|?]; discriminate]|].
  split; [now right|]. split; [|discriminate].
  intros _ _ _. split; [exact Hperm|]. apply sorted_range_adjacent. now rewrite Hl.
Qed.

Lemma sortRainbowTable_outcomes_witness :
  exists ret table',
    sortRainbowTable 5 true true false [mkChain 10 2; mkChain 11 1] 2 = Done (ret, table')
    /\ (ret = -1 <-> true = false \/ true = false)
    /\ (ret = -1 \/ ret = 1)
    /\ (true = true -> true = true -> false = true ->
        table' ≡ₚ [mkChain 10 2; mkChain 11 1] /\ sorted_by_endpoint table')
    /\ (false = false -> table' = [mkChain 10 2; mkChain 11 1]).
Proof.
  apply (sortRainbowTable_outcomes 5 true true false [mkChain 10 2; mkChain 11 1] 2).
  - reflexivity.
  - unfold INT_MAX. lia.
  - repeat constructor; unfold is_u32, UINT_MODULUS; simpl; lia.
  - simpl. lia.
Defined.

(** ** Hash registry *)

Lemma scan_entries_app (a b : list hashFuncEntry) (name : list ascii) :
  scan_entries (a ++ b) name
  = match scan_entries a name with
    | Some found => Some found
    | None => scan_entries b name
    end.
Proof.
  induction a as [|e a IH]; cbn [app scan_entries]; [reflexivity|].
  now destruct (strcmp_eq (hashName e) name).
Qed.

Lemma resolve_loop_all_entries (libs : Z -> hashlib) (name : list ascii) :
  forall n i,
    resolve_loop n libs i name = scan_entries (all_entries n libs i) name.
Proof.
  induction n as [|n IH]; intros i; cbn [resolve_loop all_entries]; [reflexivity|].
  destruct (libs i) as [| |hf]; [apply IH|apply IH|].
  rewrite scan_entries_app. destruct (scan_entries hf name); [reflexivity|apply IH].
Qed.

(** [resolveHashFunc] answers the first entry with the requested name,
    in the order of the libraries [hashlib0 .. hashlib9] and of the
    entries inside each; it answers [NULL] exactly when no such entry
    exists, and never looks at a library past [hashlib9]. *)
Theorem resolveHashFunc_first_match (libs : Z -> hashlib) (name : list ascii) :
  resolveHashFunc libs name
  = (fun e => (entryFunc e, entryLen e))
      <$> List.find (fun e => strcmp_eq (hashName e) name)
            (all_entries 10 libs 0)
  /\ (resolveHashFunc libs name = None
      <-> forall e, In e (all_entries 10 libs 0) -> hashName e <> name)
  /\ (forall libs' : Z -> hashlib,
        (forall i, 0 <= i < 10 -> libs' i = libs i) ->
        resolveHashFunc libs' name = resolveHashFunc libs name).
Proof.
  unfold resolveHashFunc. change (Z.to_nat MAX_HASHLIBS) with 10%nat.
  assert (Hfind : forall l,
             scan_entries l name
             = (fun e => (entryFunc e, entryLen e))
                 <$> List.find (fun e => strcmp_eq (hashName e) name) l).
  { induction l as [|e l IH]; cbn [scan_entries List.find]; [reflexivity|].
    now destruct (strcmp_eq (hashName e) name). }
  assert (Hnone : forall l,
             scan_entries l name = None
             <-> forall e, In e l -> hashName e <> name).
  { induction l as [|e l IH]; cbn [scan_entries].
    - split; [intros _ e []|reflexivity].
    - unfold strcmp_eq at 1.
      destruct (List.list_eq_dec ascii_dec (hashName e) name) as [Heq|Hne].
      + split; [discriminate|]. intros Hall. exfalso. apply (Hall e); [now left|exact Heq].
      + rewrite IH. split.
        * intros Hall e' [<-|Hin]; [exact Hne|now apply Hall].
        * intros Hall e' Hin. apply Hall. now right. }
  rewrite resolve_loop_all_entries. split; [apply Hfind|]. split; [apply Hnone|].
  intros libs' Hsame. rewrite !resolve_loop_all_entries. f_equal.
  assert (Hext : forall n i, 0 <= i -> i + Z.of_nat n <= 10 ->
                   all_entries n libs' i = all_entries n libs i).
  { induction n as [|n IH]; intros i Hi Hn; cbn [all_entries]; [reflexivity|].
    rewrite Hsame by lia. rewrite IH by lia. reflexivity. }
  apply Hext; lia.
Qed.

(** ** Table names: directories and refusals *)

Lemma parseTablename_of_basename
  (path hashName : list ascii) (chainNum chainLen index : Z) (out : parsed) (index0 : Z) :
  hashName <> [] ->
  Forall (fun c => plain_char c = true) hashName ->
  is_u32 chainNum -> is_u32 chainLen -> is_u32 index ->
  basename (cstr path)
  = hashName ++ "."%char :: fmt_u chainNum ++ "."%char :: fmt_u chainLen
      ++ "."%char :: fmt_u index ++ ["."%char; "r"%char; "t"%char] ->
  parseTablename path out index0 = Some (1, mkParsed hashName chainNum chainLen).
Proof.
  intros Hne Hplain Hcn Hcl Hidx Hbase.
  assert (Hpath : basename_static (cstr path) = false).
  { destruct (cstr path) as [|c path']; [|reflexivity]. exfalso.
    apply (f_equal (@length ascii)) in Hbase. rewrite length_app in Hbase.
    destruct hashName; [congruence|]. cbn in Hbase. lia. }
  pose proof (fmt_u_decimal chainNum Hcn) as D1.
  pose proof (fmt_u_decimal chainLen Hcl) as D2.
  pose proof (fmt_u_decimal index Hidx) as D3.
  set (d1 := fmt_u chainNum) in *. set (d2 := fmt_u chainLen) in *.
  set (d3 := fmt_u index) in *.
  assert (Hws : Forall (fun c => isspace c = false) hashName).
  { eapply List.Forall_impl; [|exact Hplain]. intros c Hc. apply (plain_char_spec c Hc). }
  assert (Hdot : Forall (fun c => is_dot c = false) hashName).
  { eapply List.Forall_impl; [|exact Hplain]. intros c Hc. apply (plain_char_spec c Hc). }
  unfold parseTablename. rewrite Hbase, Hpath.
  set (tail := d1 ++ "."%char :: d2 ++ "."%char :: d3 ++ ["."%char; "r"%char; "t"%char]).
  rewrite (strchr_first_dot hashName tail Hdot).
  rewrite insert_app_r_alt by lia. rewrite Nat.sub_diag. cbn [insert list_insert].
  unfold sscanf_tablename.
  destruct hashName as [|c0 name']; [congruence|].
  pose proof (Forall_inv Hws) as Hc0.
  cbn [app skip_ws basename_static]. rewrite Hc0.
  change (c0 :: name' ++ " "%char :: tail) with ((c0 :: name') ++ " "%char :: tail).
  rewrite (scan_token_app (c0 :: name') " "%char tail Hws eq_refl).
  cbv beta iota.
  change (skip_ws (" "%char :: tail)) with (skip_ws tail).
  unfold tail. rewrite (skip_ws_decimal chainNum d1 _ D1).
  rewrite (scan_u_decimal chainNum d1 "."%char _ Hcn D1 eq_refl).
  cbn [scan_lit mbind option_bind Ascii.eqb Bool.eqb].
  rewrite (scan_u_decimal chainLen d2 "."%char _ Hcl D2 eq_refl).
  cbn [scan_lit mbind option_bind Ascii.eqb Bool.eqb].
  rewrite (scan_u_decimal index d3 "."%char _ Hidx D3 eq_refl).
  reflexivity.
Qed.

Lemma generateTableName_untruncated
  (hashName : list ascii) (chainNum chainLen index : Z) :
  Forall (fun c => plain_char c = true) hashName ->
  (length hashName <= 475)%nat ->
  is_u32 chainNum -> is_u32 chainLen -> is_u32 index ->
  generateTableName hashName chainNum chainLen index
  = hashName ++ "."%char :: fmt_u chainNum ++ "."%char :: fmt_u chainLen
      ++ "."%char :: fmt_u index ++ ["."%char; "r"%char; "t"%char].
Proof.
  intros Hplain Hlen Hcn Hcl Hidx. unfold generateTableName.
  destruct (fmt_u_decimal chainNum Hcn) as (_ & _ & L1 & _).
  destruct (fmt_u_decimal chainLen Hcl) as (_ & _ & L2 & _).
  destruct (fmt_u_decimal index Hidx) as (_ & _ & L3 & _).
  rewrite cstr_id.
  2:{ eapply List.Forall_impl; [|exact Hplain]. intros c Hc. apply (plain_char_spec c Hc). }
  change (of_string ".") with ["."%char].
  change (of_string ".rt") with ["."%char; "r"%char; "t"%char].
  cbn [app]. apply take_ge.
  repeat first [rewrite length_app | progress cbn [length]]. lia.
Qed.

Lemma generated_benign (hashName : list ascii) (chainNum chainLen index : Z) :
  Forall (fun c => plain_char c = true) hashName ->
  is_u32 chainNum -> is_u32 chainLen -> is_u32 index ->
  Forall benign
    (hashName ++ "."%char :: fmt_u chainNum ++ "."%char :: fmt_u chainLen
       ++ "."%char :: fmt_u index ++ ["."%char; "r"%char; "t"%char]).
Proof.
  intros Hplain Hcn Hcl Hidx.
  pose proof (decimal_benign _ _ (fmt_u_decimal chainNum Hcn)).
  pose proof (decimal_benign _ _ (fmt_u_decimal chainLen Hcl)).
  pose proof (decimal_benign _ _ (fmt_u_decimal index Hidx)).
  assert (Hben : Forall benign hashName).
  { eapply List.Forall_impl; [|exact Hplain]. intros c Hc.
    destruct (plain_char_spec c Hc) as (? & _ & _ & ?). now split. }
  repeat first [rewrite Forall_app | rewrite Forall_cons].
  repeat split; try assumption; try reflexivity. apply Forall_nil_2.
Qed.

Lemma strip_trailing_slashes_app (a b : list ascii) :
  b <> [] -> strip_trailing_slashes b = b ->
  strip_trailing_slashes (a ++ b) = a ++ b.
Proof.
  intros Hb Hs. induction a as [|c a IH]; cbn [app strip_trailing_slashes]; [exact Hs|].
  rewrite IH. destruct (a ++ b) eqn:Hab; [|reflexivity].
  destruct a; [cbn [app] in Hab; congruence|discriminate].
Qed.

Lemma last_component_after_slash (dir s : list ascii) :
  Forall (fun c => is_slash c = false) s ->
  last_component (dir ++ "/"%char :: s) = s.
Proof.
  intros Hs.
  assert (Hex : existsb is_slash s = false).
  { induction Hs as [|c' s' Hc' _ IH]; simpl; [reflexivity|]. now rewrite Hc', IH. }
  induction dir as [|c dir IH]; cbn [app last_component].
  - now rewrite Hex.
  - rewrite existsb_app. cbn [existsb]. change (is_slash "/"%char) with true.
    now rewrite orb_true_r.
Qed.

(** The directory part of a path is ignored: a generated table name is
    decoded to the same name and numbers when any directory is put in
    front of it. *)
Theorem parseTablename_ignores_directory
  (dir hashName : list ascii) (chainNum chainLen index : Z) (out : parsed) (index0 : Z) :
  Forall (fun c => Ascii.eqb c NUL = false) dir ->
  hashName <> [] ->
  Forall (fun c => plain_char c = true) hashName ->
  (length hashName <= 475)%nat ->
  is_u32 chainNum -> is_u32 chainLen -> is_u32 index ->
  parseTablename (dir ++ "/"%char :: generateTableName hashName chainNum chainLen index)
    out index0
  = Some (1, mkParsed hashName chainNum chainLen).
Proof.
  intros Hdir Hne Hplain Hlen Hcn Hcl Hidx.
  rewrite (generateTableName_untruncated hashName chainNum chainLen index)
    by assumption.
  pose proof (generated_benign hashName chainNum chainLen index Hplain Hcn Hcl Hidx) as Hben.
  set (g := hashName ++ _) in *.
  assert (Hg : g <> []) by (unfold g; destruct hashName; [congruence|discriminate]).
  assert (Hslash : Forall (fun c => is_slash c = false) g).
  { eapply List.Forall_impl; [|exact Hben]. intros c Hc. apply Hc. }
  apply (parseTablename_of_basename _ hashName chainNum chainLen index); try assumption.
  rewrite cstr_id.
  2:{ apply Forall_app. split; [exact Hdir|]. apply Forall_cons. split; [reflexivity|].
      eapply List.Forall_impl; [|exact Hben]. intros c Hc. apply Hc. }
  unfold basename. destruct (dir ++ "/"%char :: g) eqn:Hpath.
  { destruct dir; discriminate. }
  rewrite <- Hpath.
  change (dir ++ "/"%char :: g) with (dir ++ ["/"%char] ++ g).
  rewrite app_assoc, strip_trailing_slashes_app;
    [|exact Hg|now apply strip_trailing_slashes_id].
  rewrite <- app_assoc. cbn [app].
  destruct (dir ++ "/"%char :: g) eqn:Hpath'; [destruct dir; discriminate|].
  rewrite <- Hpath'. now apply last_component_after_slash.
Qed.

Lemma parseTablename_ignores_directory_witness :
  parseTablename
    (of_string "/var/tables" ++ "/"%char :: generateTableName (of_string "wikihash") 1000 100 0)
    (mkParsed [] 0 0) 0
  = Some (1, mkParsed (of_string "wikihash") 1000 100).
Proof.
  apply (parseTablename_ignores_directory (of_string "/var/tables")
           (of_string "wikihash") 1000 100 0).
  - repeat constructor.
  - discriminate.
  - repeat constructor.
  - simpl. lia.
  - unfold is_u32, UINT_MODULUS. lia.
  - unfold is_u32, UINT_MODULUS. lia.
  - unfold is_u32, UINT_MODULUS. lia.
Defined.

Lemma strchr_None_iff (s : list ascii) (c : ascii) :
  strchr s c = None <-> ~ In c s.
Proof.
  induction s as [|c' s IH]; cbn [strchr In]; [tauto|].
  destruct (Ascii.eqb_spec c' c) as [->|Hne].
  - split; [discriminate|]. intros Hn. exfalso. apply Hn. now left.
  - destruct (strchr s c); cbn [fmap option_fmap option_map].
    + split; [discriminate|]. intros Hn. exfalso.
      assert (Hs : ~ In c s) by tauto. apply IH in Hs. discriminate.
    + split; [|reflexivity]. intros _ [Heq|Hin]; [congruence|]. now apply IH.
Qed.

(** [parseTablename] refuses a name, and then writes nothing through
    its pointers, when its basename holds no dot; every other name that
    is not empty is accepted, whatever follows the dot.  On the empty
    name the store through [dotPos] goes to the constant ["."] of
    [basename]: the call has no result. *)
Theorem parseTablename_refusal (tablename : list ascii) (out : parsed) (index0 : Z) :
  (~ In "."%char (basename (cstr tablename)) ->
   parseTablename tablename out index0 = Some (-1, out))
  /\ (cstr tablename <> [] -> In "."%char (basename (cstr tablename)) ->
      exists out', parseTablename tablename out index0 = Some (1, out'))
  /\ (cstr tablename = [] -> parseTablename tablename out index0 = None).
Proof.
  split; [|split].
  - intros Hdot. unfold parseTablename. apply strchr_None_iff in Hdot. now rewrite Hdot.
  - intros Hne Hdot. pose proof (parseTablename_return tablename out index0 Hne) as Hret.
    destruct (strchr (basename (cstr tablename)) "."%char) eqn:Hs.
    + destruct (parseTablename tablename out index0) as [[ret out']|]; [|discriminate Hret].
      cbn [fmap option_fmap option_map fst] in Hret. exists out'. congruence.
    + apply strchr_None_iff in Hs. contradiction.
  - intros Hempty. unfold parseTablename. rewrite Hempty. reflexivity.
Qed.

Lemma parseTablename_refusal_witness :
  parseTablename (of_string "tables.d/wikihash") (mkParsed [] 7 8) 0
  = Some (-1, mkParsed [] 7 8)
  /\ (exists out', parseTablename (of_string "tables.d/wiki.hash") (mkParsed [] 7 8) 0
                   = Some (1, out'))
  /\ parseTablename [] (mkParsed [] 7 8) 0 = None.
Proof.
  split; [|split].
  - apply (proj1 (parseTablename_refusal (of_string "tables.d/wikihash") (mkParsed [] 7 8) 0)).
    vm_compute. intros H.
    repeat (destruct H as [H|H]; [discriminate H|]). exact H.
  - apply (proj1 (proj2 (parseTablename_refusal (of_string "tables.d/wiki.hash")
                           (mkParsed [] 7 8) 0))).
    + discriminate.
    + vm_compute. do 4 right. now left.
  - apply (proj2 (proj2 (parseTablename_refusal [] (mkParsed [] 7 8) 0))). reflexivity.
Defined.

(** ** Decoding of the target digest given in hexadecimal *)

Import HexInput.

Lemma hex_val_plain ch v :
  hex_val ch = Some v ->
  0 <= v < 16
  /\ Codec.isspace ch = false
  /\ Ascii.eqb ch "-"%char = false /\ Ascii.eqb ch "+"%char = false
  /\ Ascii.eqb ch "x"%char = false /\ Ascii.eqb ch "X"%char = false
  /\ Ascii.eqb ch Codec.NUL = false.
Proof.
  destruct ch as [[] [] [] [] [] [] [] []]; vm_compute; intros Hv;
    try discriminate Hv; injection Hv as <-;
    repeat split; congruence.
Qed.

Lemma scan_x_pair c0 c1 v0 v1 :
  hex_val c0 = Some v0 -> hex_val c1 = Some v1 ->
  scan_x (Codec.cstr [c0; c1]) = Some (16 * v0 + v1).
Proof.
  intros H0 H1.
  destruct (hex_val_plain c0 v0 H0) as (R0 & Hsp & Hm & Hp & _ & _ & Hn0).
  destruct (hex_val_plain c1 v1 H1) as (R1 & _ & _ & _ & Hx & HX & Hn1).
  cbn [Codec.cstr]. rewrite Hn0, Hn1.
  unfold scan_x. cbn [Codec.skip_ws]. rewrite Hsp, Hm, Hp, Hx, HX.
  rewrite andb_false_r. cbn [starts_with_xdigit scan_xdigits]. rewrite H0, H1.
  f_equal. replace ((0 * 16 + v0) * 16 + v1) with (16 * v0 + v1) by lia.
  apply u32_small. unfold UINT_MODULUS. lia.
Qed.

Lemma str_read_inside (s : list ascii) (k : nat) :
  (k < length s)%nat -> str_read s k = Done (nth k s Codec.NUL).
Proof.
  intros Hk. unfold str_read.
  destruct (s !! k) as [ch|] eqn:Hc.
  - f_equal. symmetry. now apply nth_lookup_Some with (d := Codec.NUL) in Hc.
  - apply lookup_ge_None in Hc. lia.
Qed.

Lemma decode_loop_valid (hash : list ascii) (hv : nat -> Z) :
  (32 <= length hash)%nat ->
  (forall k, (k < 32)%nat -> hex_val (nth k hash Codec.NUL) = Some (hv k)) ->
  forall (n j : nat) (pre : list Z) (hexnum : Z),
    length pre = j -> (j + n = 16)%nat ->
    decode_loop n hash (2 * j) j hexnum (pre ++ repeat 0 (64 - j))
    = Done (pre ++ map (fun m => 16 * hv (2 * m)%nat + hv (2 * m + 1)%nat) (seq j n)
                ++ repeat 0 (64 - j - n)).
Proof.
  intros Hlen Hhex. induction n as [|n IH]; intros j pre hexnum Hpre Hn.
  - cbn [decode_loop seq map app]. now rewrite Nat.sub_0_r.
  - cbn [decode_loop].
    rewrite !str_read_inside by lia. cbn [mbind outcome_bind].
    rewrite (scan_x_pair _ _ (hv (2 * j)%nat) (hv (2 * j + 1)%nat))
      by (apply Hhex; lia).
    destruct (hex_val_plain _ _ (Hhex (2 * j)%nat ltac:(lia))) as (R0 & _).
    destruct (hex_val_plain _ _ (Hhex (2 * j + 1)%nat ltac:(lia))) as (R1 & _).
    rewrite (Z.mod_small (16 * _ + _)) by lia.
    replace (64 - j)%nat with (S (64 - S j)) by lia. cbn [repeat].
    rewrite insert_app_r_alt by lia. rewrite Hpre, Nat.sub_diag. cbn [insert list_insert].
    replace (2 * j + 2)%nat with (2 * S j)%nat by lia.
    replace (j + 1)%nat with (S j) by lia.
    replace (pre ++ (16 * hv (2 * j)%nat + hv (2 * j + 1)%nat) :: repeat 0 (64 - S j))
      with ((pre ++ [16 * hv (2 * j)%nat + hv (2 * j + 1)%nat]) ++ repeat 0 (64 - S j))
      by (now rewrite <- app_assoc).
    rewrite IH by (rewrite ?length_app; simpl; lia).
    rewrite <- app_assoc. cbn [seq map app].
    now replace (S (64 - S j) - S n)%nat with (64 - S j - n)%nat by lia.
Qed.

(** Thirty-two hexadecimal digits, in either case, decode to the
    sixteen bytes they denote, two digits a byte, followed by 48 zero
    bytes; characters after the 32nd are not looked at. *)
Theorem bytesFromHash_decodes (hash : list ascii) (hv : nat -> Z) (hexnum0 : Z) :
  (32 <= length hash)%nat ->
  (forall k, (k < 32)%nat -> hex_val (nth k hash Codec.NUL) = Some (hv k)) ->
  bytesFromHash hash hexnum0
  = Done (map (fun m => 16 * hv (2 * m)%nat + hv (2 * m + 1)%nat) (seq 0 16)
            ++ repeat 0 48).
Proof.
  intros Hlen Hhex. unfold bytesFromHash.
  change (Z.to_nat MAX_HASH_SIZE) with 64%nat.
  exact (decode_loop_valid hash hv Hlen Hhex 16 0 [] hexnum0 eq_refl eq_refl).
Qed.

Lemma bytesFromHash_decodes_witness :
  bytesFromHash (Codec.of_string "00ff10Ab7f80deadbeef0123456789ab") 0
  = Done ([0; 255; 16; 171; 127; 128; 222; 173; 190; 239; 1; 35; 69; 103; 137; 171]
            ++ repeat 0 48).
Proof.
  apply (bytesFromHash_decodes (Codec.of_string "00ff10Ab7f80deadbeef0123456789ab")
           (fun k => default 0
                       (hex_val (nth k (Codec.of_string "00ff10Ab7f80deadbeef0123456789ab")
                                   Codec.NUL))) 0).
  - simpl. lia.
  - intros k Hk.
    do 32 (destruct k as [|k]; [reflexivity|]). lia.
Defined.

Lemma str_read_terminator (s : list ascii) : str_read s (length s) = Done Codec.NUL.
Proof.
  unfold str_read. rewrite (lookup_ge_None_2 s (length s)) by lia.
  now rewrite Nat.eqb_refl.
Qed.

Lemma str_read_outside (s : list ascii) (k : nat) :
  (length s < k)%nat -> str_read s k = OutOfBounds (Z.of_nat k).
Proof.
  intros Hk. unfold str_read. rewrite (lookup_ge_None_2 s k) by lia.
  destruct (Nat.eqb_spec k (length s)); [lia|reflexivity].
Qed.

Lemma decode_loop_short (hash : list ascii) :
  forall (n i j : nat) (hexnum : Z) (bytes : list Z),
    (i <= length hash + 1)%nat -> (length hash + 1 < i + 2 * n)%nat ->
    decode_loop n hash i j hexnum bytes = OutOfBounds (Z.of_nat (length hash + 1)).
Proof.
  induction n as [|n IH]; intros i j hexnum bytes Hi Hn; [lia|].
  cbn [decode_loop].
  destruct (Nat.lt_trichotomy i (length hash)) as [Hlt|[->|Hgt]].
  - rewrite (str_read_inside hash i Hlt). cbn [mbind outcome_bind].
    destruct (Nat.eq_dec (i + 1)%nat (length hash)) as [Heq|Hne].
    + rewrite Heq, str_read_terminator. cbn [mbind outcome_bind]. apply IH; lia.
    + rewrite (str_read_inside hash (i + 1)%nat) by lia. cbn [mbind outcome_bind].
      apply IH; lia.
  - rewrite str_read_terminator. cbn [mbind outcome_bind].
    now rewrite (str_read_outside hash (length hash + 1)%nat) by lia.
  - rewrite (str_read_outside hash i) by lia. cbn [mbind outcome_bind].
    now replace i with (length hash + 1)%nat by lia.
Qed.

(** The length of the argument is not checked: on a string of fewer
    than 31 characters the loop goes on past the terminator and reads
    the byte after it. *)
Theorem bytesFromHash_short_reads_outside (hash : list ascii) (hexnum0 : Z) :
  (length hash < 31)%nat ->
  bytesFromHash hash hexnum0 = OutOfBounds (Z.of_nat (length hash + 1)).
Proof.
  intros Hlen. unfold bytesFromHash. apply decode_loop_short; lia.
Qed.

Lemma bytesFromHash_short_reads_outside_witness :
  bytesFromHash (Codec.of_string "00ff10") 0 = OutOfBounds 7.
Proof.
  apply (bytesFromHash_short_reads_outside (Codec.of_string "00ff10") 0). simpl. lia.
Defined.

(** ** The multiply-with-carry generator *)

Lemma Q_at_u32 (q : list Z) (k : Z) : Forall is_u32 q -> is_u32 (Cmwc.Q_at q k).
Proof.
  intros Hq. unfold Cmwc.Q_at.
  destruct (nth_in_or_default (Z.to_nat k) q 0) as [Hin| ->].
  - rewrite List.Forall_forall in Hq. now apply Hq.
  - unfold is_u32, UINT_MODULUS. lia.
Qed.

Lemma Q_at_insert (q : list Z) (k : Z) (v : Z) :
  (Z.to_nat k < length q)%nat -> Cmwc.Q_at (<[Z.to_nat k := v]> q) k = v.
Proof.
  intros Hk. unfold Cmwc.Q_at. apply nth_lookup_Some with (d := 0).
  now apply list_lookup_insert_eq.
Qed.

Lemma Q_at_insert_ne (q : list Z) (j k : Z) (v : Z) :
  Z.to_nat j <> Z.to_nat k -> Cmwc.Q_at (<[Z.to_nat j := v]> q) k = Cmwc.Q_at q k.
Proof.
  intros Hne. unfold Cmwc.Q_at. rewrite !nth_lookup.
  now rewrite list_lookup_insert_ne.
Qed.

Lemma is_u32_u32 z : is_u32 (u32 z).
Proof. apply u32_range. Qed.

Lemma srand_loop_wf (n : nat) :
  forall (q : list Z) (k : Z),
    0 <= k -> k + Z.of_nat n <= 4096 -> Forall is_u32 q ->
    length (Cmwc.srand_loop n q k) = length q
    /\ Forall is_u32 (Cmwc.srand_loop n q k).
Proof.
  induction n as [|n IH]; intros q k Hk Hn Hq; cbn [Cmwc.srand_loop]; [now split|].
  destruct (IH (<[Z.to_nat k :=
                  Z.lxor (Z.lxor (Z.lxor (Cmwc.Q_at q (k - 3)) (Cmwc.Q_at q (k - 2)))
                            Cmwc.PHI) k]> q) (k + 1)) as [Hl Hf]; [lia|lia| |].
  - apply Forall_insert; [exact Hq|].
    repeat apply lxor_u32; try (now apply Q_at_u32);
      unfold is_u32, UINT_MODULUS, Cmwc.PHI; lia.
  - rewrite length_insert in Hl. now split.
Qed.

Lemma srand_cmwc_wf (x : Z) (q : list Z) :
  is_u32 x -> Forall is_u32 q ->
  length (Cmwc.srand_cmwc x q) = length q /\ Forall is_u32 (Cmwc.srand_cmwc x q).
Proof.
  intros Hx Hq. unfold Cmwc.srand_cmwc.
  destruct (srand_loop_wf (4096 - 3)
              (<[2%nat := u32 (u32 (x + Cmwc.PHI) + Cmwc.PHI)]>
                 (<[1%nat := u32 (x + Cmwc.PHI)]> (<[0%nat := x]> q))) 3)
    as [Hl Hf]; [lia|lia| |].
  - repeat apply Forall_insert; try apply is_u32_u32; assumption.
  - rewrite !length_insert in Hl. now split.
Qed.

(** A call of [rand_cmwc] keeps the generator well formed: [Q] stays an
    array of 4096 32-bit words, the index moves to the next slot modulo
    4096, the carry stays small (at most 18783, so [c++] never wraps),
    the generator is seeded from then on, and the value returned, a
    32-bit word, is the one just stored in the current slot. *)
Theorem rand_cmwc_keeps_state (tv_sec tv_usec : Z) (st : Cmwc.state) :
  Cmwc.wf st ->
  let '(out, st') := Cmwc.rand_cmwc tv_sec tv_usec st in
  Cmwc.wf st'
  /\ is_u32 out
  /\ Cmwc.c st' <= 18783
  /\ Cmwc.seeded st' = true
  /\ Cmwc.i st' = (Cmwc.i st + 1) mod 4096
  /\ Cmwc.Q_at (Cmwc.Q st') (Cmwc.i st') = out.
Proof.
  intros (Hlen & Hq & Hi & Hc). unfold Cmwc.rand_cmwc. cbv zeta.
  set (st1 := if Cmwc.seeded st then st else Cmwc.custom_seed tv_sec tv_usec st).
  assert (Hst1 : length (Cmwc.Q st1) = 4096%nat /\ Forall is_u32 (Cmwc.Q st1)
                 /\ Cmwc.i st1 = Cmwc.i st /\ Cmwc.c st1 = Cmwc.c st
                 /\ (Cmwc.seeded st1 = true \/ Cmwc.seeded st = false)).
  { unfold st1. destruct (Cmwc.seeded st) eqn:Hs; [repeat split; auto|].
    unfold Cmwc.custom_seed. cbn [Cmwc.Q Cmwc.i Cmwc.c Cmwc.seeded].
    destruct (srand_cmwc_wf (u32 (Z.lxor tv_sec tv_usec)) (Cmwc.Q st)
                (is_u32_u32 _) Hq) as [Hl Hf].
    repeat split; auto. congruence. }
  destruct Hst1 as (Hlen1 & Hq1 & Hi1 & Hc1 & Hseed1).
  rewrite Hi1, Hc1.
  assert (Hidx : Z.land (u32 (Cmwc.i st + 1)) 4095 = (Cmwc.i st + 1) mod 4096).
  { rewrite (u32_small (Cmwc.i st + 1)) by (unfold UINT_MODULUS; lia).
    change 4095 with (Z.ones 12). rewrite Z.land_ones by lia. reflexivity. }
  rewrite Hidx. set (i' := (Cmwc.i st + 1) mod 4096).
  assert (Hi' : 0 <= i' < 4096) by (apply Z.mod_pos_bound; lia).
  pose proof (Q_at_u32 (Cmwc.Q st1) i' Hq1) as Hw. unfold is_u32, UINT_MODULUS in Hw.
  set (w := Cmwc.Q_at (Cmwc.Q st1) i') in *.
  assert (Ht : 0 <= 18782 * w + Cmwc.c st < 18783 * 2 ^ 32) by nia.
  rewrite (Z.mod_small (18782 * w + Cmwc.c st)) by lia.
  rewrite Z.shiftr_div_pow2 by lia.
  set (t := 18782 * w + Cmwc.c st) in *.
  assert (Hcarry : 0 <= t / 2 ^ 32 <= 18782).
  { split; [apply Z.div_pos; lia|].
    assert (t / 2 ^ 32 < 18783) by (apply Z.div_lt_upper_bound; lia). lia. }
  set (c' := t / 2 ^ 32) in *.
  assert (Hseeded : Cmwc.seeded st1 = true).
  { unfold st1. destruct (Cmwc.seeded st) eqn:Hs; [exact Hs|reflexivity]. }
  assert (Hfinal : forall out cc, is_u32 out -> 0 <= cc <= 18783 ->
            let st' := Cmwc.mkState (<[Z.to_nat i' := out]> (Cmwc.Q st1)) cc
                         (Cmwc.seeded st1) i' in
            Cmwc.wf st' /\ is_u32 out /\ Cmwc.c st' <= 18783
            /\ Cmwc.seeded st' = true /\ Cmwc.i st' = i'
            /\ Cmwc.Q_at (Cmwc.Q st') (Cmwc.i st') = out).
  { intros out cc Hout Hcc st'. unfold Cmwc.wf, st'.
    cbn [Cmwc.Q Cmwc.c Cmwc.seeded Cmwc.i]. rewrite length_insert.
    split; [|split; [exact Hout|split; [lia|split; [exact Hseeded|split; [reflexivity|]]]]].
    - split; [exact Hlen1|]. split; [|lia].
      apply Forall_insert; [exact Hq1|exact Hout].
    - apply Q_at_insert. lia. }
  destruct (u32 (t + c') <? c').
  - rewrite (u32_small (c' + 1)) by (unfold UINT_MODULUS; lia).
    apply Hfinal; [apply is_u32_u32|lia].
  - apply Hfinal; [apply is_u32_u32|lia].
Qed.

Lemma rand_cmwc_keeps_state_witness :
  let '(out, st') := Cmwc.rand_cmwc 1 2 Cmwc.initial in
  Cmwc.wf st'
  /\ is_u32 out
  /\ Cmwc.c st' <= 18783
  /\ Cmwc.seeded st' = true
  /\ Cmwc.i st' = (Cmwc.i Cmwc.initial + 1) mod 4096
  /\ Cmwc.Q_at (Cmwc.Q st') (Cmwc.i st') = out.
Proof.
  apply (rand_cmwc_keeps_state 1 2 Cmwc.initial).
  unfold Cmwc.wf, Cmwc.initial. cbn [Cmwc.Q Cmwc.c Cmwc.i].
  split; [apply repeat_length|]. split; [|lia].
  apply Forall_forall. intros x Hx. apply list_elem_of_In, repeat_spec in Hx. subst x.
  unfold is_u32, UINT_MODULUS. lia.
Defined.

Lemma Q_at_of_nat (q : list Z) (n : nat) : Cmwc.Q_at q (Z.of_nat n) = nth n q 0.
Proof. unfold Cmwc.Q_at. now rewrite Nat2Z.id. Qed.

Lemma srand_loop_spec (n : nat) :
  forall (q : list Z) (k : Z),
    3 <= k -> k + Z.of_nat n <= Z.of_nat (length q) ->
    (forall idx, 0 <= idx < k ->
       Cmwc.Q_at (Cmwc.srand_loop n q k) idx = Cmwc.Q_at q idx)
    /\ (forall idx, k <= idx < k + Z.of_nat n ->
          Cmwc.Q_at (Cmwc.srand_loop n q k) idx
          = Z.lxor (Z.lxor (Z.lxor (Cmwc.Q_at (Cmwc.srand_loop n q k) (idx - 3))
                              (Cmwc.Q_at (Cmwc.srand_loop n q k) (idx - 2)))
                      Cmwc.PHI) idx).
Proof.
  induction n as [|n IH]; intros q k Hk Hn; cbn [Cmwc.srand_loop].
  - split; [reflexivity|intros idx Hidx; lia].
  - set (v := Z.lxor (Z.lxor (Z.lxor (Cmwc.Q_at q (k - 3)) (Cmwc.Q_at q (k - 2)))
                        Cmwc.PHI) k).
    destruct (IH (<[Z.to_nat k := v]> q) (k + 1)) as [Hold Hnew];
      [lia|rewrite length_insert; lia|].
    split.
    + intros idx Hidx. rewrite Hold by lia. apply Q_at_insert_ne. lia.
    + intros idx Hidx. destruct (Z.eq_dec idx k) as [->|Hne]; [|apply Hnew; lia].
      rewrite !Hold by lia. rewrite Q_at_insert by lia.
      rewrite !Q_at_insert_ne by lia. reflexivity.
Qed.

Lemma srand_cmwc_words (x : Z) (q : list Z) :
  length q = 4096%nat ->
  let q' := Cmwc.srand_cmwc x q in
  length q' = 4096%nat
  /\ Cmwc.Q_at q' 0 = x
  /\ Cmwc.Q_at q' 1 = u32 (x + Cmwc.PHI)
  /\ Cmwc.Q_at q' 2 = u32 (u32 (x + Cmwc.PHI) + Cmwc.PHI)
  /\ (forall k, 3 <= k < 4096 ->
        Cmwc.Q_at q' k
        = Z.lxor (Z.lxor (Z.lxor (Cmwc.Q_at q' (k - 3)) (Cmwc.Q_at q' (k - 2)))
                    Cmwc.PHI) k).
Proof.
  intros Hlen q'. unfold q', Cmwc.srand_cmwc.
  set (q3 := <[2%nat := u32 (u32 (x + Cmwc.PHI) + Cmwc.PHI)]>
               (<[1%nat := u32 (x + Cmwc.PHI)]> (<[0%nat := x]> q))).
  assert (Hl3 : length q3 = 4096%nat) by (unfold q3; now rewrite !length_insert).
  destruct (srand_loop_spec (4096 - 3) q3 3) as [Hold Hnew]; [lia|lia|].
  assert (Hlenres : length (Cmwc.srand_loop (4096 - 3) q3 3) = 4096%nat).
  { clear Hold Hnew. generalize (4096 - 3)%nat, 3, q3, Hl3.
    induction n as [|n IH]; intros k l Hl; cbn [Cmwc.srand_loop]; [exact Hl|].
    apply IH. now rewrite length_insert. }
  split; [exact Hlenres|].
  rewrite !Hold by lia.
  split; [|split; [|split]].
  - unfold q3. change 0 with (Z.of_nat 0) at 1.
    unfold Cmwc.Q_at. rewrite Nat2Z.id. apply nth_lookup_Some with (d := 0).
    rewrite !list_lookup_insert_ne by lia. apply list_lookup_insert_eq. lia.
  - unfold q3, Cmwc.Q_at. apply nth_lookup_Some with (d := 0).
    change (Z.to_nat 1) with 1%nat.
    rewrite list_lookup_insert_ne by lia. apply list_lookup_insert_eq.
    rewrite length_insert. lia.
  - unfold q3, Cmwc.Q_at. apply nth_lookup_Some with (d := 0).
    change (Z.to_nat 2) with 2%nat. apply list_lookup_insert_eq.
    rewrite !length_insert. lia.
  - intros k Hk. apply Hnew. lia.
Qed.

(** Seeding rewrites the whole array: after [srand_cmwc(x)] the 4096
    words are those of the recurrence started from [x], [x + PHI],
    [x + 2 PHI], and nothing of the earlier contents of [Q] is left. *)
Theorem srand_cmwc_overwrites (x : Z) (q1 q2 : list Z) :
  length q1 = 4096%nat -> length q2 = 4096%nat ->
  Cmwc.srand_cmwc x q1 = Cmwc.srand_cmwc x q2
  /\ Cmwc.Q_at (Cmwc.srand_cmwc x q1) 0 = x
  /\ Cmwc.Q_at (Cmwc.srand_cmwc x q1) 1 = u32 (x + Cmwc.PHI)
  /\ Cmwc.Q_at (Cmwc.srand_cmwc x q1) 2 = u32 (u32 (x + Cmwc.PHI) + Cmwc.PHI)
  /\ (forall k, 3 <= k < 4096 ->
        Cmwc.Q_at (Cmwc.srand_cmwc x q1) k
        = Z.lxor (Z.lxor (Z.lxor (Cmwc.Q_at (Cmwc.srand_cmwc x q1) (k - 3))
                            (Cmwc.Q_at (Cmwc.srand_cmwc x q1) (k - 2)))
                    Cmwc.PHI) k).
Proof.
  intros H1 H2.
  destruct (srand_cmwc_words x q1 H1) as (L1 & A0 & A1 & A2 & Ar).
  destruct (srand_cmwc_words x q2 H2) as (L2 & B0 & B1 & B2 & Br).
  split; [|now repeat split].
  apply (nth_ext _ _ 0 0); [now rewrite L1, L2|]. intros n Hn. rewrite L1 in Hn.
  assert (Hall : forall m k, (k < m)%nat -> (k < 4096)%nat ->
            Cmwc.Q_at (Cmwc.srand_cmwc x q1) (Z.of_nat k)
            = Cmwc.Q_at (Cmwc.srand_cmwc x q2) (Z.of_nat k)).
  { induction m as [|m IH]; intros k Hk Hk'; [lia|].
    destruct (Z_lt_le_dec (Z.of_nat k) 3) as [Hsmall|Hbig].
    - assert (Hc : Z.of_nat k = 0 \/ Z.of_nat k = 1 \/ Z.of_nat k = 2) by lia.
      destruct Hc as [->|[->| ->]];
        [now rewrite A0, B0|now rewrite A1, B1|now rewrite A2, B2].
    - rewrite Ar, Br by lia.
      replace (Z.of_nat k - 3) with (Z.of_nat (k - 3)) by lia.
      replace (Z.of_nat k - 2) with (Z.of_nat (k - 2)) by lia.
      rewrite (IH (k - 3)%nat), (IH (k - 2)%nat) by lia. reflexivity. }
  rewrite <- !Q_at_of_nat. apply (Hall (S n)); lia.
Qed.

Lemma srand_cmwc_overwrites_witness :
  Cmwc.srand_cmwc 7 (repeat 0 4096) = Cmwc.srand_cmwc 7 (repeat 1 4096)
  /\ Cmwc.Q_at (Cmwc.srand_cmwc 7 (repeat 0 4096)) 0 = 7
  /\ Cmwc.Q_at (Cmwc.srand_cmwc 7 (repeat 0 4096)) 1 = u32 (7 + Cmwc.PHI)
  /\ Cmwc.Q_at (Cmwc.srand_cmwc 7 (repeat 0 4096)) 2 = u32 (u32 (7 + Cmwc.PHI) + Cmwc.PHI)
  /\ (forall k, 3 <= k < 4096 ->
        Cmwc.Q_at (Cmwc.srand_cmwc 7 (repeat 0 4096)) k
        = Z.lxor (Z.lxor (Z.lxor (Cmwc.Q_at (Cmwc.srand_cmwc 7 (repeat 0 4096)) (k - 3))
                            (Cmwc.Q_at (Cmwc.srand_cmwc 7 (repeat 0 4096)) (k - 2)))
                    Cmwc.PHI) k).
Proof.
  apply (srand_cmwc_overwrites 7 (repeat 0 4096) (repeat 1 4096)); apply repeat_length.
Defined.

(** ** The Mersenne Twister and the hash plug-in built on it *)

Lemma is_u32_log2 a : is_u32 a <-> 0 <= a /\ (a = 0 \/ Z.log2 a < 32).
Proof.
  unfold is_u32, UINT_MODULUS. split.
  - intros [Ha Hb]. split; [exact Ha|].
    destruct (Z.eq_dec a 0) as [->|Hne]; [now left|right].
    apply Z.log2_lt_pow2; lia.
  - intros [Ha [->|Hl]]; [lia|]. split; [exact Ha|].
    destruct (Z.eq_dec a 0) as [->|Hne]; [lia|]. apply Z.log2_lt_pow2; lia.
Qed.

Lemma land_u32_r a b : 0 <= a -> is_u32 b -> is_u32 (Z.land a b).
Proof.
  intros Ha Hb. apply is_u32_log2 in Hb. destruct Hb as [Hb0 Hb].
  apply is_u32_log2. split; [apply Z.land_nonneg; now left|].
  destruct Hb as [->|Hb]; [left; apply Z.land_0_r|right].
  pose proof (Z.log2_land a b Ha Hb0). lia.
Qed.

Lemma land_u32_l a b : is_u32 a -> 0 <= b -> is_u32 (Z.land a b).
Proof. intros Ha Hb. rewrite Z.land_comm. now apply land_u32_r. Qed.

Lemma lor_u32 a b : is_u32 a -> is_u32 b -> is_u32 (Z.lor a b).
Proof.
  intros Ha Hb. apply is_u32_log2 in Ha, Hb.
  destruct Ha as [Ha0 Ha], Hb as [Hb0 Hb].
  apply is_u32_log2. split; [now apply Z.lor_nonneg|].
  destruct Ha as [->|Ha]; [rewrite Z.lor_0_l; exact Hb|].
  destruct Hb as [->|Hb]; [rewrite Z.lor_0_r; now right|].
  right. rewrite Z.log2_lor by assumption. lia.
Qed.

Lemma shiftr_u32 a n : is_u32 a -> 0 <= n -> is_u32 (Z.shiftr a n).
Proof.
  unfold is_u32, UINT_MODULUS. intros Ha Hn. rewrite Z.shiftr_div_pow2 by exact Hn.
  assert (0 < 2 ^ n) by (apply Z.pow_pos_nonneg; lia).
  split; [apply Z.div_pos; lia|].
  apply Z.le_lt_trans with a; [|lia]. apply Z.div_le_upper_bound; nia.
Qed.

Lemma shiftr1_u31 a : is_u32 a -> 0 <= Z.shiftr a 1 < 2 ^ 31.
Proof.
  unfold is_u32, UINT_MODULUS. intros Ha. rewrite Z.shiftr_div_pow2 by lia.
  split; [apply Z.div_pos; lia|apply Z.div_lt_upper_bound; lia].
Qed.

Lemma temper_u32 y : is_u32 y -> is_u32 (MT.temper y).
Proof.
  intros Hy. unfold MT.temper. cbv zeta.
  repeat first
    [ apply lxor_u32 | apply shiftr_u32 | apply land_u32_l | apply is_u32_u32
    | assumption | lia ].
Qed.

Lemma mixBits_u32 u v : is_u32 u -> is_u32 v -> is_u32 (MT.mixBits u v).
Proof.
  intros Hu Hv. unfold MT.mixBits, MT.hiBit, MT.loBits.
  apply lor_u32; apply land_u32_l; assumption || lia.
Qed.

Lemma php_twist_u32 m u v : is_u32 m -> is_u32 u -> is_u32 v -> is_u32 (MT.php_twist m u v).
Proof.
  intros Hm Hu Hv. unfold MT.php_twist.
  repeat first
    [ apply lxor_u32 | apply shiftr_u32 | apply land_u32_l | apply is_u32_u32
    | apply mixBits_u32 | assumption | lia ].
Qed.

Lemma mt_twist_u32 m u v : is_u32 m -> is_u32 u -> is_u32 v -> is_u32 (MT.mt_twist m u v).
Proof.
  intros Hm Hu Hv. unfold MT.mt_twist.
  repeat first
    [ apply lxor_u32 | apply shiftr_u32 | apply land_u32_l | apply is_u32_u32
    | apply mixBits_u32 | assumption | lia ].
Qed.

Lemma word_at_u32 (st : list Z) (k : Z) : Forall is_u32 st -> is_u32 (MT.word_at st k).
Proof. apply Q_at_u32. Qed.

Lemma word_at_insert (st : list Z) (k v : Z) :
  (Z.to_nat k < length st)%nat -> MT.word_at (<[Z.to_nat k := v]> st) k = v.
Proof. apply Q_at_insert. Qed.

Lemma word_at_insert_ne (st : list Z) (j k v : Z) :
  Z.to_nat j <> Z.to_nat k -> MT.word_at (<[Z.to_nat j := v]> st) k = MT.word_at st k.
Proof. apply Q_at_insert_ne. Qed.

Lemma reload_loop_wf (twist : Z -> Z -> Z -> Z) (off : Z) :
  (forall m u v, is_u32 m -> is_u32 u -> is_u32 v -> is_u32 (twist m u v)) ->
  forall (n : nat) (st : list Z) (k : Z),
    Forall is_u32 st ->
    length (MT.reload_loop n twist off st k) = length st
    /\ Forall is_u32 (MT.reload_loop n twist off st k).
Proof.
  intros Htw. induction n as [|n IH]; intros st k Hst; cbn [MT.reload_loop]; [now split|].
  destruct (IH (<[Z.to_nat k := twist (MT.word_at st (k + off)) (MT.word_at st k)
                                  (MT.word_at st (k + 1))]> st) (k + 1)) as [Hl Hf].
  - apply Forall_insert; [exact Hst|]. apply Htw; now apply word_at_u32.
  - rewrite length_insert in Hl. now split.
Qed.

Lemma reload_loop_below (twist : Z -> Z -> Z -> Z) (off : Z) :
  forall (n : nat) (st : list Z) (k idx : Z),
    0 <= idx < k ->
    MT.word_at (MT.reload_loop n twist off st k) idx = MT.word_at st idx.
Proof.
  induction n as [|n IH]; intros st k idx Hidx; cbn [MT.reload_loop]; [reflexivity|].
  rewrite IH by lia. apply word_at_insert_ne. lia.
Qed.

Lemma reload_loop_forward (twist : Z -> Z -> Z -> Z) (off : Z) :
  0 <= off ->
  forall (n : nat) (st : list Z) (k idx : Z),
    0 <= k -> k + Z.of_nat n <= Z.of_nat (length st) ->
    k <= idx < k + Z.of_nat n ->
    MT.word_at (MT.reload_loop n twist off st k) idx
    = twist (MT.word_at st (idx + off)) (MT.word_at st idx) (MT.word_at st (idx + 1)).
Proof.
  intros Hoff. induction n as [|n IH]; intros st k idx Hk Hn Hidx; [lia|].
  cbn [MT.reload_loop].
  destruct (Z.eq_dec idx k) as [->|Hne].
  - rewrite reload_loop_below by lia. apply word_at_insert. lia.
  - rewrite IH by (rewrite ?length_insert; lia).
    rewrite !word_at_insert_ne by lia. reflexivity.
Qed.

(** After a reload the first [N - M] words are the twists of the words
    that were there before. *)
Lemma mtReload_first_words (b : bool) (mtInfo : MT.MTState) (k : Z) :
  length (MT.state mtInfo) = 624%nat -> 0 <= k < MT.N - MT.M ->
  MT.word_at (MT.state (MT.mtReload b mtInfo)) k
  = (if b then MT.php_twist else MT.mt_twist)
      (MT.word_at (MT.state mtInfo) (k + MT.M)) (MT.word_at (MT.state mtInfo) k)
      (MT.word_at (MT.state mtInfo) (k + 1)).
Proof.
  intros Hlen Hk. unfold MT.N, MT.M in Hk. unfold MT.mtReload. cbv zeta. cbn [MT.state].
  set (twist := if b then MT.php_twist else MT.mt_twist).
  rewrite word_at_insert_ne by (unfold MT.N; lia).
  rewrite reload_loop_below by (unfold MT.N, MT.M; lia).
  apply reload_loop_forward; unfold MT.N, MT.M; lia.
Qed.

Lemma mtReload_wf (b : bool) (mtInfo : MT.MTState) :
  length (MT.state mtInfo) = 624%nat -> Forall is_u32 (MT.state mtInfo) ->
  length (MT.state (MT.mtReload b mtInfo)) = 624%nat
  /\ Forall is_u32 (MT.state (MT.mtReload b mtInfo))
  /\ MT.left (MT.mtReload b mtInfo) = MT.N
  /\ MT.next (MT.mtReload b mtInfo) = 0.
Proof.
  intros Hlen Hst. unfold MT.mtReload. cbv zeta. cbn [MT.state MT.left MT.next].
  set (twist := if b then MT.php_twist else MT.mt_twist).
  assert (Htw : forall m u v, is_u32 m -> is_u32 u -> is_u32 v -> is_u32 (twist m u v)).
  { unfold twist. destruct b; [apply php_twist_u32|apply mt_twist_u32]. }
  destruct (reload_loop_wf twist MT.M Htw (Z.to_nat (MT.N - MT.M)) (MT.state mtInfo) 0 Hst)
    as [L1 F1].
  destruct (reload_loop_wf twist (MT.M - MT.N) Htw (Z.to_nat (MT.M - 1)) _ (MT.N - MT.M) F1)
    as [L2 F2].
  rewrite length_insert. split; [congruence|]. split; [|now split].
  apply Forall_insert; [exact F2|]. apply Htw; now apply word_at_u32.
Qed.

(** [php_mt_rand] keeps the generator consistent: the word it reads is
    one of the 624 of the state, the value it returns has 31 bits, and
    afterwards one word fewer is left (623 after a reload). *)
Theorem php_mt_rand_keeps_state (b : bool) (mtInfo : MT.MTState) :
  MT.wf mtInfo ->
  MT.wf (snd (MT.php_mt_rand b mtInfo))
  /\ 0 <= fst (MT.php_mt_rand b mtInfo) < 2 ^ 31
  /\ 0 <= MT.next (snd (MT.php_mt_rand b mtInfo)) - 1 < MT.N
  /\ MT.left (snd (MT.php_mt_rand b mtInfo))
     = (if MT.left mtInfo =? 0 then MT.N - 1 else MT.left mtInfo - 1)
  /\ fst (MT.php_mt_rand b mtInfo)
     = Z.shiftr (MT.temper (MT.word_at (MT.state (snd (MT.php_mt_rand b mtInfo)))
                              (MT.next (snd (MT.php_mt_rand b mtInfo)) - 1))) 1.
Proof.
  intros (Hlen & Hst & Hleft & Hnext).
  unfold MT.php_mt_rand, MT.mt_rand. cbv zeta.
  destruct (Z.eqb_spec (MT.left mtInfo) 0) as [H0|H0].
  - destruct (mtReload_wf b mtInfo Hlen Hst) as (L & F & Hl & Hn).
    cbn [fst snd MT.state MT.left MT.next]. rewrite Hl, Hn.
    unfold MT.wf. cbn [MT.state MT.left MT.next]. unfold MT.N.
    replace (u32 (624 - 1)) with 623 by reflexivity.
    replace (0 + 1 - 1) with 0 by lia.
    repeat split; try assumption; try lia;
      apply shiftr1_u31, temper_u32, word_at_u32, F.
  - destruct Hnext as [Hnext|Hnext]; [contradiction|].
    cbn [fst snd MT.state MT.left MT.next].
    unfold MT.wf. cbn [MT.state MT.left MT.next]. unfold MT.N in *.
    assert (Hu : u32 (MT.left mtInfo - 1) = MT.left mtInfo - 1).
    { unfold u32, UINT_MODULUS. apply Z.mod_small. lia. }
    rewrite Hu. replace (MT.next mtInfo + 1 - 1) with (MT.next mtInfo) by lia.
    repeat split; try assumption; try lia;
      apply shiftr1_u31, temper_u32, word_at_u32, Hst.
Qed.

Lemma php_mt_rand_keeps_state_witness :
  MT.wf (MT.mkMT (repeat 7 624) 0 0)
  /\ MT.wf (snd (MT.php_mt_rand true (MT.mkMT (repeat 7 624) 0 0)))
  /\ MT.left (snd (MT.php_mt_rand true (MT.mkMT (repeat 7 624) 0 0))) = 623.
Proof.
  assert (Hwf : MT.wf (MT.mkMT (repeat 7 624) 0 0)).
  { unfold MT.wf. cbn [MT.state MT.left MT.next].
    split; [apply repeat_length|]. split; [|unfold MT.N; lia].
    apply Forall_forall. intros x Hx. apply list_elem_of_In, repeat_spec in Hx. subst x.
    unfold is_u32, UINT_MODULUS. lia. }
  destruct (php_mt_rand_keeps_state true (MT.mkMT (repeat 7 624) 0 0) Hwf)
    as (Hwf' & _ & _ & Hleft & _).
  split; [exact Hwf|]. split; [exact Hwf'|exact Hleft].
Defined.

Lemma land_mask32 (a : Z) : Z.land a 0xffffffff = a mod 2 ^ 32.
Proof. change 0xffffffff with (Z.ones 32). apply Z.land_ones. lia. Qed.

Lemma init_word_mod (r i : Z) :
  Z.land (u32 (u32 (1812433253 * Z.lxor r (Z.shiftr r 30)) + i)) 0xffffffff
  = (1812433253 * Z.lxor r (Z.shiftr r 30) + i) mod 2 ^ 32.
Proof.
  rewrite land_mask32. unfold u32, UINT_MODULUS.
  rewrite Z.mod_mod by lia. rewrite Z.add_mod_idemp_l by lia. reflexivity.
Qed.

Lemma mt_init_loop_length (n : nat) :
  forall (st : list Z) (i : Z), length (MT.init_loop n st i) = length st.
Proof.
  induction n as [|n IH]; intros st i; cbn [MT.init_loop]; [reflexivity|].
  cbv zeta. rewrite IH. apply length_insert.
Qed.

Lemma mt_init_loop_below (n : nat) :
  forall (st : list Z) (i j : Z), 0 <= j < i ->
    MT.word_at (MT.init_loop n st i) j = MT.word_at st j.
Proof.
  induction n as [|n IH]; intros st i j Hj; cbn [MT.init_loop]; [reflexivity|].
  cbv zeta. rewrite IH by lia. apply word_at_insert_ne. lia.
Qed.

Lemma mt_init_loop_app (a b : nat) :
  forall (st : list Z) (i : Z),
    MT.init_loop (a + b) st i = MT.init_loop b (MT.init_loop a st i) (i + Z.of_nat a).
Proof.
  induction a as [|a IH]; intros st i.
  - cbn [Nat.add MT.init_loop]. now replace (i + Z.of_nat 0) with i by lia.
  - cbn [Nat.add MT.init_loop]. cbv zeta. rewrite IH.
    now replace (i + 1 + Z.of_nat a) with (i + Z.of_nat (S a)) by lia.
Qed.

(** Each word the loop writes comes from the word before it. *)
Lemma mt_init_loop_words (n : nat) :
  forall (st : list Z) (i j : Z),
    1 <= i -> i + Z.of_nat n <= Z.of_nat (length st) -> i <= j < i + Z.of_nat n ->
    MT.word_at (MT.init_loop n st i) j
    = (1812433253 * Z.lxor (MT.word_at (MT.init_loop n st i) (j - 1))
                      (Z.shiftr (MT.word_at (MT.init_loop n st i) (j - 1)) 30) + j)
      mod 2 ^ 32.
Proof.
  induction n as [|n IH]; intros st i j Hi Hn Hj; [lia|].
  cbn [MT.init_loop]. cbv zeta.
  destruct (Z.eq_dec j i) as [->|Hne].
  - rewrite !mt_init_loop_below by lia.
    rewrite word_at_insert by lia. rewrite word_at_insert_ne by lia.
    apply init_word_mod.
  - apply IH; rewrite ?length_insert; lia.
Qed.

Lemma forall_word_at (P : Z -> Prop) (st : list Z) :
  (forall j, 0 <= j < Z.of_nat (length st) -> P (MT.word_at st j)) -> Forall P st.
Proof.
  intros H. apply Forall_lookup_2. intros k x Hk.
  pose proof (lookup_lt_Some _ _ _ Hk) as Hlt.
  specialize (H (Z.of_nat k) ltac:(lia)). unfold MT.word_at in H.
  rewrite Nat2Z.id in H. now rewrite (nth_lookup_Some _ _ _ _ Hk) in H.
Qed.

Lemma mt_srand_words (seed : Z) (st0 : MT.MTState) :
  length (MT.state st0) = 624%nat ->
  length (MT.state (MT.mt_srand seed st0)) = 624%nat
  /\ MT.word_at (MT.state (MT.mt_srand seed st0)) 0 = seed mod 2 ^ 32
  /\ forall j, 1 <= j < 624 ->
       MT.word_at (MT.state (MT.mt_srand seed st0)) j
       = (1812433253 * Z.lxor (MT.word_at (MT.state (MT.mt_srand seed st0)) (j - 1))
                         (Z.shiftr (MT.word_at (MT.state (MT.mt_srand seed st0)) (j - 1)) 30)
          + j) mod 2 ^ 32.
Proof.
  intros Hlen. unfold MT.mt_srand, MT.mtInitialize. cbv zeta.
  cbn [MT.state MT.left MT.next].
  remember (Z.to_nat (MT.N - 1)) as n eqn:En.
  assert (Hn : Z.of_nat n = 623) by (subst n; unfold MT.N; lia).
  clear En.
  set (st1 := <[0%nat := Z.land seed 4294967295]> (MT.state st0)).
  assert (Hlen1 : length st1 = 624%nat) by (unfold st1; now rewrite length_insert).
  split; [now rewrite mt_init_loop_length|]. split.
  - rewrite mt_init_loop_below by lia. unfold st1.
    rewrite (word_at_insert (MT.state st0) 0) by (rewrite Hlen; lia).
    apply land_mask32.
  - intros j Hj. apply mt_init_loop_words; rewrite ?Hlen1; lia.
Qed.

Lemma mt_srand_words_u32 (seed : Z) (st0 : MT.MTState) :
  length (MT.state st0) = 624%nat -> Forall is_u32 (MT.state (MT.mt_srand seed st0)).
Proof.
  intros Hlen. destruct (mt_srand_words seed st0 Hlen) as (L & H0 & Hrec).
  apply forall_word_at. rewrite L. intros j Hj.
  destruct (Z.eq_dec j 0) as [->|Hne].
  - rewrite H0. unfold is_u32, UINT_MODULUS. apply Z.mod_pos_bound. lia.
  - rewrite Hrec by lia. unfold is_u32, UINT_MODULUS. apply Z.mod_pos_bound. lia.
Qed.

Lemma mt_srand_state_independent (seed : Z) (st0 st1 : MT.MTState) :
  length (MT.state st0) = 624%nat -> length (MT.state st1) = 624%nat ->
  MT.state (MT.mt_srand seed st0) = MT.state (MT.mt_srand seed st1).
Proof.
  intros Hlen0 Hlen1.
  destruct (mt_srand_words seed st0 Hlen0) as (L0 & Z0 & R0).
  destruct (mt_srand_words seed st1 Hlen1) as (L1 & Z1 & R1).
  revert L0 Z0 R0 L1 Z1 R1.
  generalize (MT.state (MT.mt_srand seed st0)) (MT.state (MT.mt_srand seed st1)).
  intros w0 w1 L0 Z0 R0 L1 Z1 R1.
  assert (Hw : forall n : nat, (n < 624)%nat ->
            MT.word_at w0 (Z.of_nat n) = MT.word_at w1 (Z.of_nat n)).
  { induction n as [|n IH]; intros Hn.
    - replace (Z.of_nat 0) with 0 by lia. now rewrite Z0, Z1.
    - rewrite R0, R1 by lia.
      replace (Z.of_nat (S n) - 1) with (Z.of_nat n) by lia.
      now rewrite IH by lia. }
  apply (nth_ext w0 w1 0 0); [now rewrite L0, L1|].
  intros n Hn. specialize (Hw n ltac:(lia)). unfold MT.word_at in Hw.
  now rewrite Nat2Z.id in Hw.
Qed.

(** [mt_srand] overwrites the whole state: word 0 is the seed, every
    later word follows from the one before it by Knuth's recurrence, and
    the generator is left consistent with nothing to hand out, so that
    the first call reloads.  What the 624 words held before plays no
    part. *)
Theorem mt_srand_seeds (seed : Z) (st0 st1 : MT.MTState) :
  length (MT.state st0) = 624%nat -> length (MT.state st1) = 624%nat ->
  MT.wf (MT.mt_srand seed st0)
  /\ MT.left (MT.mt_srand seed st0) = 0
  /\ MT.state (MT.mt_srand seed st0) = MT.state (MT.mt_srand seed st1)
  /\ MT.word_at (MT.state (MT.mt_srand seed st0)) 0 = seed mod 2 ^ 32
  /\ forall j, 1 <= j < 624 ->
       MT.word_at (MT.state (MT.mt_srand seed st0)) j
       = (1812433253 * Z.lxor (MT.word_at (MT.state (MT.mt_srand seed st0)) (j - 1))
                         (Z.shiftr (MT.word_at (MT.state (MT.mt_srand seed st0)) (j - 1)) 30)
          + j) mod 2 ^ 32.
Proof.
  intros Hlen Hlen1. destruct (mt_srand_words seed st0 Hlen) as (L & H0 & Hrec).
  split; [|split; [reflexivity|split; [|split; [exact H0|exact Hrec]]]].
  - split; [exact L|]. split; [now apply mt_srand_words_u32|].
    assert (Hl : MT.left (MT.mt_srand seed st0) = 0) by reflexivity.
    rewrite Hl. unfold MT.N. split; [lia|now left].
  - now apply mt_srand_state_independent.
Qed.

Lemma mt_srand_seeds_witness :
  MT.wf (MT.mt_srand 1000 (MT.mkMT (repeat 0 624) 0 0))
  /\ MT.state (MT.mt_srand 1000 (MT.mkMT (repeat 0 624) 0 0))
     = MT.state (MT.mt_srand 1000 (MT.mkMT (repeat 7 624) 5 9))
  /\ MT.word_at (MT.state (MT.mt_srand 1000 (MT.mkMT (repeat 0 624) 0 0))) 0 = 1000.
Proof.
  destruct (mt_srand_seeds 1000 (MT.mkMT (repeat 0 624) 0 0) (MT.mkMT (repeat 7 624) 5 9))
    as (Hwf & _ & Hsame & H0 & _).
  - reflexivity.
  - reflexivity.
  - split; [exact Hwf|]. split; [exact Hsame|exact H0].
Defined.

Lemma wiki_word_at_insert (st : list (option Z)) (k : Z) (v : Z) :
  0 <= k < Z.of_nat (length st) ->
  Wikihash.word_at (<[Z.to_nat k := Some v]> st) k = Some v.
Proof.
  intros Hk. unfold Wikihash.word_at.
  destruct (Z.ltb_spec k 0) as [Hlt|_]; [lia|].
  rewrite list_lookup_insert_eq by lia. reflexivity.
Qed.

Lemma wiki_word_at_insert_ne (st : list (option Z)) (j k : Z) (v : option Z) :
  0 <= j -> 0 <= k -> j <> k ->
  Wikihash.word_at (<[Z.to_nat j := v]> st) k = Wikihash.word_at st k.
Proof.
  intros Hj Hk Hne. unfold Wikihash.word_at.
  rewrite list_lookup_insert_ne by lia. reflexivity.
Qed.

(** The initialisation of the plug-in writes, word for word, what
    [mtInitialize] writes, as far as it goes. *)
Lemma wiki_init_loop_simulates (n : nat) :
  forall (wst : list (option Z)) (st : list Z) (i : Z),
    1 <= i -> i + Z.of_nat n <= Z.of_nat (length wst) -> length st = length wst ->
    (forall j, 0 <= j < i -> Wikihash.word_at wst j = Some (MT.word_at st j)) ->
    exists wst',
      Wikihash.init_loop n wst i = Some wst'
      /\ forall j, 0 <= j < i + Z.of_nat n ->
           Wikihash.word_at wst' j = Some (MT.word_at (MT.init_loop n st i) j).
Proof.
  induction n as [|n IH]; intros wst st i Hi Hn Hlen Hag.
  - exists wst. split; [reflexivity|]. intros j Hj. apply Hag. lia.
  - cbn [Wikihash.init_loop MT.init_loop]. cbv zeta.
    rewrite (Hag (i - 1)) by lia. cbn [mbind option_bind].
    set (v := Z.land (u32 (u32 (1812433253 * Z.lxor (MT.word_at st (i - 1))
                                    (Z.shiftr (MT.word_at st (i - 1)) 30)) + i))
                4294967295).
    destruct (IH (<[Z.to_nat i := Some v]> wst) (<[Z.to_nat i := v]> st) (i + 1))
      as (wst' & Hrun & Hag').
    + lia.
    + rewrite length_insert. lia.
    + now rewrite !length_insert.
    + intros j Hj. destruct (Z.eq_dec j i) as [->|Hne].
      * rewrite wiki_word_at_insert by lia. now rewrite word_at_insert by lia.
      * rewrite wiki_word_at_insert_ne by lia. rewrite word_at_insert_ne by lia.
        apply Hag. lia.
    + exists wst'. split; [exact Hrun|]. intros j Hj. apply Hag'. lia.
Qed.

Lemma wiki_twist_php_twist (m u v : Z) : Wikihash.twist m u v = MT.php_twist m u v.
Proof. reflexivity. Qed.

Lemma wiki_temper_temper (y : Z) : Wikihash.temper y = MT.temper y.
Proof. reflexivity. Qed.

Lemma nth_map_seq {A : Type} (f : nat -> A) (d : A) (n : nat) :
  forall (s j : nat), (j < n)%nat -> nth j (map f (seq s n)) d = f (s + j)%nat.
Proof.
  induction n as [|n IH]; intros s j Hj; [lia|].
  cbn [seq map]. destruct j as [|j]; cbn [nth].
  - now rewrite Nat.add_0_r.
  - rewrite IH by lia. f_equal. lia.
Qed.

(** While words are left, [n] calls hand out the next [n] words of the
    state, tempered and shifted. *)
Lemma php_mt_rand_calls_no_reload (b : bool) (n : nat) :
  forall (mtInfo : MT.MTState) (s : nat),
    Z.of_nat n <= MT.left mtInfo <= MT.N ->
    fst (MT.php_mt_rand_calls n b mtInfo)
    = map (fun j => Z.shiftr (MT.temper (MT.word_at (MT.state mtInfo)
                                           (MT.next mtInfo + Z.of_nat j - Z.of_nat s))) 1)
        (seq s n).
Proof.
  induction n as [|n IH]; intros mtInfo s Hleft; [reflexivity|].
  cbn [MT.php_mt_rand_calls]. unfold MT.php_mt_rand, MT.mt_rand. cbv zeta.
  destruct (Z.eqb_spec (MT.left mtInfo) 0) as [H0|H0]; [lia|].
  specialize (IH (MT.mkMT (MT.state mtInfo) (u32 (MT.left mtInfo - 1)) (MT.next mtInfo + 1))
                 (S s)).
  destruct (MT.php_mt_rand_calls n b
              (MT.mkMT (MT.state mtInfo) (u32 (MT.left mtInfo - 1)) (MT.next mtInfo + 1)))
    as [vs mt'].
  cbn [fst] in IH |- *. cbn [seq map]. f_equal.
  - now replace (MT.next mtInfo + Z.of_nat s - Z.of_nat s) with (MT.next mtInfo) by lia.
  - rewrite IH.
    + cbn [MT.state MT.next]. apply map_ext. intros j. do 3 f_equal. lia.
    + cbn [MT.left]. unfold u32, UINT_MODULUS. unfold MT.N in *.
      rewrite Z.mod_small by lia. lia.
Qed.

(** With nothing left the first call reloads, whatever comes after. *)
Lemma php_mt_rand_calls_reload (b : bool) (n : nat) (mtInfo : MT.MTState) :
  MT.left mtInfo = 0 ->
  fst (MT.php_mt_rand_calls n b mtInfo)
  = fst (MT.php_mt_rand_calls n b (MT.mtReload b mtInfo)).
Proof.
  intros H0. destruct n as [|n]; [reflexivity|].
  cbn [MT.php_mt_rand_calls]. unfold MT.php_mt_rand, MT.mt_rand. cbv zeta.
  rewrite H0. cbn [Z.eqb]. 
  assert (Hl : (MT.left (MT.mtReload b mtInfo) =? 0) = false) by reflexivity.
  rewrite Hl. reflexivity.
Qed.

(** After [mt_srand], call [j + 1] of the first 624 returns word [j]
    of the reloaded state, tempered and shifted. *)
Lemma php_mt_rand_calls_after_srand (b : bool) (seed : Z) (st0 : MT.MTState) (n j : nat) :
  (j < n)%nat -> (n <= 624)%nat ->
  nth j (fst (MT.php_mt_rand_calls n b (MT.mt_srand seed st0))) 0
  = Z.shiftr (MT.temper (MT.word_at (MT.state (MT.mtReload b (MT.mt_srand seed st0)))
                           (Z.of_nat j))) 1.
Proof.
  intros Hj Hn.
  rewrite php_mt_rand_calls_reload by reflexivity.
  rewrite (php_mt_rand_calls_no_reload b n _ 0).
  - rewrite nth_map_seq by exact Hj. do 3 f_equal.
    assert (Hnext : MT.next (MT.mtReload b (MT.mt_srand seed st0)) = 0) by reflexivity.
    rewrite Hnext. lia.
  - assert (Hl : MT.left (MT.mtReload b (MT.mt_srand seed st0)) = MT.N) by reflexivity.
    rewrite Hl. unfold MT.N. lia.
Qed.

(** The words the plug-in reads after its shortened initialisation are
    all written, and they are the words [mt_srand] puts there. *)
Lemma wiki_initialize_words (seed : Z) (st0 : MT.MTState) :
  length (MT.state st0) = 624%nat ->
  exists wst,
    Wikihash.php_mt_initialize seed (repeat None (Z.to_nat Wikihash.N)) = Some wst
    /\ forall j, 0 <= j < 424 ->
         Wikihash.word_at wst j = Some (MT.word_at (MT.state (MT.mt_srand seed st0)) j).
Proof.
  intros Hlen. unfold Wikihash.php_mt_initialize, MT.mt_srand, MT.mtInitialize.
  cbv zeta. cbn [MT.state].
  remember (Z.to_nat (Wikihash.N - 200 - 1)) as a eqn:Ea.
  remember (Z.to_nat (MT.N - 1)) as n eqn:En.
  remember (Z.to_nat Wikihash.N) as len eqn:El.
  assert (Ha : Z.of_nat a = 423) by (subst a; unfold Wikihash.N; lia).
  assert (Hn : n = (a + (n - a))%nat) by (subst; unfold MT.N, Wikihash.N; lia).
  assert (Hl : len = 624%nat) by (subst len; unfold Wikihash.N; lia).
  clear Ea En El. rewrite Hn. rewrite mt_init_loop_app.
  destruct (wiki_init_loop_simulates a
              (<[0%nat := Some (Z.land seed 4294967295)]> (repeat None len))
              (<[0%nat := Z.land seed 4294967295]> (MT.state st0)) 1)
    as (wst & Hrun & Hag).
  - lia.
  - rewrite length_insert, repeat_length. lia.
  - rewrite !length_insert, repeat_length. lia.
  - intros j Hj. replace j with 0 by lia.
    rewrite (wiki_word_at_insert _ 0) by (rewrite repeat_length; lia).
    now rewrite (word_at_insert _ 0) by lia.
  - exists wst. split; [exact Hrun|]. intros j Hj.
    rewrite Hag by lia. f_equal. symmetry. apply mt_init_loop_below. lia.
Qed.

Lemma wiki_randoms_words (seed : Z) (st0 : MT.MTState) :
  length (MT.state st0) = 624%nat ->
  Wikihash.wiki_randoms seed
  = Some (Z.shiftr (MT.temper (MT.php_twist
                                 (MT.word_at (MT.state (MT.mt_srand seed st0)) 401)
                                 (MT.word_at (MT.state (MT.mt_srand seed st0)) 4)
                                 (MT.word_at (MT.state (MT.mt_srand seed st0)) 5))) 1,
          Z.shiftr (MT.temper (MT.php_twist
                                 (MT.word_at (MT.state (MT.mt_srand seed st0)) 402)
                                 (MT.word_at (MT.state (MT.mt_srand seed st0)) 5)
                                 (MT.word_at (MT.state (MT.mt_srand seed st0)) 6))) 1).
Proof.
  intros Hlen.
  destruct (wiki_initialize_words seed st0 Hlen) as (wst & Hinit & Hag).
  unfold Wikihash.wiki_randoms. rewrite Hinit. cbn [mbind option_bind]. cbv zeta.
  rewrite !Hag by (unfold Wikihash.M, Wikihash.OFFSET; lia).
  cbn [mbind option_bind]. clear Hinit Hag.
  generalize (MT.state (MT.mt_srand seed st0)). intros words.
  rewrite (wiki_twist_php_twist (MT.word_at words (Wikihash.M + Wikihash.OFFSET))).
  rewrite (wiki_twist_php_twist (MT.word_at words (Wikihash.M + Wikihash.OFFSET + 1))).
  rewrite !wiki_temper_temper.
  reflexivity.
Qed.

(** The two numbers [mediawikiHash] hashes are the fifth and the sixth
    value [php_mt_rand] returns after [mt_srand] with the same seed, with
    PHP's twist: the plug-in initialises only the first 424 words and
    reloads only the two it needs. *)
Theorem wiki_randoms_are_php_mt_rand (seed : Z) (st0 : MT.MTState) :
  length (MT.state st0) = 624%nat ->
  Wikihash.wiki_randoms seed
  = Some (nth 4 (fst (MT.php_mt_rand_calls 6 true (MT.mt_srand seed st0))) 0,
          nth 5 (fst (MT.php_mt_rand_calls 6 true (MT.mt_srand seed st0))) 0).
Proof.
  intros Hlen.
  rewrite (php_mt_rand_calls_after_srand true seed st0 6 4) by lia.
  rewrite (php_mt_rand_calls_after_srand true seed st0 6 5) by lia.
  assert (Hlen' : length (MT.state (MT.mt_srand seed st0)) = 624%nat).
  { now destruct (mt_srand_words seed st0 Hlen) as (L & _). }
  rewrite (mtReload_first_words true _ (Z.of_nat 4) Hlen') by (unfold MT.N, MT.M; lia).
  rewrite (mtReload_first_words true _ (Z.of_nat 5) Hlen') by (unfold MT.N, MT.M; lia).
  rewrite (wiki_randoms_words seed st0 Hlen). clear Hlen'.
  generalize (MT.state (MT.mt_srand seed st0)). intros words.
  reflexivity.
Qed.

Lemma wiki_randoms_are_php_mt_rand_witness :
  Wikihash.wiki_randoms 1000 = Some (115944203, 2115752409)
  /\ fst (MT.php_mt_rand_calls 6 true (MT.mt_srand 1000 (MT.mkMT (repeat 0 624) 0 0)))
     = [753084335; 1694858333; 246975523; 1310787424; 115944203; 2115752409].
Proof.
  split.
  - rewrite (wiki_randoms_are_php_mt_rand 1000 (MT.mkMT (repeat 0 624) 0 0)); reflexivity.
  - vm_compute. reflexivity.
Defined.









Lemma reload_loop_above (twist : Z -> Z -> Z -> Z) (off : Z) :
  forall (n : nat) (st : list Z) (k idx : Z),
    0 <= k -> k + Z.of_nat n <= idx ->
    MT.word_at (MT.reload_loop n twist off st k) idx = MT.word_at st idx.
Proof.
  induction n as [|n IH]; intros st k idx Hk Hidx; cbn [MT.reload_loop]; [reflexivity|].
  rewrite IH by lia. apply word_at_insert_ne. lia.
Qed.

Lemma reload_loop_backward (twist : Z -> Z -> Z -> Z) (off : Z) :
  off < 0 ->
  forall (n : nat) (st : list Z) (k idx : Z),
    0 <= k + off -> k + Z.of_nat n <= Z.of_nat (length st) ->
    k <= idx < k + Z.of_nat n ->
    MT.word_at (MT.reload_loop n twist off st k) idx
    = twist (MT.word_at (MT.reload_loop n twist off st k) (idx + off))
        (MT.word_at st idx) (MT.word_at st (idx + 1)).
Proof.
  intros Hoff. induction n as [|n IH]; intros st k idx Hk Hn Hidx; [lia|].
  cbn [MT.reload_loop].
  destruct (Z.eq_dec idx k) as [->|Hne].
  - rewrite !reload_loop_below by lia.
    rewrite word_at_insert by lia. now rewrite word_at_insert_ne by lia.
  - rewrite IH by (rewrite ?length_insert; lia).
    rewrite (word_at_insert_ne st k idx) by lia.
    now rewrite (word_at_insert_ne st k (idx + 1)) by lia.
Qed.

Lemma reload_loop_length (twist : Z -> Z -> Z -> Z) (off : Z) :
  forall (n : nat) (st : list Z) (k : Z),
    length (MT.reload_loop n twist off st k) = length st.
Proof.
  induction n as [|n IH]; intros st k; cbn [MT.reload_loop]; [reflexivity|].
  rewrite IH. apply length_insert.
Qed.

Lemma mtReload_length (b : bool) (mtInfo : MT.MTState) :
  length (MT.state (MT.mtReload b mtInfo)) = length (MT.state mtInfo).
Proof.
  unfold MT.mtReload. cbv zeta. cbn [MT.state].
  now rewrite length_insert, !reload_loop_length.
Qed.

(** [mtReload] computes the Mersenne Twister recurrence in place: each
    of the first 227 words from the old words at [k], [k + 1] and
    [k + 397]; each later word from the old words at [k] and [k + 1] and
    the new word at [k - 227]; the last one wraps around to the new word
    0.  Afterwards all 624 words are to be handed out, from word 0 on. *)
Theorem mtReload_recurrence (b : bool) (mtInfo : MT.MTState) :
  length (MT.state mtInfo) = 624%nat ->
  (forall k, 0 <= k < 227 ->
     MT.word_at (MT.state (MT.mtReload b mtInfo)) k
     = (if b then MT.php_twist else MT.mt_twist)
         (MT.word_at (MT.state mtInfo) (k + 397))
         (MT.word_at (MT.state mtInfo) k) (MT.word_at (MT.state mtInfo) (k + 1)))
  /\ (forall k, 227 <= k < 623 ->
        MT.word_at (MT.state (MT.mtReload b mtInfo)) k
        = (if b then MT.php_twist else MT.mt_twist)
            (MT.word_at (MT.state (MT.mtReload b mtInfo)) (k - 227))
            (MT.word_at (MT.state mtInfo) k) (MT.word_at (MT.state mtInfo) (k + 1)))
  /\ MT.word_at (MT.state (MT.mtReload b mtInfo)) 623
     = (if b then MT.php_twist else MT.mt_twist)
         (MT.word_at (MT.state (MT.mtReload b mtInfo)) 396)
         (MT.word_at (MT.state mtInfo) 623)
         (MT.word_at (MT.state (MT.mtReload b mtInfo)) 0)
  /\ length (MT.state (MT.mtReload b mtInfo)) = 624%nat
  /\ MT.left (MT.mtReload b mtInfo) = 624
  /\ MT.next (MT.mtReload b mtInfo) = 0.
Proof.
  intros Hlen.
  split; [|split; [|split; [|split; [|split; reflexivity]]]].
  - intros k Hk. rewrite (mtReload_first_words b mtInfo k Hlen) by (unfold MT.N, MT.M; lia).
    reflexivity.
  - intros k Hk. unfold MT.mtReload. cbv zeta. cbn [MT.state].
    remember (Z.to_nat (MT.N - MT.M)) as n1 eqn:E1.
    remember (Z.to_nat (MT.M - 1)) as n2 eqn:E2.
    assert (H1 : Z.of_nat n1 = 227) by (subst n1; unfold MT.N, MT.M; lia).
    assert (H2 : Z.of_nat n2 = 396) by (subst n2; unfold MT.N, MT.M; lia).
    clear E1 E2. unfold MT.N, MT.M.
    set (tw := if b then MT.php_twist else MT.mt_twist).
    set (s1 := MT.reload_loop n1 tw 397 (MT.state mtInfo) 0).
    assert (L1 : length s1 = 624%nat) by (unfold s1; now rewrite reload_loop_length).
    rewrite !(word_at_insert_ne _ (624 - 1)) by lia.
    rewrite (reload_loop_backward tw (397 - 624) ltac:(lia) n2 s1 (624 - 397) k)
      by (rewrite ?L1; lia).
    replace (k + (397 - 624)) with (k - 227) by lia.
    unfold s1. now rewrite !(reload_loop_above tw 397 n1) by lia.
  - unfold MT.mtReload. cbv zeta. cbn [MT.state].
    remember (Z.to_nat (MT.N - MT.M)) as n1 eqn:E1.
    remember (Z.to_nat (MT.M - 1)) as n2 eqn:E2.
    assert (H1 : Z.of_nat n1 = 227) by (subst n1; unfold MT.N, MT.M; lia).
    assert (H2 : Z.of_nat n2 = 396) by (subst n2; unfold MT.N, MT.M; lia).
    clear E1 E2. unfold MT.N, MT.M.
    set (tw := if b then MT.php_twist else MT.mt_twist).
    set (s1 := MT.reload_loop n1 tw 397 (MT.state mtInfo) 0).
    set (s2 := MT.reload_loop n2 tw (397 - 624) s1 (624 - 397)).
    assert (L1 : length s1 = 624%nat) by (unfold s1; now rewrite reload_loop_length).
    assert (L2 : length s2 = 624%nat) by (unfold s2; now rewrite reload_loop_length).
    rewrite (word_at_insert s2 (624 - 1)) by (rewrite L2; lia).
    rewrite (word_at_insert_ne s2 (624 - 1) 396) by lia.
    rewrite (word_at_insert_ne s2 (624 - 1) 0) by lia.
    replace (624 - 1 + (397 - 624)) with 396 by lia.
    f_equal. unfold s2. rewrite reload_loop_above by lia.
    unfold s1. rewrite reload_loop_above by lia. reflexivity.
  - now rewrite mtReload_length.
Qed.

Lemma mtReload_recurrence_witness :
  length (MT.state (MT.mkMT (map Z.of_nat (seq 0 624)) 0 0)) = 624%nat
  /\ MT.word_at (MT.state (MT.mtReload true (MT.mkMT (map Z.of_nat (seq 0 624)) 0 0))) 0
     = MT.php_twist 397 0 1
  /\ MT.left (MT.mtReload true (MT.mkMT (map Z.of_nat (seq 0 624)) 0 0)) = 624.
Proof.
  destruct (mtReload_recurrence true (MT.mkMT (map Z.of_nat (seq 0 624)) 0 0))
    as (Hfirst & _ & _ & _ & Hleft & _).
  - reflexivity.
  - split; [reflexivity|]. split; [|exact Hleft].
    rewrite (Hfirst 0) by lia. reflexivity.
Defined.
